(** * A suffix-array text search tool: shallow embedding and verification

    The development follows the four source files of the repository:
    [util.py] (disk-backed arrays), [sort.py] (insertion sort, quicksort,
    partition, pivot strategies), [build_index.py] (position collector,
    external sorter, verifier) and [search_index.py] (binary search).

    Python containers are modelled as lists, Python integers used as array
    subscripts as [Z] (negative subscripts count from the end, as in
    Python), text offsets stored in the index as [N] (the index holds
    unsigned integers), and every function that can raise or loop returns
    in the [res] monad.  Loops written with [while] take a [fuel]
    argument; running out of it is the outcome [Raise OutOfFuel], and the
    theorems show how much fuel is enough.  The recursion of quicksort
    runs on the interpreter's stack: it takes the [depth] the recursion
    limit leaves, and a call beyond it raises [RecursionError]. *)

From Stdlib Require Import ZArith NArith Lia Bool List Permutation Sorted.
From Stdlib Require Import Strings.Byte.
From stdpp Require Import base list.

Local Open Scope Z_scope.

(** ** util.py *)

Module Util.

(** Outcomes of a Python call that does not return normally. *)
Inductive exn : Type :=
| IndexError
| TypeError
| ValueError
| OverflowError
| RecursionError
| SystemExit (errs : nat)
| OutOfFuel.

Inductive res (X : Type) : Type :=
| Ok (x : X)
| Raise (e : exn).
Arguments Ok {X} x.
Arguments Raise {X} e.

(** Sequencing: the first call that raises ends the computation. *)
Definition bind {X Y} (m : res X) (k : X → res Y) : res Y :=
  match m with
  | Ok x => k x
  | Raise e => Raise e
  end.

Notation "'let*' x ':=' m 'in' k" := (bind m (fun x => k))
  (at level 10, x name, m at level 100, k at level 200).
Notation "'let*' ' p ':=' m 'in' k" := (bind m (fun x => match x with p => k end))
  (at level 10, p pattern, m at level 100, k at level 200).

(** Python's short-circuit [a and b] and [a or b] on comparisons. *)
Definition and_then (a b : res bool) : res bool :=
  let* x := a in if x then b else Ok false.
Definition or_else (a b : res bool) : res bool :=
  let* x := a in if x then Ok true else b.

(** Subscript normalisation of Python sequences: a negative subscript
    counts from the end; anything still outside the sequence raises. *)
Definition norm_index (n : nat) (i : Z) : res nat :=
  let i' := if i <? 0 then i + Z.of_nat n else i in
  if (0 <=? i') && (i' <? Z.of_nat n) then Ok (Z.to_nat i') else Raise IndexError.

(** [array[i]] *)
Definition getitem {A} (array : list A) (i : Z) : res A :=
  let* k := norm_index (length array) i in
  match array !! k with
  | Some x => Ok x
  | None => Raise IndexError
  end.

(** [array[i] = x] *)
Definition setitem {A} (array : list A) (i : Z) (x : A) : res (list A) :=
  let* k := norm_index (length array) i in
  Ok (<[k := x]> array).

(** [array[i], array[j] = array[j], array[i]]: the right-hand side is
    evaluated first, then the two stores happen left to right. *)
Definition swap {A} (array : list A) (i j : Z) : res (list A) :=
  let* x := getitem array j in
  let* y := getitem array i in
  let* array1 := setitem array i x in
  setitem array1 j y.

(** [seq[lo:hi]] for subscripts that are not negative. *)
Definition slice {A} (s : list A) (lo hi : Z) : list A :=
  take (Z.to_nat hi - Z.to_nat lo)%nat (drop (Z.to_nat lo) s).

(** [text[p:q]] on text offsets. *)
Definition text_slice (text : list byte) (p q : N) : list byte :=
  take (N.to_nat q - N.to_nat p)%nat (drop (N.to_nat p) text).

(** [DiskBytesArray.__init__] followed by [__enter__]: map the whole file.
    [mmap(fileno, 0)] maps the file at its current size and raises
    [ValueError] for a file of size zero. *)
Definition DiskBytesArray (file : list byte) : res (list byte) :=
  match file with
  | [] => Raise ValueError
  | _ => Ok file
  end.

(** [DiskIntArray]: the index file seen as a sequence of 4-byte unsigned
    integers.  The file is mapped the same way, so an empty file raises. *)
Definition DiskIntArray (file : list N) : res (list N) :=
  match file with
  | [] => Raise ValueError
  | _ => Ok file
  end.

Definition elemsize : N := 4.

(** [DiskIntArrayBuilder.append]: [value.to_bytes(4, ...)] raises
    [OverflowError] when the value does not fit in four bytes. *)
Definition append (file : list N) (value : N) : res (list N) :=
  if (value <? 2 ^ (8 * elemsize))%N then Ok (file ++ [value]) else Raise OverflowError.

End Util.
Export Util.

(** Comparison operators of a key type, as Python calls them:
    [__lt__], [__gt__], [__le__], [__ge__].  A comparison may itself fail
    to return (see [exact_compare]). *)
Record Ordering (K : Type) : Type := {
  lt : K → K → res bool;
  gt : K → K → res bool;
  le : K → K → res bool;
  ge : K → K → res bool
}.
Arguments lt {K} _ _ _.
Arguments gt {K} _ _ _.
Arguments le {K} _ _ _.
Arguments ge {K} _ _ _.

(** ** sort.py *)

Module Sort.

Section Algorithms.
Context {A K : Type}.
Variable key : A → K.
Variable ord : Ordering K.

(** The [while] loop of [insertion_sort].  The comparison is evaluated
    before [j >= 0], as Python's [and] does, so at [j = -1] it reads
    [array[-1]], the last element. *)
Fixpoint insertion_loop (fuel : nat) (array : list A) (j : Z) : res (list A) :=
  match fuel with
  | O => Raise OutOfFuel
  | S fuel =>
      let* x := getitem array j in
      let* y := getitem array (j + 1) in
      let* c := gt ord (key x) (key y) in
      if c && (0 <=? j) then
        let* array := swap array j (j + 1) in
        insertion_loop fuel array (j - 1)
      else Ok array
  end.

(** [for i in range(0, len(array))] *)
Fixpoint insertion_for (fuel : nat) (array : list A) (i : Z) (n : nat) : res (list A) :=
  match n with
  | O => Ok array
  | S n =>
      let* array := insertion_loop fuel array (i - 1) in
      insertion_for fuel array (i + 1) n
  end.

Definition insertion_sort (fuel : nat) (array : list A) : res (list A) :=
  insertion_for fuel array 0 (length array).

(** Python's [sorted(xs, key=key)]: a stable sort that compares keys with
    [<] only.  Stability fixes the result, so it is modelled by stable
    insertion into a sorted list: an element goes in front of the first
    later element whose key is not smaller than its own. *)
Fixpoint sorted_insert (x : A) (l : list A) : res (list A) :=
  match l with
  | [] => Ok [x]
  | y :: l' =>
      let* c := lt ord (key y) (key x) in
      if c then let* r := sorted_insert x l' in Ok (y :: r)
      else Ok (x :: y :: l')
  end.

Fixpoint sorted (l : list A) : res (list A) :=
  match l with
  | [] => Ok []
  | x :: l' => let* r := sorted l' in sorted_insert x r
  end.

(** [for i, val in enumerate(sorted_array, lo): array[i] = val] *)
Fixpoint store_from (array : list A) (i : Z) (vals : list A) : res (list A) :=
  match vals with
  | [] => Ok array
  | v :: vals =>
      let* array := setitem array i v in
      store_from array (i + 1) vals
  end.

Definition builtin_timsort (array : list A) (lo hi : Z) : res (list A) :=
  let* sorted_array := sorted (slice array lo hi) in
  store_from array lo sorted_array.

(** A pivot strategy; [None] is Python's [None], returned by a strategy
    that falls off its end. *)
Definition PivotSelector : Type := list A → Z → Z → res (option Z).

(** [while lo <= hi and key(array[lo]) < key(pivot_value): lo += 1] *)
Fixpoint scan_lo (fuel : nat) (array : list A) (pivot_value : A) (lo hi : Z) : res Z :=
  match fuel with
  | O => Raise OutOfFuel
  | S fuel =>
      if lo <=? hi then
        let* x := getitem array lo in
        let* c := lt ord (key x) (key pivot_value) in
        if c then scan_lo fuel array pivot_value (lo + 1) hi else Ok lo
      else Ok lo
  end.

(** [while lo <= hi and key(array[hi]) > key(pivot_value): hi -= 1] *)
Fixpoint scan_hi (fuel : nat) (array : list A) (pivot_value : A) (lo hi : Z) : res Z :=
  match fuel with
  | O => Raise OutOfFuel
  | S fuel =>
      if lo <=? hi then
        let* x := getitem array hi in
        let* c := gt ord (key x) (key pivot_value) in
        if c then scan_hi fuel array pivot_value lo (hi - 1) else Ok hi
      else Ok hi
  end.

(** The [while True] loop of [partition]; returns the array and the
    final value of [hi]. *)
Fixpoint partition_loop (fuel : nat) (array : list A) (pivot_value : A) (lo hi : Z)
  : res (list A * Z) :=
  match fuel with
  | O => Raise OutOfFuel
  | S fuel' =>
      let* lo := scan_lo fuel array pivot_value lo hi in
      let* hi := scan_hi fuel array pivot_value lo hi in
      if hi <? lo then Ok (array, hi)
      else
        let* array := swap array lo hi in
        partition_loop fuel' array pivot_value (lo + 1) (hi - 1)
  end.

Definition partition (fuel : nat) (array : list A) (lo hi : Z)
    (pivotselector : PivotSelector) : res (list A * Z) :=
  let* p := pivotselector array lo hi in
  match p with
  | None => Raise TypeError
  | Some pivot =>
      let* array := swap array lo pivot in
      let pivot := lo in
      let lo := lo + 1 in
      let hi := hi - 1 in
      let* pivot_value := getitem array pivot in
      let* '(array, hi) := partition_loop fuel array pivot_value lo hi in
      let* array := swap array pivot hi in
      Ok (array, hi)
  end.

(** [quicksort_subarray].  The function calls itself, and every nested
    call takes a frame of the interpreter's stack, which is bounded by the
    recursion limit (1000 unless [sys.setrecursionlimit] is called, which
    only the [--recursion-limit] option of [sort.py] does; the build never
    does).  [depth] is the number of nested calls of this function the
    limit still admits where it is called, the frames of its callers and
    of its own callees taken off; a call beyond it raises
    [RecursionError].  [fuel] bounds the loops of [partition].  Besides
    the array the function returns the list of subranges handed to
    [builtin_timsort], in call order (a ghost trace; the progress logger
    is not modelled). *)
Fixpoint quicksort_subarray (depth fuel : nat) (array : list A) (lo hi : Z)
    (pivotselector : PivotSelector) (cutoff : Z) : res (list A * list (Z * Z)) :=
  match depth with
  | O => Raise RecursionError
  | S depth' =>
      let size := hi - lo in
      if size =? 0 then Ok (array, [])
      else if size <=? cutoff then
        let* array := builtin_timsort array lo hi in
        Ok (array, [(lo, hi)])
      else
        let* '(array, pivot) := partition fuel array lo hi pivotselector in
        let* '(array, t1) :=
          quicksort_subarray depth' fuel array lo pivot pivotselector cutoff in
        let* '(array, t2) :=
          quicksort_subarray depth' fuel array (pivot + 1) hi pivotselector cutoff in
        Ok (array, t1 ++ t2)
  end.

Definition quicksort_traced (depth fuel : nat) (array : list A)
    (pivotselector : PivotSelector) (cutoff : Z) : res (list A * list (Z * Z)) :=
  quicksort_subarray depth fuel array 0 (Z.of_nat (length array)) pivotselector cutoff.

(** [quicksort(array, key, pivotselector, cutoff=0)] *)
Definition quicksort (depth fuel : nat) (array : list A)
    (pivotselector : PivotSelector) (cutoff : Z) : res (list A) :=
  let* '(array, _) := quicksort_traced depth fuel array pivotselector cutoff in
  Ok array.

Definition take_first_pivot : PivotSelector :=
  fun array lo hi => Ok (Some lo).

(** [random_pivot]: [random.randrange(lo, hi)], the generator being a
    parameter of the model. *)
Definition random_pivot (randrange : Z → Z → Z) : PivotSelector :=
  fun array lo hi => Ok (Some (randrange lo hi)).

Definition median_of_three : PivotSelector :=
  fun array lo hi =>
    let* xlo := getitem array lo in
    let lowkey := key xlo in
    let* xhi := getitem array (hi - 1) in
    let highkey := key xhi in
    let* xmid := getitem array ((hi - 1 + lo) / 2) in
    let mediankey := key xmid in
    let* c1 := or_else (and_then (ge ord lowkey highkey) (le ord lowkey mediankey))
                       (and_then (le ord lowkey highkey) (ge ord lowkey mediankey)) in
    if c1 then Ok (Some lo) else
    let* c2 := or_else (and_then (ge ord mediankey highkey) (le ord mediankey lowkey))
                       (and_then (le ord mediankey highkey) (ge ord mediankey lowkey)) in
    if c2 then Ok (Some ((lo + hi - 1) / 2)) else
    let* c3 := or_else (and_then (ge ord highkey lowkey) (le ord highkey mediankey))
                       (and_then (le ord highkey lowkey) (ge ord highkey mediankey)) in
    if c3 then Ok (Some (hi - 1)) else Ok None.

End Algorithms.

End Sort.

(** ** build_index.py *)

Module BuildIndex.

Import Sort.

(** [bytes.isalnum] on one byte: ASCII letters and digits. *)
Definition isalnum (b : byte) : bool :=
  let n := Byte.to_N b in
  ((48 <=? n) && (n <=? 57) || (65 <=? n) && (n <=? 90) || (97 <=? n) && (n <=? 122))%N.

(** Comparison of [bytes] objects: lexicographic on byte values, a proper
    prefix being smaller. *)
Fixpoint bytes_compare (s t : list byte) : comparison :=
  match s, t with
  | [], [] => Eq
  | [], _ :: _ => Lt
  | _ :: _, [] => Gt
  | x :: s', y :: t' =>
      match (Byte.to_N x ?= Byte.to_N y)%N with
      | Eq => bytes_compare s' t'
      | c => c
      end
  end.

Definition bytes_eqb (s t : list byte) : bool :=
  match bytes_compare s t with Eq => true | _ => false end.
Definition bytes_ltb (s t : list byte) : bool :=
  match bytes_compare s t with Lt => true | _ => false end.
Definition bytes_gtb (s t : list byte) : bool :=
  match bytes_compare s t with Gt => true | _ => false end.
Definition bytes_leb (s t : list byte) : bool :=
  match bytes_compare s t with Gt => false | _ => true end.
Definition bytes_geb (s t : list byte) : bool :=
  match bytes_compare s t with Lt => false | _ => true end.

Definition bytes_ord : Ordering (list byte) := {|
  lt s t := Ok (bytes_ltb s t);
  gt s t := Ok (bytes_gtb s t);
  le s t := Ok (bytes_leb s t);
  ge s t := Ok (bytes_geb s t)
|}.

(** The loop of [collect_corpus_positions]: [i] is the running count of
    [enumerate], [previous] the byte seen before (a space at the start). *)
Fixpoint collect_loop (text : list byte) (i : N) (previous : byte) (index : list N)
  : res (list N) :=
  match text with
  | [] => Ok index
  | char :: text' =>
      let* index :=
        (if isalnum char && negb (isalnum previous) then append index i else Ok index) in
      collect_loop text' (i + 1)%N char index
  end.

(** Returns the contents of the index file it writes. *)
Definition collect_corpus_positions (textfile : list byte) : res (list N) :=
  let* text := DiskBytesArray textfile in
  collect_loop text 0%N " "%byte [].

Definition COMPARE_BUFFER_SIZE : N := 100.

(** [take_prefix(text)]: the key is a [bytes] object of at most 100 bytes. *)
Definition take_prefix (text : list byte) (pos : N) : list byte :=
  text_slice text pos (pos + COMPARE_BUFFER_SIZE)%N.

(** The [while True] loop of the comparison function of [exact_compare]. *)
Fixpoint exact_loop (fuel : nat) (text : list byte) (pos1 pos2 : N) : res Z :=
  match fuel with
  | O => Raise OutOfFuel
  | S fuel =>
      let bytes1 := text_slice text pos1 (pos1 + COMPARE_BUFFER_SIZE)%N in
      let bytes2 := text_slice text pos2 (pos2 + COMPARE_BUFFER_SIZE)%N in
      if negb (bytes_eqb bytes1 bytes2) then
        Ok (if bytes_ltb bytes1 bytes2 then -1 else 1)
      else exact_loop fuel text (pos1 + COMPARE_BUFFER_SIZE)%N (pos2 + COMPARE_BUFFER_SIZE)%N
  end.

(** The inner function [key(pos1, pos2)] of [exact_compare]. *)
Definition exact_key (fuel : nat) (text : list byte) (pos1 pos2 : N) : res Z :=
  if (pos1 =? pos2)%N then Ok 0 else exact_loop fuel text pos1 pos2.

(** [functools.cmp_to_key]: key objects wrap the value and compare by the
    sign of the comparison function. *)
Definition cmp_to_key {X} (mycmp : X → X → res Z) : Ordering X := {|
  lt x y := let* r := mycmp x y in Ok (r <? 0);
  gt x y := let* r := mycmp x y in Ok (0 <? r);
  le x y := let* r := mycmp x y in Ok (r <=? 0);
  ge x y := let* r := mycmp x y in Ok (0 <=? r)
|}.

Definition exact_compare (fuel : nat) (text : list byte) : Ordering N :=
  cmp_to_key (exact_key fuel text).

(** [sort_suffix_array]: the [cutoff] argument is received but the call
    to [quicksort] does not pass it on, so the default [cutoff=0] applies.
    [depth] is the recursion depth left for [quicksort_subarray] (the
    build runs under the interpreter's default limit).  Returns the
    sorted contents of the index file together with the trace of
    subranges delegated to the built-in sort. *)
Definition sort_suffix_array_traced (depth fuel : nat) (textfile : list byte)
    (indexfile : list N) (cutoff : Z) : res (list N * list (Z * Z)) :=
  let* text := DiskBytesArray textfile in
  let* suffixarray := DiskIntArray indexfile in
  let* '(suffixarray, trace) :=
    quicksort_traced (take_prefix text) bytes_ord depth fuel suffixarray
      (median_of_three (take_prefix text) bytes_ord) 0 in
  let* suffixarray := insertion_sort id (exact_compare fuel text) fuel suffixarray in
  Ok (suffixarray, trace).

Definition sort_suffix_array (depth fuel : nat) (textfile : list byte)
    (indexfile : list N) (cutoff : Z) : res (list N) :=
  let* '(suffixarray, _) := sort_suffix_array_traced depth fuel textfile indexfile cutoff in
  Ok suffixarray.

(** State of the scan of [test_sortedness]: the text offset [left], the
    error count, and the lines printed (position and the two previews). *)
Record scan_state : Type := {
  left_ : N;
  errs : nat;
  printed : list (Z * list byte * list byte)
}.

Fixpoint sortedness_loop (fuel : nat) (text : list byte) (rest : list N) (i : Z)
    (st : scan_state) : res scan_state :=
  match rest with
  | [] => Ok st
  | right_ :: rest' =>
      let* c := lt (exact_compare fuel text) (left_ st) right_ in
      let st' :=
        if negb c then
          let lstr := text_slice text (left_ st) (left_ st + 20)%N in
          let rstr := text_slice text right_ (right_ + 20)%N in
          {| left_ := right_;
             errs := S (errs st);
             printed := if (errs st <? 10)%nat then printed st ++ [(i, lstr, rstr)]
                        else printed st |}
        else {| left_ := right_; errs := errs st; printed := printed st |} in
      sortedness_loop fuel text rest' (i + 1) st'
  end.

(** The scan of [test_sortedness], before the final [sys.exit]. *)
Definition sortedness_scan (fuel : nat) (textfile : list byte) (indexfile : list N)
  : res scan_state :=
  let* text := DiskBytesArray textfile in
  let* index := DiskIntArray indexfile in
  sortedness_loop fuel text (drop 1 index) 1 {| left_ := 0%N; errs := 0; printed := [] |}.

Definition test_sortedness (fuel : nat) (textfile : list byte) (indexfile : list N)
  : res unit :=
  let* st := sortedness_scan fuel textfile indexfile in
  if (0 <? errs st)%nat then Raise (SystemExit (errs st)) else Ok tt.

(** Returns the contents of the index file after the build. *)
Definition build_suffix_array (depth fuel : nat) (textfile : list byte) (cutoff : Z)
  : res (list N) :=
  let* indexfile := collect_corpus_positions textfile in
  let* indexfile := sort_suffix_array depth fuel textfile indexfile cutoff in
  let* _ := test_sortedness fuel textfile indexfile in
  Ok indexfile.

Definition SORTING_CUTOFF : Z := 10000.

End BuildIndex.

(** ** search_index.py *)

Module SearchIndex.

Import BuildIndex.

(** The [while high-low>1] loop of [binary_search_first]. *)
Fixpoint search_loop (fuel : nat) (search_key : list byte) (index : list N)
    (text : list byte) (low high : Z) : res (Z * Z) :=
  match fuel with
  | O => Raise OutOfFuel
  | S fuel =>
      if 1 <? high - low then
        let mid := (low + high) / 2 in
        let* ptr := getitem index mid in
        let ptr_key := text_slice text ptr (ptr + N.of_nat (length search_key))%N in
        if bytes_gtb search_key ptr_key then
          search_loop fuel search_key index text (mid + 1) high
        else
          search_loop fuel search_key index text low mid
      else Ok (low, high)
  end.

Definition binary_search_first (fuel : nat) (search_key : list byte) (index : list N)
    (text : list byte) : res Z :=
  let high := Z.of_nat (length index) - 1 in
  let low := 0 in
  let* '(low, high) := search_loop fuel search_key index text low high in
  let* plow := getitem index low in
  if bytes_eqb search_key (text_slice text plow (plow + N.of_nat (length search_key))%N)
  then Ok low
  else
    let* phigh := getitem index high in
    if bytes_eqb search_key (text_slice text phigh (phigh + N.of_nat (length search_key))%N)
    then Ok high
    else Ok (-1).

End SearchIndex.

(** ** Specification vocabulary

    The notions the theorems are stated with. *)

Module Specs.

Import BuildIndex.

(** Lexicographic precedence of byte strings as the data model words it:
    the first differing byte decides, and a string that is exhausted while
    being a strict prefix of the other comes first. *)
Inductive lex_lt : list byte → list byte → Prop :=
| lex_lt_prefix y t : lex_lt [] (y :: t)
| lex_lt_head x y s t : (Byte.to_N x < Byte.to_N y)%N → lex_lt (x :: s) (y :: t)
| lex_lt_tail x s t : lex_lt s t → lex_lt (x :: s) (x :: t).

Definition lex_le (s t : list byte) : Prop := s = t ∨ lex_lt s t.

(** The suffix of the text that starts at an offset. *)
Definition suffix (text : list byte) (p : N) : list byte := drop (N.to_nat p) text.

(** Offsets inside the text. *)
Definition in_text (text : list byte) (p : N) : Prop := (N.to_nat p < length text)%nat.

(** The result of a three-way comparison as the comparator returns it. *)
Definition sign_of (c : comparison) : Z :=
  match c with Lt => -1 | Eq => 0 | Gt => 1 end.

(** Offset [i] is a word start: byte [i] is alphanumeric and either
    [i = 0] or byte [i - 1] is not. *)
Definition word_start (text : list byte) (i : N) : Prop :=
  ∃ c, text !! N.to_nat i = Some c ∧ isalnum c = true ∧
       (i = 0%N ∨ ∃ p, text !! (N.to_nat i - 1)%nat = Some p ∧ isalnum p = false).

Definition word_startb (text : list byte) (k : nat) : bool :=
  match text !! k with
  | Some c =>
      isalnum c &&
      match k with
      | O => true
      | S k' => match text !! k' with Some p => negb (isalnum p) | None => false end
      end
  | None => false
  end.

(** The word starts of a text, in ascending order. *)
Definition word_starts (text : list byte) : list N :=
  map N.of_nat (List.filter (word_startb text) (seq 0 (length text))).

(** The byte the collector holds in [previous] after reading [pre]. *)
Definition previous_of (pre : list byte) : byte :=
  match last pre with Some b => b | None => " "%byte end.

(** The index is sorted by exact suffix order. *)
Definition suffix_sorted (text : list byte) (index : list N) : Prop :=
  ∀ (i j : nat) (p q : N), (i < j)%nat →
    index !! i = Some p → index !! j = Some q →
    lex_le (suffix text p) (suffix text q).

(** The text at an offset, truncated to the key's length. *)
Definition truncated (text search_key : list byte) (p : N) : list byte :=
  text_slice text p (p + N.of_nat (length search_key))%N.

(** Position [i] of the index matches the key. *)
Definition matches (text search_key : list byte) (index : list N) (i : nat) : Prop :=
  ∃ p, index !! i = Some p ∧ truncated text search_key p = search_key.

(** Invariant of the binary search: everything left of [low] is smaller
    than the key. *)
Definition below (text search_key : list byte) (index : list N) (low : Z) : Prop :=
  ∀ (i : nat) (p : N), Z.of_nat i < low → index !! i = Some p →
    bytes_gtb search_key (truncated text search_key p) = true.

(** Invariant of the binary search: [high] is the last position, or the
    key is not greater than the text there. *)
Definition bounded (text search_key : list byte) (index : list N) (high : Z) : Prop :=
  high = Z.of_nat (length index) - 1 ∨
  ∃ p, index !! Z.to_nat high = Some p ∧
       bytes_gtb search_key (truncated text search_key p) = false.

(** Every comparison of two keys returns. *)
Definition comparable {K} (ord : Ordering K) : Prop :=
  ∀ k1 k2 : K,
    (∃ b, lt ord k1 k2 = Ok b) ∧ (∃ b, gt ord k1 k2 = Ok b) ∧
    (∃ b, le ord k1 k2 = Ok b) ∧ (∃ b, ge ord k1 k2 = Ok b).

(** A pivot strategy that returns an index of the subrange it is given. *)
Definition pivot_inrange {A} (pivotselector : list A → Z → Z → res (option Z)) : Prop :=
  ∀ (array : list A) (lo hi : Z),
    0 <= lo < hi → hi <= Z.of_nat (length array) →
    ∃ p, pivotselector array lo hi = Ok (Some p) ∧ lo <= p < hi.

(** The Python comparison operators of a key type implement a total
    order [leb]. *)
Record total_order {K} (ord : Ordering K) (leb : K → K → bool) : Prop := {
  lt_leb : ∀ x y, lt ord x y = Ok (negb (leb y x));
  gt_leb : ∀ x y, gt ord x y = Ok (negb (leb x y));
  le_leb : ∀ x y, le ord x y = Ok (leb x y);
  ge_leb : ∀ x y, ge ord x y = Ok (leb y x);
  leb_total : ∀ x y, leb x y = true ∨ leb y x = true;
  leb_trans : ∀ x y z, leb x y = true → leb y z = true → leb x z = true;
  leb_antisym : ∀ x y, leb x y = true → leb y x = true → x = y
}.

(** What the scan of [partition] learns about an element it leaves on the
    left (resp. right) of the pivot. *)
Definition left_ok {A K} (key : A → K) (ord : Ordering K) (pv x : A) : Prop :=
  lt ord (key x) (key pv) = Ok true ∨ gt ord (key x) (key pv) = Ok false.
Definition right_ok {A K} (key : A → K) (ord : Ordering K) (pv x : A) : Prop :=
  gt ord (key x) (key pv) = Ok true ∨ lt ord (key x) (key pv) = Ok false.

(** Non-decreasing key order. *)
Definition key_le {A K} (key : A → K) (leb : K → K → bool) (x y : A) : Prop :=
  leb (key x) (key y) = true.
Definition key_sorted {A K} (key : A → K) (leb : K → K → bool) (l : list A) : Prop :=
  StronglySorted (key_le key leb) l.

(** [x] is not greater than [y], as [insertion_sort] tests it. *)
Definition not_gt {A K} (key : A → K) (ord : Ordering K) (x y : A) : Prop :=
  gt ord (key x) (key y) = Ok false.

(** Order laws of [>] on the elements that satisfy [P]. *)
Definition gt_asym {A K} (key : A → K) (ord : Ordering K) (P : A → Prop) : Prop :=
  ∀ x y, P x → P y → gt ord (key x) (key y) = Ok true → not_gt key ord y x.
Definition not_gt_trans {A K} (key : A → K) (ord : Ordering K) (P : A → Prop) : Prop :=
  ∀ x y z, P x → P y → P z →
    not_gt key ord x y → not_gt key ord y z → not_gt key ord x z.

(** Integer keys with Python's integer comparisons. *)
Definition Z_ord : Ordering Z := {|
  lt x y := Ok (x <? y);
  gt x y := Ok (x >? y);
  le x y := Ok (x <=? y);
  ge x y := Ok (x >=? y)
|}.

(** The text [b a] and the text [ b a]. *)
Definition text_b_a : list byte := [x62; x20; x61]%byte.
Definition text_sp_b_a : list byte := [x20; x62; x20; x61]%byte.

End Specs.
Export Specs.

(** ** sort.py: the checks of the test harness *)

Module SortChecks.

Import Sort.

(** How a check ends when nothing is raised by an array access or a
    comparison: it passes, or one of its [assert]s fails (the position is
    the one the assertion message reports). *)
Inductive check_outcome : Type :=
| Passed
| OrderingError (i : Z)
| WrongSize
| WrongValue (i : Z).

Section Checks.
Context {A K : Type}.
Variable key : A → K.
Variable ord : Ordering K.

(** The loop of [check_sorted_array] over [array[1:]], counted from 1. *)
Fixpoint check_sorted_loop (rest : list A) (i : Z) (leftKey : K) : res check_outcome :=
  match rest with
  | [] => Ok Passed
  | rightVal :: rest' =>
      let rightKey := key rightVal in
      let* c := lt ord leftKey rightKey in
      if c then check_sorted_loop rest' (i + 1) rightKey
      else Ok (OrderingError i)
  end.

(** [check_sorted_array]: reads [array[0]] before the loop. *)
Definition check_sorted_array (array : list A) : res check_outcome :=
  let* x := getitem array 0 in
  let leftKey := key x in
  check_sorted_loop (drop 1 array) 1 leftKey.

End Checks.

(** The loop of [check_array_contents] over [zip(array, expected)]. *)
Fixpoint contents_loop (pairs : list (N * N)) (i : Z) : check_outcome :=
  match pairs with
  | [] => Passed
  | (val, correct) :: pairs' =>
      if (val =? correct)%N then contents_loop pairs' (i + 1) else WrongValue i
  end.

Definition check_array_contents (array expected : list N) : check_outcome :=
  if (length array =? length expected)%nat
  then contents_loop (zip array expected) 0
  else WrongSize.

(** Comparisons of [ComparableWithCounter] objects wrapping Python
    integers: they compare the wrapped values (the counters are not
    modelled). *)
Definition int_ord : Ordering N := {|
  lt x y := Ok (x <? y)%N;
  gt x y := Ok (y <? x)%N;
  le x y := Ok (x <=? y)%N;
  ge x y := Ok (y <=? x)%N
|}.

(** The body of the innermost loop of [test_sorting_algorithm] for one
    array: [expected = sorted(input_list)], then the sort and the two
    checks. *)
Definition test_body (sort : list N → res (list N)) (numbers : list N)
  : res check_outcome :=
  let input_list := numbers in
  let* expected := sorted id int_ord input_list in
  let* numbers := sort numbers in
  let* o := check_sorted_array id int_ord numbers in
  match o with
  | Passed => Ok (check_array_contents numbers expected)
  | _ => Ok o
  end.

(** [for i in range(size): numbers.append(i)] *)
Fixpoint append_range (file : list N) (i : N) (n : nat) : res (list N) :=
  match n with
  | O => Ok file
  | S n =>
      let* file := append file i in
      append_range file (i + 1)%N n
  end.

(** The shuffling loop of [create_partially_shuffled_array].  The random
    source is a parameter: [coin index] tells whether
    [random.random() < randomness] came out true at that round, and
    [randrange] is [random.randrange]. *)
Fixpoint shuffle_loop (coin : Z → bool) (randrange : Z → Z → Z) (numbers : list N)
    (index size : Z) (n : nat) : res (list N) :=
  match n with
  | O => Ok numbers
  | S n =>
      let* numbers :=
        (if coin index then
           let other := randrange index size in
           swap numbers index other
         else Ok numbers) in
      shuffle_loop coin randrange numbers (index + 1) size n
  end.

(** Returns the contents of the array file. *)
Definition create_partially_shuffled_array (coin : Z → bool) (randrange : Z → Z → Z)
    (size : Z) : res (list N) :=
  let* file := append_range [] 0%N (Z.to_nat size) in
  let* numbers := DiskIntArray file in
  shuffle_loop coin randrange numbers 0 size (Z.to_nat size).

End SortChecks.

(** ** search_index.py: the query *)

Module SearchQuery.

Import BuildIndex SearchIndex.

(** [seq[lo:hi]] for arbitrary integer subscripts: a negative subscript
    counts from the end, and both are clamped to the sequence. *)
Definition clamp_index (n : nat) (i : Z) : Z :=
  if i <? 0 then Z.max (i + Z.of_nat n) 0 else Z.min i (Z.of_nat n).

Definition py_slice {A} (s : list A) (lo hi : Z) : list A :=
  let l := clamp_index (length s) lo in
  let h := clamp_index (length s) hi in
  take (Z.to_nat h - Z.to_nat l)%nat (drop (Z.to_nat l) s).

(** The byte slices [print_keyword_in_context] takes from the text, before
    it decodes and formats them: the context before the match, the match,
    the context after it. *)
Definition context_slices (text : list byte) (start end_ context : Z)
  : list byte * list byte * list byte :=
  let context_start := Z.max 0 (start - context) in
  let context_end := Z.min (Z.of_nat (length text)) (end_ + context) in
  (py_slice text context_start start,
   py_slice text start end_,
   py_slice text end_ context_end).

(** The [for i in range(start, len(index))] loop of [search_suffix_array];
    [n] counts the rounds left.  The result lists the calls of
    [print_keyword_in_context], as pairs (word_index, word_end). *)
Fixpoint search_for (n : nat) (i start num_matches : Z) (search_key : list byte)
    (index : list N) (text : list byte) (out : list (N * N)) : res (list (N * N)) :=
  match n with
  | O => Ok out
  | S n =>
      if num_matches <=? i - start then Ok out
      else
        let* word_index := getitem index i in
        let word_end := (word_index + N.of_nat (length search_key))%N in
        let out :=
          if bytes_eqb (text_slice text word_index word_end) search_key
          then out ++ [(word_index, word_end)] else out in
        search_for n (i + 1) start num_matches search_key index text out
  end.

Definition search_suffix_array (fuel : nat) (textfile : list byte) (indexfile : list N)
    (search_key : list byte) (num_matches : Z) : res (list (N * N)) :=
  let* text := DiskBytesArray textfile in
  let* index := DiskIntArray indexfile in
  let* start := binary_search_first fuel search_key index text in
  search_for (Z.to_nat (Z.of_nat (length index) - start)) start start num_matches
    search_key index text [].

End SearchQuery.

(** ** util.py: the index file as bytes *)

Module IndexFile.

(** [sys.byteorder] *)
Inductive byteorder : Type := little | big.

Definition byte_of_N (n : N) : byte :=
  match Byte.of_N n with Some b => b | None => x00 end.

(** [value.to_bytes(4, byteorder=...)] *)
Definition to_bytes (order : byteorder) (value : N) : res (list byte) :=
  if (value <? 2 ^ (8 * elemsize))%N then
    let b0 := byte_of_N (value mod 256) in
    let b1 := byte_of_N ((value / 256) mod 256) in
    let b2 := byte_of_N ((value / 65536) mod 256) in
    let b3 := byte_of_N ((value / 16777216) mod 256) in
    Ok (match order with
        | little => [b0; b1; b2; b3]
        | big => [b3; b2; b1; b0]
        end)
  else Raise OverflowError.

(** [DiskIntArrayBuilder.append] on the bytes of the file. *)
Definition append_bytes (order : byteorder) (file : list byte) (value : N)
  : res (list byte) :=
  let* bs := to_bytes order value in
  Ok (file ++ bs).

(** One element of the view: four bytes read as an unsigned integer. *)
Definition unpack (order : byteorder) (b0 b1 b2 b3 : byte) : N :=
  match order with
  | little => Byte.to_N b0 + 256 * (Byte.to_N b1 + 256 * (Byte.to_N b2 + 256 * Byte.to_N b3))
  | big => Byte.to_N b3 + 256 * (Byte.to_N b2 + 256 * (Byte.to_N b1 + 256 * Byte.to_N b0))
  end%N.

(** [memoryview(...).cast('I')]: the bytes in groups of four; a length
    that is not a multiple of the item size raises [TypeError]. *)
Fixpoint cast_I (order : byteorder) (bs : list byte) : res (list N) :=
  match bs with
  | [] => Ok []
  | b0 :: b1 :: b2 :: b3 :: rest =>
      let* vs := cast_I order rest in
      Ok (unpack order b0 b1 b2 b3 :: vs)
  | _ => Raise TypeError
  end.

(** [DiskIntArray.__init__] on the bytes of the file: map (an empty file
    raises [ValueError]), then cast. *)
Definition DiskIntArray_bytes (order : byteorder) (file : list byte) : res (list N) :=
  match file with
  | [] => Raise ValueError
  | _ => cast_I order file
  end.

(** Appending a list of values with a builder, starting from an empty
    file. *)
Fixpoint append_all (order : byteorder) (file : list byte) (values : list N)
  : res (list byte) :=
  match values with
  | [] => Ok file
  | v :: values =>
      let* file := append_bytes order file v in
      append_all order file values
  end.

End IndexFile.

(** ** Further specification vocabulary *)

Module MoreSpecs.

Import BuildIndex.

(** The number of adjacent pairs of the sequence [left, rest[0], rest[1],
    ...] in which the suffix at the first offset is not strictly below the
    suffix at the second. *)
Fixpoint violations (text : list byte) (left : N) (rest : list N) : nat :=
  match rest with
  | [] => 0
  | r :: rest' =>
      ((if bytes_ltb (suffix text left) (suffix text r) then 0 else 1)
       + violations text r rest')%nat
  end.

(** [k] lies between [a] and [b], in either order. *)
Definition between {K} (leb : K → K → bool) (k a b : K) : Prop :=
  (leb a k = true ∧ leb k b = true) ∨ (leb b k = true ∧ leb k a = true).

(** Strictly increasing key order. *)
Definition key_lt {A K} (key : A → K) (leb : K → K → bool) (x y : A) : Prop :=
  leb (key y) (key x) = false.

(** The element has the key [k]. *)
Definition same_key {A K} (key : A → K) (leb : K → K → bool) (k : K) (x : A) : bool :=
  leb (key x) k && leb k (key x).

(** The index entry matches the key. *)
Definition matchb (text search_key : list byte) (p : N) : bool :=
  bytes_eqb (truncated text search_key p) search_key.

(** The call of [print_keyword_in_context] for a matching index entry:
    the offsets where the match starts and ends. *)
Definition call_of (search_key : list byte) (p : N) : N * N :=
  (p, (p + N.of_nat (length search_key))%N).

End MoreSpecs.
Export MoreSpecs.

(** * Verification *)

(** ** Array accesses *)

Module ArrayFacts.

Section Arrays.
Context {A : Type}.
Implicit Types (a : list A) (i j : Z) (x y : A).

Lemma norm_index_inrange (n : nat) i :
  0 <= i < Z.of_nat n → norm_index n i = Ok (Z.to_nat i).
Proof.
  intros H. unfold norm_index.
  destruct (Z.ltb_spec i 0); [lia|].
  destruct (Z.leb_spec 0 i); [|lia].
  destruct (Z.ltb_spec i (Z.of_nat n)); [reflexivity|lia].
Qed.

Lemma norm_index_last (n : nat) :
  (0 < n)%nat → norm_index n (-1) = Ok (n - 1)%nat.
Proof.
  intros H. unfold norm_index. simpl.
  destruct (Z.leb_spec 0 (-1 + Z.of_nat n)); [|lia].
  destruct (Z.ltb_spec (-1 + Z.of_nat n) (Z.of_nat n)); [|lia].
  simpl. f_equal. lia.
Qed.

Lemma getitem_inrange a i x :
  0 <= i → a !! Z.to_nat i = Some x → getitem a i = Ok x.
Proof.
  intros Hi Hx. unfold getitem.
  rewrite norm_index_inrange.
  - simpl. rewrite Hx. reflexivity.
  - apply lookup_lt_Some in Hx. lia.
Qed.

Lemma getitem_last a :
  a ≠ [] → ∃ x, getitem a (-1) = Ok x ∧ In x a.
Proof.
  intros Ha. unfold getitem.
  assert (0 < length a)%nat by (destruct a; simpl; [congruence|lia]).
  rewrite norm_index_last by assumption. simpl.
  destruct (a !! (length a - 1)%nat) as [x|] eqn:E.
  - exists x. split; [reflexivity|].
    apply list_elem_of_In, list_elem_of_lookup. eauto.
  - apply lookup_ge_None in E. lia.
Qed.

Lemma getitem_empty i : getitem ([] : list A) i = Raise IndexError.
Proof.
  unfold getitem, norm_index.
  set (i' := if i <? 0 then _ else _).
  destruct ((0 <=? i') && (i' <? Z.of_nat (length (@nil A)))) eqn:E; [|reflexivity].
  apply andb_true_iff in E as [E1 E2].
  apply Z.leb_le in E1. apply Z.ltb_lt in E2. simpl in E2. lia.
Qed.

Lemma setitem_inrange a i x :
  0 <= i < Z.of_nat (length a) → setitem a i x = Ok (<[Z.to_nat i := x]> a).
Proof.
  intros H. unfold setitem. rewrite norm_index_inrange by assumption. reflexivity.
Qed.

Lemma swap_inrange a i j x y :
  0 <= i → 0 <= j →
  a !! Z.to_nat i = Some x → a !! Z.to_nat j = Some y →
  swap a i j = Ok (<[Z.to_nat j := x]> (<[Z.to_nat i := y]> a)).
Proof.
  intros Hi Hj Hx Hy. unfold swap.
  rewrite (getitem_inrange a j y), (getitem_inrange a i x) by assumption. simpl.
  apply lookup_lt_Some in Hx, Hy.
  rewrite setitem_inrange by lia. simpl.
  rewrite setitem_inrange by (rewrite length_insert; lia). reflexivity.
Qed.

Lemma insert_head_Permutation a (k : nat) x y :
  a !! k = Some y → Permutation (x :: a) (y :: <[k := x]> a).
Proof.
  revert k. induction a as [|z a IH]; intros [|k] H; simpl in *; try discriminate.
  - injection H as ->. apply perm_swap.
  - rewrite (perm_swap z x a). rewrite (IH k H).
    rewrite (perm_swap y z). reflexivity.
Qed.

Lemma swap_lookups_Permutation a (m n : nat) x y :
  a !! m = Some x → a !! n = Some y →
  Permutation a (<[n := x]> (<[m := y]> a)).
Proof.
  revert m n. induction a as [|z a IH]; intros [|m] [|n] Hx Hy; simpl in *;
    try discriminate.
  - injection Hx as ->. injection Hy as ->. reflexivity.
  - injection Hx as ->. apply insert_head_Permutation. assumption.
  - injection Hy as ->. apply insert_head_Permutation. assumption.
  - constructor. apply IH; assumption.
Qed.

Lemma swap_Permutation a i j a' :
  0 <= i < Z.of_nat (length a) → 0 <= j < Z.of_nat (length a) →
  swap a i j = Ok a' → Permutation a a' ∧ length a' = length a.
Proof.
  intros Hi Hj H.
  destruct (lookup_lt_is_Some_2 a (Z.to_nat i)) as [x Hx]; [lia|].
  destruct (lookup_lt_is_Some_2 a (Z.to_nat j)) as [y Hy]; [lia|].
  rewrite (swap_inrange a i j x y) in H by (assumption || lia).
  injection H as <-. split.
  - apply swap_lookups_Permutation; assumption.
  - rewrite !length_insert. reflexivity.
Qed.

(** Swapping two neighbours, seen on the list. *)
Lemma swap_adjacent (l1 : list A) x y (l2 : list A) :
  swap (l1 ++ x :: y :: l2) (Z.of_nat (length l1)) (Z.of_nat (length l1) + 1)
  = Ok (l1 ++ y :: x :: l2).
Proof.
  rewrite (swap_inrange _ _ _ x y); try lia.
  - f_equal. rewrite Nat2Z.id.
    replace (Z.to_nat (Z.of_nat (length l1) + 1)) with (length l1 + 1)%nat by lia.
    rewrite insert_app_r_alt by lia. rewrite Nat.sub_diag. simpl.
    rewrite insert_app_r_alt by lia.
    replace (length l1 + 1 - length l1)%nat with 1%nat by lia. reflexivity.
  - rewrite Nat2Z.id. rewrite lookup_app_r by lia. rewrite Nat.sub_diag. reflexivity.
  - replace (Z.to_nat (Z.of_nat (length l1) + 1)) with (length l1 + 1)%nat by lia.
    rewrite lookup_app_r by lia.
    replace (length l1 + 1 - length l1)%nat with 1%nat by lia. reflexivity.
Qed.

End Arrays.

End ArrayFacts.

(** ** The order on byte strings *)

Module BytesFacts.

Import BuildIndex.

Lemma to_N_inj x y : Byte.to_N x = Byte.to_N y → x = y.
Proof.
  intros H. pose proof (Byte.of_to_N x) as Hx. pose proof (Byte.of_to_N y) as Hy.
  rewrite H in Hx. congruence.
Qed.

Lemma bytes_compare_refl s : bytes_compare s s = Eq.
Proof. induction s as [|x s IH]; simpl; [reflexivity|]. rewrite N.compare_refl. exact IH. Qed.

Lemma bytes_compare_eq s t : bytes_compare s t = Eq → s = t.
Proof.
  revert t. induction s as [|x s IH]; intros [|y t] H; simpl in H; try discriminate.
  - reflexivity.
  - destruct (N.compare_spec (Byte.to_N x) (Byte.to_N y)) as [E|E|E]; try discriminate.
    apply to_N_inj in E. subst y. f_equal. apply IH. exact H.
Qed.

Lemma bytes_compare_antisym s t : bytes_compare t s = CompOpp (bytes_compare s t).
Proof.
  revert t. induction s as [|x s IH]; intros [|y t]; simpl; try reflexivity.
  rewrite (N.compare_antisym (Byte.to_N x) (Byte.to_N y)).
  destruct (Byte.to_N x ?= Byte.to_N y)%N; simpl; auto.
Qed.

Lemma bytes_compare_lt s t : bytes_compare s t = Lt ↔ lex_lt s t.
Proof.
  split.
  - revert t. induction s as [|x s IH]; intros [|y t] H; simpl in H; try discriminate.
    + constructor.
    + destruct (N.compare_spec (Byte.to_N x) (Byte.to_N y)) as [E|E|E]; try discriminate.
      * apply to_N_inj in E. subst y. apply lex_lt_tail. auto.
      * apply lex_lt_head. exact E.
  - induction 1; simpl.
    + reflexivity.
    + apply N.compare_lt_iff in H. rewrite H. reflexivity.
    + rewrite N.compare_refl. assumption.
Qed.

Lemma bytes_leb_le s t : bytes_leb s t = true ↔ lex_le s t.
Proof.
  unfold bytes_leb, lex_le. split.
  - destruct (bytes_compare s t) eqn:E; intros H; try discriminate.
    + left. apply bytes_compare_eq. exact E.
    + right. apply bytes_compare_lt. exact E.
  - intros [->|H].
    + rewrite bytes_compare_refl. reflexivity.
    + apply bytes_compare_lt in H. rewrite H. reflexivity.
Qed.

Lemma bytes_compare_trans s t u c :
  bytes_compare s t = c → bytes_compare t u = c → bytes_compare s u = c.
Proof.
  revert t u. induction s as [|x s IH]; intros [|y t] [|z u] H1 H2; simpl in *;
    try congruence.
  destruct (N.compare_spec (Byte.to_N x) (Byte.to_N y)) as [E1|E1|E1];
  destruct (N.compare_spec (Byte.to_N y) (Byte.to_N z)) as [E2|E2|E2];
  destruct (N.compare_spec (Byte.to_N x) (Byte.to_N z)) as [E3|E3|E3];
    try congruence; try lia; eauto.
Qed.

Lemma bytes_leb_total s t : bytes_leb s t = true ∨ bytes_leb t s = true.
Proof.
  unfold bytes_leb. rewrite (bytes_compare_antisym s t).
  destruct (bytes_compare s t); simpl; auto.
Qed.

Lemma bytes_leb_antisym s t : bytes_leb s t = true → bytes_leb t s = true → s = t.
Proof.
  unfold bytes_leb. rewrite (bytes_compare_antisym s t).
  destruct (bytes_compare s t) eqn:E; simpl; try discriminate.
  intros _ _. apply bytes_compare_eq. exact E.
Qed.

Lemma bytes_leb_trans s t u :
  bytes_leb s t = true → bytes_leb t u = true → bytes_leb s u = true.
Proof.
  unfold bytes_leb.
  destruct (bytes_compare s t) eqn:E1; try discriminate;
  destruct (bytes_compare t u) eqn:E2; try discriminate; intros _ _.
  - apply bytes_compare_eq in E1. subst t. rewrite E2. reflexivity.
  - apply bytes_compare_eq in E1. subst t. rewrite E2. reflexivity.
  - apply bytes_compare_eq in E2. subst u. rewrite E1. reflexivity.
  - rewrite (bytes_compare_trans s t u Lt E1 E2). reflexivity.
Qed.

(** Comparing chunk by chunk: the first [n] bytes decide unless they are
    equal, in which case the rest decides. *)
Lemma bytes_compare_chunk (n : nat) s t :
  bytes_compare s t =
  match bytes_compare (take n s) (take n t) with
  | Eq => bytes_compare (drop n s) (drop n t)
  | c => c
  end.
Proof.
  revert s t. induction n as [|n IH]; intros s t.
  - rewrite !take_0, !drop_0. reflexivity.
  - destruct s as [|x s], t as [|y t]; simpl; try reflexivity.
    destruct (Byte.to_N x ?= Byte.to_N y)%N; auto.
Qed.

(** Truncation to a fixed length is monotone. *)
Lemma bytes_leb_take (n : nat) s t :
  bytes_leb s t = true → bytes_leb (take n s) (take n t) = true.
Proof.
  unfold bytes_leb. rewrite (bytes_compare_chunk n s t).
  destruct (bytes_compare (take n s) (take n t)); auto.
Qed.

Lemma text_slice_suffix text (p n : N) :
  text_slice text p (p + n)%N = take (N.to_nat n) (suffix text p).
Proof. unfold text_slice, suffix. f_equal. lia. Qed.

Lemma suffix_add text (p n : N) :
  suffix text (p + n)%N = drop (N.to_nat n) (suffix text p).
Proof. unfold suffix. rewrite drop_drop. f_equal. lia. Qed.

Lemma suffix_length text (p : N) :
  length (suffix text p) = (length text - N.to_nat p)%nat.
Proof. unfold suffix. apply length_drop. Qed.

End BytesFacts.

(** ** The exact comparator *)

Module ExactCompareFacts.

Import BuildIndex BytesFacts.

Lemma bytes_eqb_false_ltb s t :
  bytes_eqb s t = false →
  (if bytes_ltb s t then -1 else 1) = sign_of (bytes_compare s t).
Proof. unfold bytes_eqb, bytes_ltb. destruct (bytes_compare s t); simpl; congruence. Qed.

(** Two suffixes of different lengths are told apart after at most
    as many rounds as the shorter one has bytes. *)
Lemma exact_loop_result text : ∀ (fuel : nat) (p1 p2 : N),
  length (suffix text p1) ≠ length (suffix text p2) →
  (Nat.min (length (suffix text p1)) (length (suffix text p2)) < fuel)%nat →
  exact_loop fuel text p1 p2 = Ok (sign_of (bytes_compare (suffix text p1) (suffix text p2))).
Proof.
  induction fuel as [|fuel IH]; intros p1 p2 Hne Hfuel; [lia|].
  simpl. rewrite !text_slice_suffix.
  set (n := N.to_nat COMPARE_BUFFER_SIZE).
  rewrite (bytes_compare_chunk n (suffix text p1) (suffix text p2)).
  destruct (bytes_eqb (take n (suffix text p1)) (take n (suffix text p2))) eqn:E; simpl.
  - unfold bytes_eqb in E.
    destruct (bytes_compare (take n (suffix text p1)) (take n (suffix text p2))) eqn:C;
      try discriminate.
    apply bytes_compare_eq in C.
    assert (L : length (take n (suffix text p1)) = length (take n (suffix text p2)))
      by (rewrite C; reflexivity).
    rewrite !length_take in L.
    assert (n = 100%nat) as Hn by reflexivity.
    rewrite IH.
    + rewrite !suffix_add. reflexivity.
    + rewrite !suffix_add, !length_drop. fold n. lia.
    + rewrite !suffix_add, !length_drop. fold n. lia.
  - rewrite (bytes_eqb_false_ltb _ _ E). unfold bytes_eqb in E.
    destruct (bytes_compare (take n (suffix text p1)) (take n (suffix text p2)));
      [discriminate|reflexivity|reflexivity].
Qed.

Lemma exact_key_result text (fuel : nat) (p1 p2 : N) :
  (N.to_nat p1 < length text)%nat → (N.to_nat p2 < length text)%nat →
  (length text < fuel)%nat →
  exact_key fuel text p1 p2 = Ok (sign_of (bytes_compare (suffix text p1) (suffix text p2))).
Proof.
  intros H1 H2 Hf. unfold exact_key.
  destruct (N.eqb_spec p1 p2) as [->|Hne].
  - rewrite bytes_compare_refl. reflexivity.
  - apply exact_loop_result; rewrite !suffix_length; lia.
Qed.

Lemma suffix_compare_Eq text (p1 p2 : N) :
  (N.to_nat p1 < length text)%nat → (N.to_nat p2 < length text)%nat →
  bytes_compare (suffix text p1) (suffix text p2) = Eq → p1 = p2.
Proof.
  intros H1 H2 E. apply bytes_compare_eq in E.
  apply (f_equal length) in E. rewrite !suffix_length in E. lia.
Qed.

(** C7.  For offsets [p1], [p2] inside the text and fuel exceeding the
    length of the text, the comparison function of [exact_compare]
    returns; its result is zero exactly when [p1 = p2], and it is negative
    exactly when the suffix at [p1] lexicographically precedes the suffix
    at [p2] (a suffix exhausted at the end of the text while a strict
    prefix of the other comes first). *)
Theorem exact_compare_correct text (fuel : nat) (p1 p2 : N) :
  (N.to_nat p1 < length text)%nat → (N.to_nat p2 < length text)%nat →
  (length text < fuel)%nat →
  ∃ r, exact_key fuel text p1 p2 = Ok r ∧
       (r = 0 ↔ p1 = p2) ∧
       (r < 0 ↔ lex_lt (suffix text p1) (suffix text p2)).
Proof.
  intros H1 H2 Hf. eexists. split; [apply exact_key_result; assumption|].
  pose proof (suffix_compare_Eq text p1 p2 H1 H2) as HEq.
  pose proof (bytes_compare_lt (suffix text p1) (suffix text p2)) as HLt.
  destruct (bytes_compare (suffix text p1) (suffix text p2)) eqn:C; simpl.
  - specialize (HEq eq_refl). subst p2. split; [tauto|].
    split; [lia|]. intros HL. apply HLt in HL. discriminate.
  - split.
    + split; [lia|]. intros ->. rewrite bytes_compare_refl in C. discriminate.
    + split; [intros _; apply HLt; reflexivity|lia].
  - split.
    + split; [lia|]. intros ->. rewrite bytes_compare_refl in C. discriminate.
    + split; [lia|]. intros HL. apply HLt in HL. discriminate.
Qed.

Lemma exact_compare_correct_witness :
  ∃ r, exact_key 4 [x62; x20; x61]%byte 0%N 2%N = Ok r ∧
       (r = 0 ↔ 0%N = 2%N) ∧
       (r < 0 ↔ lex_lt (suffix [x62; x20; x61]%byte 0%N) (suffix [x62; x20; x61]%byte 2%N)).
Proof.
  apply (exact_compare_correct [x62; x20; x61]%byte 4 0%N 2%N); simpl; lia.
Defined.

End ExactCompareFacts.

(** ** The position collector *)

Module CollectFacts.

Import BuildIndex.

Lemma word_startb_spec text (i : N) :
  word_startb text (N.to_nat i) = true ↔ word_start text i.
Proof.
  unfold word_startb, word_start. split.
  - destruct (text !! N.to_nat i) as [c|] eqn:Hc; [|discriminate].
    intros H. apply andb_true_iff in H as [H1 H2].
    exists c. split; [reflexivity|]. split; [assumption|].
    destruct (N.to_nat i) as [|k'] eqn:Hk.
    + left. lia.
    + right. replace (S k' - 1)%nat with k' by lia.
      destruct (text !! k') as [p|]; [|discriminate].
      exists p. split; [reflexivity|]. apply negb_true_iff. exact H2.
  - intros (c & Hc & Hal & Hprev). rewrite Hc, Hal. simpl.
    destruct (N.to_nat i) as [|k'] eqn:Hk; [reflexivity|].
    destruct Hprev as [->|(p & Hp & Hpal)]; [discriminate|].
    replace (S k' - 1)%nat with k' in Hp by lia.
    rewrite Hp, Hpal. reflexivity.
Qed.

Lemma word_startb_at pre c rest :
  word_startb (pre ++ c :: rest) (length pre)
  = isalnum c && negb (isalnum (previous_of pre)).
Proof.
  unfold word_startb. rewrite list_lookup_middle by reflexivity.
  f_equal. unfold previous_of.
  destruct pre as [|b pre] using rev_ind; [reflexivity|].
  rewrite last_snoc, length_app. simpl.
  replace (length pre + 1)%nat with (S (length pre)) by lia.
  rewrite <- app_assoc. simpl.
  rewrite list_lookup_middle by reflexivity. reflexivity.
Qed.

Lemma collect_loop_spec : ∀ rest pre index,
  (N.of_nat (length pre + length rest) <= 2 ^ 32)%N →
  collect_loop rest (N.of_nat (length pre)) (previous_of pre) index
  = Ok (index ++ map N.of_nat
          (List.filter (word_startb (pre ++ rest)) (seq (length pre) (length rest)))).
Proof.
  induction rest as [|c rest IH]; intros pre index Hlen.
  - simpl. rewrite app_nil_r. reflexivity.
  - simpl length in *. cbn [collect_loop seq List.filter].
    rewrite word_startb_at.
    assert (Hpre : pre ++ c :: rest = (pre ++ [c]) ++ rest)
      by (rewrite <- app_assoc; reflexivity).
    assert (Hi : (N.of_nat (length pre) + 1)%N = N.of_nat (length (pre ++ [c])))
      by (rewrite length_app; simpl; lia).
    assert (Hp : previous_of (pre ++ [c]) = c)
      by (unfold previous_of; rewrite last_snoc; reflexivity).
    assert (Hs : S (length pre) = length (pre ++ [c]))
      by (rewrite length_app; simpl; lia).
    assert (IH' : ∀ index', collect_loop rest (N.of_nat (length pre) + 1)%N c index'
              = Ok (index' ++ map N.of_nat
                      (List.filter (word_startb (pre ++ c :: rest))
                         (seq (S (length pre)) (length rest))))).
    { intros index'. pose proof (IH (pre ++ [c]) index') as T.
      rewrite Hp, <- Hi, <- Hpre in T. rewrite <- Hs in T at 2.
      apply T. rewrite length_app. simpl. lia. }
    destruct (isalnum c && negb (isalnum (previous_of pre))).
    + unfold append, elemsize.
      destruct (N.ltb_spec (N.of_nat (length pre)) (2 ^ (8 * 4))) as [_|Hge].
      * cbn [bind]. rewrite IH'. rewrite <- app_assoc. reflexivity.
      * change (2 ^ (8 * 4))%N with (2 ^ 32)%N in Hge. lia.
    + cbn [bind]. apply IH'.
Qed.

Lemma filter_seq_sorted (f : nat → bool) : ∀ (n a : nat),
  StronglySorted N.lt (map N.of_nat (List.filter f (seq a n))) ∧
  Forall (fun i => N.of_nat a <= i)%N (map N.of_nat (List.filter f (seq a n))).
Proof.
  induction n as [|n IH]; intros a; simpl.
  - split; constructor.
  - destruct (IH (S a)) as [Hs Hb].
    assert (Hb' : Forall (fun i => N.of_nat a <= i)%N
                    (map N.of_nat (List.filter f (seq (S a) n)))).
    { eapply Forall_impl; [exact Hb|]. simpl. intros; lia. }
    destruct (f a); simpl; [|split; assumption].
    split.
    + constructor; [assumption|].
      eapply Forall_impl; [exact Hb|]. simpl. intros; lia.
    + constructor; [lia|assumption].
Qed.

Lemma word_starts_In text (i : N) : In i (word_starts text) ↔ word_start text i.
Proof.
  rewrite <- word_startb_spec. unfold word_starts.
  rewrite in_map_iff. split.
  - intros (k & <- & Hk). apply filter_In in Hk as [_ Hk].
    rewrite Nat2N.id. exact Hk.
  - intros H. exists (N.to_nat i). split; [lia|].
    apply filter_In. split; [|exact H].
    apply in_seq. unfold word_startb in H.
    destruct (text !! N.to_nat i) eqn:E; [|discriminate].
    apply lookup_lt_Some in E. lia.
Qed.

(** C6.  On a text whose offsets fit the 4-byte index entries,
    [collect_corpus_positions] writes exactly the word-start offsets, in
    strictly ascending order, so that the index length is the number of
    word starts.  The only other outcome is the refusal to map a 0-byte
    file, in which case nothing is appended. *)
Theorem collect_corpus_positions_correct (textfile : list byte) :
  (N.of_nat (length textfile) <= 2 ^ 32)%N →
  match collect_corpus_positions textfile with
  | Ok index =>
      (∀ i, In i index ↔ word_start textfile i) ∧
      StronglySorted N.lt index ∧
      length index = length (List.filter (word_startb textfile) (seq 0 (length textfile)))
  | Raise e => textfile = [] ∧ e = ValueError
  end.
Proof.
  intros Hlen. unfold collect_corpus_positions.
  destruct textfile as [|b text] eqn:Et; [split; reflexivity|].
  cbn [DiskBytesArray bind]. rewrite <- Et in *. clear Et b text.
  assert (H : collect_loop textfile 0%N " "%byte [] = Ok (word_starts textfile))
    by exact (collect_loop_spec textfile [] [] Hlen).
  rewrite H.
  split; [apply word_starts_In|]. split.
  - apply (filter_seq_sorted (word_startb textfile) (length textfile) 0).
  - unfold word_starts. apply length_map.
Qed.

Lemma collect_corpus_positions_correct_witness :
  (N.of_nat (length [x62; x20; x61]%byte) <= 2 ^ 32)%N ∧
  match collect_corpus_positions [x62; x20; x61]%byte with
  | Ok index =>
      (∀ i, In i index ↔ word_start [x62; x20; x61]%byte i) ∧
      StronglySorted N.lt index ∧
      length index = length (List.filter (word_startb [x62; x20; x61]%byte)
                               (seq 0 (length [x62; x20; x61]%byte)))
  | Raise e => [x62; x20; x61]%byte = [] ∧ e = ValueError
  end.
Proof.
  assert (H : (N.of_nat (length [x62; x20; x61]%byte) <= 2 ^ 32)%N) by (simpl; lia).
  split; [exact H|]. exact (collect_corpus_positions_correct _ H).
Defined.

Lemma collect_loop_spaces : ∀ (n : nat) (rest : list byte) (i : N) (index : list N),
  collect_loop (replicate n " "%byte ++ rest) i " "%byte index
  = collect_loop rest (i + N.of_nat n)%N " "%byte index.
Proof.
  induction n as [|n IH]; intros rest i index.
  - cbn [replicate app]. f_equal. lia.
  - cbn [replicate app collect_loop]. change (isalnum " "%byte) with false.
    cbn [andb bind]. rewrite IH. f_equal. lia.
Qed.

(** A word that starts at an offset of 2^32 or more, here after [n]
    spaces, does not fit an index entry: the collector raises. *)
Lemma collect_beyond_index_range (n : nat) :
  (2 ^ 32 <= N.of_nat n)%N →
  word_start (replicate n " "%byte ++ ["a"%byte]) (N.of_nat n) ∧
  collect_corpus_positions (replicate n " "%byte ++ ["a"%byte]) = Raise OverflowError.
Proof.
  intros Hn. split.
  - exists "a"%byte. rewrite Nat2N.id. split; [|split; [reflexivity|]].
    + rewrite lookup_app_r by (rewrite length_replicate; lia).
      rewrite length_replicate, Nat.sub_diag. reflexivity.
    + right. exists " "%byte. split; [|reflexivity].
      rewrite lookup_app_l by (rewrite length_replicate; lia).
      apply lookup_replicate_2. lia.
  - unfold collect_corpus_positions.
    assert (Et : DiskBytesArray (replicate n " "%byte ++ ["a"%byte])
                 = Ok (replicate n " "%byte ++ ["a"%byte])).
    { destruct n; reflexivity. }
    rewrite Et. cbn [bind]. rewrite collect_loop_spaces. cbn [collect_loop].
    change (isalnum "a"%byte && negb (isalnum " "%byte)) with true. cbv iota.
    unfold append, elemsize.
    destruct (N.ltb_spec (0 + N.of_nat n) (2 ^ (8 * 4))) as [Hlt|_]; [|reflexivity].
    change (2 ^ (8 * 4))%N with (2 ^ 32)%N in Hlt. lia.
Qed.

(** C6 as stated fails at both ends of "every text corpus".  The empty
    corpus cannot be mapped, so the collector raises [ValueError] instead
    of writing an empty index; and in the corpus of 2^32 spaces followed
    by the letter [a], offset 2^32 is a word start, which does not fit
    the four bytes of an index entry, so the collector raises
    [OverflowError] instead of appending it. *)
Lemma collect_corpus_positions_refused :
  collect_corpus_positions [] = Raise ValueError ∧
  word_start (replicate (N.to_nat (2 ^ 32)) " "%byte ++ ["a"%byte]) (2 ^ 32) ∧
  collect_corpus_positions (replicate (N.to_nat (2 ^ 32)) " "%byte ++ ["a"%byte])
  = Raise OverflowError.
Proof.
  split; [reflexivity|].
  assert (H : (2 ^ 32 <= N.of_nat (N.to_nat (2 ^ 32)))%N)
    by (rewrite N2Nat.id; apply N.le_refl).
  destruct (collect_beyond_index_range (N.to_nat (2 ^ 32)) H) as [Hw Hc].
  rewrite N2Nat.id in Hw. split; [exact Hw|exact Hc].
Qed.

End CollectFacts.

(** ** Binary search *)

Module SearchFacts.

Import BuildIndex SearchIndex BytesFacts.

Lemma bytes_eqb_eq s t : bytes_eqb s t = true ↔ s = t.
Proof.
  unfold bytes_eqb. split.
  - destruct (bytes_compare s t) eqn:E; try discriminate.
    intros _. apply bytes_compare_eq. exact E.
  - intros ->. rewrite bytes_compare_refl. reflexivity.
Qed.

Lemma bytes_gtb_leb s t : bytes_gtb s t = negb (bytes_leb s t).
Proof. unfold bytes_gtb, bytes_leb. destruct (bytes_compare s t); reflexivity. Qed.

Lemma truncated_mono text search_key index (i j : nat) (p q : N) :
  suffix_sorted text index → (i <= j)%nat →
  index !! i = Some p → index !! j = Some q →
  bytes_leb (truncated text search_key p) (truncated text search_key q) = true.
Proof.
  intros Hs Hij Hp Hq. unfold truncated. rewrite !text_slice_suffix.
  apply bytes_leb_take. apply bytes_leb_le.
  destruct (Nat.eq_dec i j) as [->|Hne].
  - left. congruence.
  - apply (Hs i j); [lia|assumption|assumption].
Qed.

Section Loop.
Variables (text search_key : list byte) (index : list N).
Hypothesis Hsorted : suffix_sorted text index.

Local Abbreviation below := (Specs.below text search_key index).
Local Abbreviation bounded := (Specs.bounded text search_key index).

Lemma search_loop_spec : ∀ (fuel : nat) (low high : Z),
  0 <= low <= high → high < Z.of_nat (length index) →
  (Z.to_nat (high - low) < fuel)%nat →
  below low → bounded high →
  ∃ low' high',
    search_loop fuel search_key index text low high = Ok (low', high') ∧
    0 <= low' <= high' ∧ high' < Z.of_nat (length index) ∧ high' - low' <= 1 ∧
    below low' ∧ bounded high'.
Proof.
  induction fuel as [|fuel IH]; intros low high Hlh Hhi Hfuel Hb Hbd; [lia|].
  cbn [search_loop].
  destruct (Z.ltb_spec 1 (high - low)) as [Hgap|Hgap].
  - assert (Hmid : low < (low + high) / 2 < high).
    { pose proof (Z.div_mod (low + high) 2 ltac:(lia)) as Hd.
      pose proof (Z.mod_pos_bound (low + high) 2 ltac:(lia)) as Hm. lia. }
    set (mid := (low + high) / 2) in *.
    destruct (lookup_lt_is_Some_2 index (Z.to_nat mid)) as [ptr Hptr]; [lia|].
    rewrite (ArrayFacts.getitem_inrange index mid ptr) by (assumption || lia).
    cbn [bind]. fold (truncated text search_key ptr).
    destruct (bytes_gtb search_key (truncated text search_key ptr)) eqn:Hc.
    + apply IH; try lia; [|assumption].
      intros i p Hi Hp.
      assert (Hle : bytes_leb (truncated text search_key p)
                      (truncated text search_key ptr) = true)
        by (apply (truncated_mono text search_key index i (Z.to_nat mid));
            [assumption|lia|assumption|assumption]).
      rewrite bytes_gtb_leb in *. apply negb_true_iff in Hc. apply negb_true_iff.
      destruct (bytes_leb search_key (truncated text search_key p)) eqn:E;
        [|reflexivity].
      rewrite (bytes_leb_trans _ _ _ E Hle) in Hc. discriminate.
    + apply IH; try lia; [assumption|].
      right. exists ptr. split; assumption.
  - exists low, high. repeat split; try assumption; lia.
Qed.

End Loop.

(** C4.  On a non-empty index sorted by exact suffix order, with fuel
    at least the length of the index, [binary_search_first] returns; the
    result is the least position whose text, truncated to the key's
    length, equals the key, when there is one, and [-1] when there is
    none. *)
Theorem binary_search_first_correct (fuel : nat) (search_key : list byte)
    (index : list N) (text : list byte) :
  index ≠ [] → suffix_sorted text index → (length index <= fuel)%nat →
  ∃ r, binary_search_first fuel search_key index text = Ok r ∧
       ((∃ i, matches text search_key index i) →
          0 <= r ∧ matches text search_key index (Z.to_nat r) ∧
          ∀ i, matches text search_key index i → r <= Z.of_nat i) ∧
       ((∀ i, ¬ matches text search_key index i) → r = -1).
Proof.
  intros Hne Hsorted Hfuel. unfold binary_search_first.
  assert (Hlen : (0 < length index)%nat) by (destruct index; simpl; [congruence|lia]).
  destruct (search_loop_spec text search_key index Hsorted fuel 0
              (Z.of_nat (length index) - 1))
    as (low & high & -> & Hlh & Hhi & Hgap & Hb & Hbd); try lia.
  { intros i p Hi. lia. }
  { left. reflexivity. }
  cbn [bind].
  destruct (lookup_lt_is_Some_2 index (Z.to_nat low)) as [plow Hplow]; [lia|].
  destruct (lookup_lt_is_Some_2 index (Z.to_nat high)) as [phigh Hphigh]; [lia|].
  rewrite (ArrayFacts.getitem_inrange index low plow) by (assumption || lia).
  cbn [bind]. fold (truncated text search_key plow).
  (* no position left of [low] matches *)
  assert (Hleast : ∀ i, matches text search_key index i → low <= Z.of_nat i).
  { intros i (p & Hp & Hm).
    destruct (Z.lt_ge_cases (Z.of_nat i) low) as [Hlt|]; [|assumption].
    specialize (Hb i p Hlt Hp). rewrite Hm in Hb.
    unfold bytes_gtb in Hb. rewrite bytes_compare_refl in Hb. discriminate. }
  (* a match right of [high] makes [high] a match *)
  assert (Hup : ∀ i, matches text search_key index i → high < Z.of_nat i →
                truncated text search_key phigh = search_key).
  { intros i (p & Hp & Hm) Hi.
    destruct Hbd as [->|(p' & Hp' & Hc)].
    - apply lookup_lt_Some in Hp. lia.
    - assert (p' = phigh) by congruence. subst p'.
      rewrite bytes_gtb_leb in Hc. apply negb_false_iff in Hc.
      pose proof (truncated_mono text search_key index (Z.to_nat high) i phigh p
                    Hsorted ltac:(lia) Hphigh Hp) as Hle.
      rewrite Hm in Hle. apply bytes_leb_antisym; assumption. }
  destruct (bytes_eqb search_key (truncated text search_key plow)) eqn:Elow.
  - apply bytes_eqb_eq in Elow. exists low. split; [reflexivity|]. split.
    + intros _. split; [lia|]. split; [|exact Hleast].
      exists plow. split; [assumption|congruence].
    + intros Hnone. exfalso. apply (Hnone (Z.to_nat low)).
      exists plow. split; [assumption|congruence].
  - assert (Hnlow : truncated text search_key plow ≠ search_key).
    { intros E. symmetry in E. apply bytes_eqb_eq in E. congruence. }
    rewrite (ArrayFacts.getitem_inrange index high phigh) by (assumption || lia).
    cbn [bind]. fold (truncated text search_key phigh).
    destruct (bytes_eqb search_key (truncated text search_key phigh)) eqn:Ehigh.
    + apply bytes_eqb_eq in Ehigh. exists high. split; [reflexivity|]. split.
      * intros _. split; [lia|]. split.
        -- exists phigh. split; [assumption|congruence].
        -- intros i Hi. pose proof (Hleast i Hi) as Hl.
           destruct (Z.eq_dec (Z.of_nat i) low) as [E|E]; [|lia].
           destruct Hi as (p & Hp & Hm). exfalso. apply Hnlow.
           replace (Z.to_nat low) with i in Hplow by lia. congruence.
      * intros Hnone. exfalso. apply (Hnone (Z.to_nat high)).
        exists phigh. split; [assumption|congruence].
    + assert (Hnhigh : truncated text search_key phigh ≠ search_key).
      { intros E. symmetry in E. apply bytes_eqb_eq in E. congruence. }
      exists (-1). split; [reflexivity|]. split; [|reflexivity].
      intros (i & Hi). exfalso.
      pose proof (Hleast i Hi) as Hl.
      destruct (Z.lt_ge_cases high (Z.of_nat i)) as [Hgt|Hle].
      * apply Hnhigh. apply (Hup i); assumption.
      * destruct Hi as (p & Hp & Hm).
        destruct (Z.eq_dec (Z.of_nat i) low) as [E|E].
        -- apply Hnlow. replace (Z.to_nat low) with i in Hplow by lia. congruence.
        -- apply Hnhigh. replace (Z.to_nat high) with i in Hphigh by lia. congruence.
Qed.

End SearchFacts.

(** ** Partition *)

Module PartitionFacts.

Import Sort ArrayFacts.

Lemma swap_spec {A} (a : list A) (i j : Z) (x y : A) :
  0 <= i → 0 <= j → a !! Z.to_nat i = Some x → a !! Z.to_nat j = Some y →
  ∃ a', swap a i j = Ok a' ∧ length a' = length a ∧ Permutation a a' ∧
        a' !! Z.to_nat i = Some y ∧ a' !! Z.to_nat j = Some x ∧
        ∀ k : nat, k ≠ Z.to_nat i → k ≠ Z.to_nat j → a' !! k = a !! k.
Proof.
  intros Hi Hj Hx Hy. eexists. split; [apply swap_inrange; eassumption|].
  pose proof (lookup_lt_Some _ _ _ Hx) as Lx.
  pose proof (lookup_lt_Some _ _ _ Hy) as Ly.
  split; [rewrite !length_insert; reflexivity|].
  split; [apply swap_lookups_Permutation; assumption|].
  split; [|split].
  - destruct (Nat.eq_dec (Z.to_nat i) (Z.to_nat j)) as [E|E].
    + rewrite E in *. rewrite list_lookup_insert_eq by (rewrite length_insert; lia).
      congruence.
    + rewrite list_lookup_insert_ne by congruence.
      apply list_lookup_insert_eq. lia.
  - apply list_lookup_insert_eq. rewrite length_insert. lia.
  - intros k Hki Hkj. rewrite !list_lookup_insert_ne by congruence. reflexivity.
Qed.

Section Partition.
Context {A K : Type}.
Variable key : A → K.
Variable ord : Ordering K.
Hypothesis Hcmp : comparable ord.

Implicit Types (a : list A) (pv x : A).

Local Abbreviation left_ok := (Specs.left_ok key ord).
Local Abbreviation right_ok := (Specs.right_ok key ord).

Lemma scan_lo_spec a pv : ∀ (fuel : nat) (lo hi : Z),
  0 <= lo → hi < Z.of_nat (length a) → (Z.to_nat (hi + 1 - lo) < fuel)%nat →
  ∃ lo', scan_lo key ord fuel a pv lo hi = Ok lo' ∧
    lo <= lo' ∧ (lo' <= hi + 1 ∨ lo' = lo) ∧
    (∀ k x, lo <= k < lo' → a !! Z.to_nat k = Some x →
            lt ord (key x) (key pv) = Ok true) ∧
    (lo' <= hi → ∃ x, a !! Z.to_nat lo' = Some x ∧
                      lt ord (key x) (key pv) = Ok false).
Proof.
  induction fuel as [|fuel IH]; intros lo hi Hlo Hhi Hfuel; [lia|].
  cbn [scan_lo]. destruct (Z.leb_spec lo hi) as [Hle|Hgt].
  - destruct (lookup_lt_is_Some_2 a (Z.to_nat lo)) as [x Hx]; [lia|].
    rewrite (getitem_inrange a lo x) by assumption. cbn [bind].
    destruct (Hcmp (key x) (key pv)) as ([b Hb] & _). rewrite Hb. cbn [bind].
    destruct b.
    + destruct (IH (lo + 1) hi) as (lo' & -> & H1 & H2 & H3 & H4); try lia.
      exists lo'. split; [reflexivity|]. split; [lia|]. split; [lia|].
      split; [|assumption].
      intros k y Hk Hy. destruct (Z.eq_dec k lo) as [->|Hne].
      * congruence.
      * apply (H3 k y); [lia|assumption].
    + exists lo. split; [reflexivity|]. split; [lia|]. split; [lia|].
      split; [intros; lia|]. intros _. exists x. split; assumption.
  - exists lo. split; [reflexivity|]. split; [lia|]. split; [lia|].
    split; [intros; lia|]. intros; lia.
Qed.

Lemma scan_hi_spec a pv : ∀ (fuel : nat) (lo hi : Z),
  0 <= lo → hi < Z.of_nat (length a) → (Z.to_nat (hi + 1 - lo) < fuel)%nat →
  ∃ hi', scan_hi key ord fuel a pv lo hi = Ok hi' ∧
    hi' <= hi ∧ (lo - 1 <= hi' ∨ hi' = hi) ∧
    (∀ k x, hi' < k <= hi → a !! Z.to_nat k = Some x →
            gt ord (key x) (key pv) = Ok true) ∧
    (lo <= hi' → ∃ x, a !! Z.to_nat hi' = Some x ∧
                      gt ord (key x) (key pv) = Ok false).
Proof.
  induction fuel as [|fuel IH]; intros lo hi Hlo Hhi Hfuel; [lia|].
  cbn [scan_hi]. destruct (Z.leb_spec lo hi) as [Hle|Hgt].
  - destruct (lookup_lt_is_Some_2 a (Z.to_nat hi)) as [x Hx]; [lia|].
    rewrite (getitem_inrange a hi x) by (assumption || lia). cbn [bind].
    destruct (Hcmp (key x) (key pv)) as (_ & [b Hb] & _). rewrite Hb. cbn [bind].
    destruct b.
    + destruct (IH lo (hi - 1)) as (hi' & -> & H1 & H2 & H3 & H4); try lia.
      exists hi'. split; [reflexivity|]. split; [lia|]. split; [lia|].
      split; [|assumption].
      intros k y Hk Hy. destruct (Z.eq_dec k hi) as [->|Hne].
      * congruence.
      * apply (H3 k y); [lia|assumption].
    + exists hi. split; [reflexivity|]. split; [lia|]. split; [lia|].
      split; [intros; lia|]. intros _. exists x. split; assumption.
  - exists hi. split; [reflexivity|]. split; [lia|]. split; [lia|].
    split; [intros; lia|]. intros; lia.
Qed.

Lemma partition_loop_spec pv (L H : Z) : ∀ (fuel : nat) a (lo hi : Z),
  0 <= L → H < Z.of_nat (length a) → L <= lo → hi <= H → L - 1 <= hi →
  (Z.to_nat (hi + 1 - lo) < fuel)%nat →
  (∀ k x, L <= k < lo → a !! Z.to_nat k = Some x → left_ok pv x) →
  (∀ k x, hi < k <= H → a !! Z.to_nat k = Some x → right_ok pv x) →
  ∃ a' hi', partition_loop key ord fuel a pv lo hi = Ok (a', hi') ∧
    length a' = length a ∧ Permutation a a' ∧ L - 1 <= hi' <= H ∧
    (∀ k x, L <= k <= hi' → a' !! Z.to_nat k = Some x → left_ok pv x) ∧
    (∀ k x, hi' < k <= H → a' !! Z.to_nat k = Some x → right_ok pv x) ∧
    (∀ k : nat, Z.of_nat k < L ∨ H < Z.of_nat k → a' !! k = a !! k).
Proof.
  induction fuel as [|fuel IH]; intros a lo hi HL HH Hlo Hhi Hhi' Hfuel Hleft Hright;
    [lia|].
  cbn [partition_loop].
  destruct (scan_lo_spec a pv (S fuel) lo hi) as (lo' & -> & Hl1 & Hl2 & Hl3 & Hl4);
    try lia.
  cbn [bind].
  destruct (scan_hi_spec a pv (S fuel) lo' hi) as (hi' & -> & Hh1 & Hh2 & Hh3 & Hh4);
    try lia.
  cbn [bind].
  destruct (Z.ltb_spec hi' lo') as [Hcross|Hnocross].
  - exists a, hi'. split; [reflexivity|]. split; [reflexivity|].
    split; [reflexivity|]. split; [lia|]. split; [|split].
    + intros k x Hk Hx. destruct (Z.lt_ge_cases k lo).
      * apply (Hleft k x); [lia|assumption].
      * left. apply (Hl3 k x); [lia|assumption].
    + intros k x Hk Hx. destruct (Z.lt_ge_cases hi k).
      * apply (Hright k x); [lia|assumption].
      * left. apply (Hh3 k x); [lia|assumption].
    + reflexivity.
  - destruct (Hl4 ltac:(lia)) as (x & Hx & Hxlt).
    destruct (Hh4 ltac:(lia)) as (y & Hy & Hygt).
    destruct (swap_spec a lo' hi' x y) as (a1 & -> & Hlen1 & Hperm1 & Hy1 & Hx1 & Hfr1);
      try lia; try assumption.
    cbn [bind].
    destruct (IH a1 (lo' + 1) (hi' - 1)) as (a' & hi'' & -> & Hlen & Hperm & Hb & Hle & Hri & Hfr);
      try lia.
    + intros k z Hk Hz. destruct (Z.eq_dec k lo') as [->|Hne].
      * right. congruence.
      * rewrite Hfr1 in Hz by lia. destruct (Z.lt_ge_cases k lo).
        -- apply (Hleft k z); [lia|assumption].
        -- left. apply (Hl3 k z); [lia|assumption].
    + intros k z Hk Hz. destruct (Z.eq_dec k hi') as [->|Hne].
      * right. congruence.
      * rewrite Hfr1 in Hz by lia. destruct (Z.lt_ge_cases hi k).
        -- apply (Hright k z); [lia|assumption].
        -- left. apply (Hh3 k z); [lia|assumption].
    + exists a', hi''. split; [reflexivity|]. split; [lia|].
      split; [etransitivity; eassumption|]. split; [lia|].
      split; [assumption|]. split; [assumption|].
      intros k Hk. rewrite Hfr by lia. apply Hfr1; lia.
Qed.

Lemma partition_spec (fuel : nat) a (lo hi : Z) pivotselector :
  0 <= lo < hi → hi <= Z.of_nat (length a) → pivot_inrange pivotselector →
  (Z.to_nat (hi - lo) < fuel)%nat →
  ∃ a' p pv, partition key ord fuel a lo hi pivotselector = Ok (a', p) ∧
    length a' = length a ∧ Permutation a a' ∧ lo <= p < hi ∧
    a' !! Z.to_nat p = Some pv ∧
    (∀ k x, lo <= k < p → a' !! Z.to_nat k = Some x → left_ok pv x) ∧
    (∀ k x, p < k < hi → a' !! Z.to_nat k = Some x → right_ok pv x) ∧
    (∀ k : nat, Z.of_nat k < lo ∨ hi <= Z.of_nat k → a' !! k = a !! k).
Proof.
  intros Hlo Hhi Hsel Hfuel. unfold partition.
  destruct (Hsel a lo hi Hlo Hhi) as (pidx & -> & Hp). cbn [bind].
  destruct (lookup_lt_is_Some_2 a (Z.to_nat lo)) as [x0 Hx0]; [lia|].
  destruct (lookup_lt_is_Some_2 a (Z.to_nat pidx)) as [pv Hpv]; [lia|].
  destruct (swap_spec a lo pidx x0 pv) as (a1 & -> & Hlen1 & Hperm1 & Hpv1 & _ & Hfr1);
    try lia; try assumption.
  cbn [bind]. rewrite (getitem_inrange a1 lo pv) by (assumption || lia). cbn [bind].
  destruct (partition_loop_spec pv (lo + 1) (hi - 1) fuel a1 (lo + 1) (hi - 1))
    as (a2 & hi' & -> & Hlen2 & Hperm2 & Hb & Hle & Hri & Hfr2); try lia.
  cbn [bind].
  assert (Hpv2 : a2 !! Z.to_nat lo = Some pv) by (rewrite Hfr2 by lia; assumption).
  destruct (lookup_lt_is_Some_2 a2 (Z.to_nat hi')) as [y Hy]; [lia|].
  destruct (swap_spec a2 lo hi' pv y) as (a3 & -> & Hlen3 & Hperm3 & Hy3 & Hpv3 & Hfr3);
    try lia; try assumption.
  cbn [bind]. exists a3, hi', pv. split; [reflexivity|].
  split; [lia|].
  split; [transitivity a1; [assumption|]; transitivity a2; assumption|].
  split; [lia|]. split; [assumption|]. split; [|split].
  - intros k x Hk Hx. destruct (Z.eq_dec k lo) as [->|Hne].
    + assert (x = y) by congruence. subst x. apply (Hle hi' y); [lia|assumption].
    + rewrite Hfr3 in Hx by lia. apply (Hle k x); [lia|assumption].
  - intros k x Hk Hx. rewrite Hfr3 in Hx by lia. apply (Hri k x); [lia|assumption].
  - intros k Hk. rewrite Hfr3, Hfr2 by lia. apply Hfr1; lia.
Qed.

End Partition.

Lemma total_order_comparable {K} (ord : Ordering K) leb :
  total_order ord leb → comparable ord.
Proof.
  intros [H1 H2 H3 H4 _ _ _] k1 k2. rewrite H1, H2, H3, H4. repeat split; eexists; reflexivity.
Qed.

Lemma leb_refl {K} (ord : Ordering K) leb (x : K) : total_order ord leb → leb x x = true.
Proof. intros H. destruct (leb_total _ _ H x x); assumption. Qed.

Section PartitionOrder.
Context {A K : Type}.
Variable key : A → K.
Variable ord : Ordering K.
Variable leb : K → K → bool.
Hypothesis Hord : total_order ord leb.

Lemma left_ok_leb pv x : left_ok key ord pv x → leb (key x) (key pv) = true.
Proof.
  unfold left_ok. rewrite (lt_leb _ _ Hord), (gt_leb _ _ Hord).
  intros [H|H]; injection H as H.
  - apply negb_true_iff in H.
    destruct (leb_total _ _ Hord (key x) (key pv)); congruence.
  - apply negb_false_iff in H. exact H.
Qed.

Lemma right_ok_leb pv x : right_ok key ord pv x → leb (key pv) (key x) = true.
Proof.
  unfold right_ok. rewrite (lt_leb _ _ Hord), (gt_leb _ _ Hord).
  intros [H|H]; injection H as H.
  - apply negb_true_iff in H.
    destruct (leb_total _ _ Hord (key x) (key pv)); congruence.
  - apply negb_false_iff in H. exact H.
Qed.

End PartitionOrder.

End PartitionFacts.

(** ** Subranges seen as list segments *)

Module SegmentFacts.

Import Sort ArrayFacts PartitionFacts.

Section Segments.
Context {A : Type}.
Implicit Types (a pre seg post : list A).

Lemma slice_segment pre seg post :
  slice (pre ++ seg ++ post) (Z.of_nat (length pre))
        (Z.of_nat (length pre) + Z.of_nat (length seg)) = seg.
Proof.
  unfold slice. rewrite Nat2Z.id.
  replace (Z.to_nat (Z.of_nat (length pre) + Z.of_nat (length seg)) - length pre)%nat
    with (length seg) by lia.
  rewrite drop_app_length. apply take_app_length.
Qed.

Lemma segments_of a (lo hi : Z) :
  0 <= lo <= hi → hi <= Z.of_nat (length a) →
  a = take (Z.to_nat lo) a ++ slice a lo hi ++ drop (Z.to_nat hi) a ∧
  length (take (Z.to_nat lo) a) = Z.to_nat lo ∧
  length (slice a lo hi) = Z.to_nat (hi - lo).
Proof.
  intros Hlo Hhi. unfold slice. split; [|split].
  - rewrite <- (take_drop (Z.to_nat lo) a) at 1. f_equal.
    rewrite <- (take_drop (Z.to_nat hi - Z.to_nat lo) (drop (Z.to_nat lo) a)) at 1.
    f_equal. rewrite drop_drop. f_equal. lia.
  - rewrite length_take. lia.
  - rewrite length_take, length_drop. lia.
Qed.

(** An array that changed only inside a subrange and kept its contents
    kept the contents of the subrange. *)
Lemma frame_segment a a' (lo hi : Z) :
  0 <= lo <= hi → hi <= Z.of_nat (length a) → length a' = length a →
  Permutation a a' →
  (∀ k : nat, Z.of_nat k < lo ∨ hi <= Z.of_nat k → a' !! k = a !! k) →
  take (Z.to_nat lo) a' = take (Z.to_nat lo) a ∧
  drop (Z.to_nat hi) a' = drop (Z.to_nat hi) a ∧
  Permutation (slice a lo hi) (slice a' lo hi).
Proof.
  intros Hlo Hhi Hlen Hperm Hfr.
  assert (Ht : take (Z.to_nat lo) a' = take (Z.to_nat lo) a).
  { apply list_eq. intros k. destruct (Nat.lt_ge_cases k (Z.to_nat lo)).
    - rewrite !lookup_take_lt by assumption. apply Hfr. lia.
    - rewrite !lookup_take_ge by assumption. reflexivity. }
  assert (Hd : drop (Z.to_nat hi) a' = drop (Z.to_nat hi) a).
  { apply list_eq. intros k. rewrite !lookup_drop. apply Hfr. lia. }
  split; [assumption|]. split; [assumption|].
  destruct (segments_of a lo hi Hlo Hhi) as (Ea & _ & _).
  destruct (segments_of a' lo hi Hlo ltac:(lia)) as (Ea' & _ & _).
  rewrite Ea, Ea', Ht, Hd in Hperm.
  apply Permutation_app_inv_l in Hperm.
  apply Permutation_app_inv_r in Hperm. exact Hperm.
Qed.

Lemma slice_Forall (P : A → Prop) a (lo hi : Z) :
  0 <= lo →
  (∀ k x, lo <= k < hi → a !! Z.to_nat k = Some x → P x) →
  Forall P (slice a lo hi).
Proof.
  intros Hlo H. apply Forall_lookup. intros i x Hi. unfold slice in Hi.
  apply lookup_take_Some in Hi as [Hi Hlt]. rewrite lookup_drop in Hi.
  apply (H (Z.of_nat (Z.to_nat lo + i))); [lia|].
  rewrite Nat2Z.id. exact Hi.
Qed.

Lemma store_from_segment : ∀ (vals pre seg post : list A),
  length vals = length seg →
  store_from (pre ++ seg ++ post) (Z.of_nat (length pre)) vals
  = Ok (pre ++ vals ++ post).
Proof.
  induction vals as [|v vals IH]; intros pre seg post Hlen.
  - destruct seg; [reflexivity|discriminate].
  - destruct seg as [|s seg]; [discriminate|]. cbn [store_from].
    rewrite setitem_inrange by (rewrite length_app; simpl; lia).
    cbn [bind]. rewrite Nat2Z.id.
    rewrite insert_app_r_alt by lia. rewrite Nat.sub_diag. simpl.
    replace (pre ++ v :: seg ++ post) with ((pre ++ [v]) ++ seg ++ post)
      by (rewrite <- app_assoc; reflexivity).
    replace (Z.of_nat (length pre) + 1) with (Z.of_nat (length (pre ++ [v])))
      by (rewrite length_app; simpl; lia).
    rewrite IH by (simpl in Hlen; lia).
    rewrite <- app_assoc. reflexivity.
Qed.

End Segments.

End SegmentFacts.

(** ** Sorting *)

Module SortFacts.

Import Sort ArrayFacts PartitionFacts SegmentFacts.

Section Sorting.
Context {A K : Type}.
Variable key : A → K.
Variable ord : Ordering K.
Variable leb : K → K → bool.
Hypothesis Hcmp : comparable ord.

Local Abbreviation key_le := (Specs.key_le key leb).
Local Abbreviation key_sorted := (Specs.key_sorted key leb).

Lemma key_sorted_app (l r : list A) :
  key_sorted l → key_sorted r →
  (∀ x y, In x l → In y r → key_le x y) →
  key_sorted (l ++ r).
Proof.
  intros Hl Hr Hlr. induction Hl as [|x l Hl IH Hx]; simpl; [assumption|].
  constructor.
  - apply IH. intros; apply Hlr; simpl; auto.
  - apply Forall_app. split; [assumption|].
    apply Forall_forall. intros y Hy. apply Hlr; [simpl; auto|].
    apply list_elem_of_In. exact Hy.
Qed.

Lemma sorted_insert_spec (x : A) : ∀ l : list A,
  ∃ r, sorted_insert key ord x l = Ok r ∧ Permutation (x :: l) r ∧
       (total_order ord leb → key_sorted l → key_sorted r).
Proof.
  induction l as [|y l IH]; cbn [sorted_insert].
  - exists [x]. split; [reflexivity|]. split; [reflexivity|].
    intros _ _. repeat constructor.
  - destruct (Hcmp (key y) (key x)) as ([c Hc] & _). rewrite Hc. cbn [bind].
    destruct c.
    + destruct IH as (r & -> & Hperm & Hsorted). cbn [bind].
      exists (y :: r). split; [reflexivity|]. split.
      * rewrite perm_swap. constructor. exact Hperm.
      * intros Hord Hs. apply StronglySorted_inv in Hs as [Hs Hy].
        constructor; [apply Hsorted; assumption|].
        rewrite <- Hperm. constructor; [|assumption].
        rewrite (lt_leb _ _ Hord) in Hc. injection Hc as Hc.
        apply negb_true_iff in Hc. unfold key_le.
        destruct (leb_total _ _ Hord (key x) (key y)); congruence.
    + exists (x :: y :: l). split; [reflexivity|]. split; [reflexivity|].
      intros Hord Hs.
      rewrite (lt_leb _ _ Hord) in Hc. injection Hc as Hc.
      apply negb_false_iff in Hc.
      constructor; [assumption|]. constructor; [assumption|].
      apply StronglySorted_inv in Hs as [_ Hy].
      eapply Forall_impl; [exact Hy|]. intros z Hz.
      unfold key_le in *. apply (leb_trans _ _ Hord _ (key y)); assumption.
Qed.

Lemma sorted_spec : ∀ l : list A,
  ∃ r, sorted key ord l = Ok r ∧ Permutation l r ∧
       (total_order ord leb → key_sorted r).
Proof.
  induction l as [|x l IH]; cbn [sorted].
  - exists []. split; [reflexivity|]. split; [reflexivity|]. intros _. constructor.
  - destruct IH as (r & -> & Hperm & Hsorted). cbn [bind].
    destruct (sorted_insert_spec x r) as (r' & -> & Hperm' & Hsorted').
    exists r'. split; [reflexivity|]. split.
    + rewrite <- Hperm'. constructor. exact Hperm.
    + intros Hord. apply Hsorted'; auto.
Qed.

Lemma builtin_timsort_segment (pre seg post : list A) :
  ∃ seg', builtin_timsort key ord (pre ++ seg ++ post) (Z.of_nat (length pre))
            (Z.of_nat (length pre) + Z.of_nat (length seg))
          = Ok (pre ++ seg' ++ post) ∧
          Permutation seg seg' ∧ (total_order ord leb → key_sorted seg').
Proof.
  unfold builtin_timsort. rewrite slice_segment.
  destruct (sorted_spec seg) as (seg' & -> & Hperm & Hsorted). cbn [bind].
  exists seg'. split; [|split; assumption].
  apply store_from_segment. symmetry. apply Permutation_length. exact Hperm.
Qed.

(** One call of [partition], seen on the segment it works on. *)
Lemma partition_segment (fuel : nat) (pre seg post : list A) pivotselector :
  seg ≠ [] → pivot_inrange pivotselector → (length seg < fuel)%nat →
  ∃ l pv r,
    partition key ord fuel (pre ++ seg ++ post) (Z.of_nat (length pre))
      (Z.of_nat (length pre) + Z.of_nat (length seg)) pivotselector
    = Ok (pre ++ (l ++ pv :: r) ++ post, Z.of_nat (length pre) + Z.of_nat (length l)) ∧
    Permutation seg (l ++ pv :: r) ∧
    Forall (left_ok key ord pv) l ∧ Forall (right_ok key ord pv) r.
Proof.
  intros Hne Hsel Hfuel.
  assert (0 < length seg)%nat by (destruct seg; simpl; [congruence|lia]).
  set (a := pre ++ seg ++ post). set (lo := Z.of_nat (length pre)).
  set (hi := lo + Z.of_nat (length seg)).
  assert (Hlen : length a = (length pre + length seg + length post)%nat)
    by (unfold a; rewrite !length_app; lia).
  destruct (partition_spec key ord Hcmp fuel a lo hi pivotselector)
    as (a' & p & pv & -> & Hlen' & Hperm & Hp & Hpv & Hle & Hri & Hfr);
    try (unfold lo, hi in *; lia); try assumption.
  destruct (frame_segment a a' lo hi) as (Ht & Hd & Hseg);
    try (unfold lo, hi in *; lia); try assumption.
  assert (Hpre : take (Z.to_nat lo) a = pre).
  { unfold a, lo. rewrite Nat2Z.id. apply take_app_length. }
  assert (Hpost : drop (Z.to_nat hi) a = post).
  { unfold a, hi, lo. rewrite app_assoc.
    replace (Z.to_nat (Z.of_nat (length pre) + Z.of_nat (length seg)))
      with (length (pre ++ seg)) by (rewrite length_app; lia).
    apply drop_app_length. }
  assert (Hs : slice a lo hi = seg) by apply slice_segment.
  rewrite Hpre in Ht. rewrite Hpost in Hd. rewrite Hs in Hseg.
  (* the segment of the result, split at the pivot *)
  destruct (segments_of a' lo hi) as (Ea' & _ & Hls);
    try (unfold lo, hi in *; lia).
  rewrite Ht, Hd in Ea'.
  destruct (segments_of (slice a' lo hi) (p - lo) (p - lo + 1)) as (Es & Hll & Hlm);
    try lia.
  set (l := take (Z.to_nat (p - lo)) (slice a' lo hi)) in *.
  set (r := drop (Z.to_nat (p - lo + 1)) (slice a' lo hi)) in *.
  assert (Hmid : slice (slice a' lo hi) (p - lo) (p - lo + 1) = [pv]).
  { destruct (slice (slice a' lo hi) (p - lo) (p - lo + 1)) as [|z [|z' rest]] eqn:Em;
      simpl in Hlm; try lia.
    assert (Hz : slice (slice a' lo hi) (p - lo) (p - lo + 1) !! 0%nat = Some z)
      by (rewrite Em; reflexivity).
    unfold slice in Hz.
    apply lookup_take_Some in Hz as [Hz _]. rewrite lookup_drop in Hz.
    apply lookup_take_Some in Hz as [Hz _]. rewrite lookup_drop in Hz.
    replace (Z.to_nat lo + (Z.to_nat (p - lo) + 0))%nat with (Z.to_nat p) in Hz by lia.
    congruence. }
  rewrite Hmid in Es.
  exists l, pv, r. split; [|split; [|split]].
  - f_equal. f_equal; [|lia].
    rewrite Ea' at 1. rewrite Es at 1. reflexivity.
  - rewrite Hseg. rewrite Es at 1. reflexivity.
  - apply Forall_lookup. intros i x Hi. unfold l, slice in Hi.
    apply lookup_take_Some in Hi as [Hi Hlt].
    apply lookup_take_Some in Hi as [Hi _]. rewrite lookup_drop in Hi.
    apply (Hle (lo + Z.of_nat i) x); [lia|].
    replace (Z.to_nat (lo + Z.of_nat i)) with (Z.to_nat lo + i)%nat by lia. exact Hi.
  - apply Forall_lookup. intros i x Hi. unfold r, slice in Hi.
    rewrite lookup_drop in Hi.
    apply lookup_take_Some in Hi as [Hi Hlt]. rewrite lookup_drop in Hi.
    apply (Hri (p + 1 + Z.of_nat i) x); [unfold lo, hi in *; lia|].
    replace (Z.to_nat (p + 1 + Z.of_nat i))
      with (Z.to_nat lo + (Z.to_nat (p - lo + 1) + i))%nat by lia. exact Hi.
Qed.

(** What a run of quicksort on a segment comes to: it returns the array
    with the segment rearranged, or the recursion went deeper than the
    interpreter admits. *)
Lemma quicksort_subarray_segment pivotselector (cutoff : Z) :
  pivot_inrange pivotselector →
  ∀ (depth fuel : nat) (pre seg post : list A), (length seg < fuel)%nat →
  (∃ seg' trace,
     quicksort_subarray key ord depth fuel (pre ++ seg ++ post) (Z.of_nat (length pre))
       (Z.of_nat (length pre) + Z.of_nat (length seg)) pivotselector cutoff
     = Ok (pre ++ seg' ++ post, trace) ∧
     Permutation seg seg' ∧
     (total_order ord leb → key_sorted seg') ∧
     (cutoff <= 0 → trace = [])) ∨
  (quicksort_subarray key ord depth fuel (pre ++ seg ++ post) (Z.of_nat (length pre))
     (Z.of_nat (length pre) + Z.of_nat (length seg)) pivotselector cutoff
   = Raise RecursionError ∧ (depth <= length seg)%nat).
Proof.
  intros Hsel. induction depth as [|depth IH]; intros fuel pre seg post Hfuel.
  { right. split; [reflexivity|lia]. }
  cbn [quicksort_subarray]. cbv zeta.
  destruct (Z.eqb_spec (Z.of_nat (length pre) + Z.of_nat (length seg)
                        - Z.of_nat (length pre)) 0) as [Hz|Hnz].
  { left. exists seg, []. destruct seg; [|simpl in Hz; lia].
    split; [reflexivity|]. split; [reflexivity|]. split; [|reflexivity].
    intros _. constructor. }
  destruct (Z.leb_spec (Z.of_nat (length pre) + Z.of_nat (length seg)
                        - Z.of_nat (length pre)) cutoff) as [Hcut|Hcut].
  { left. destruct (builtin_timsort_segment pre seg post) as (seg' & -> & Hperm & Hsorted).
    cbn [bind]. exists seg', [(Z.of_nat (length pre),
                               Z.of_nat (length pre) + Z.of_nat (length seg))].
    split; [reflexivity|]. split; [assumption|]. split; [assumption|]. lia. }
  assert (Hne : seg ≠ []) by (intros ->; simpl in Hnz; lia).
  destruct (partition_segment fuel pre seg post pivotselector Hne Hsel Hfuel)
    as (l & pv & r & -> & Hperm & Hl & Hr).
  cbn [bind].
  assert (Hlen : length seg = (length l + S (length r))%nat).
  { rewrite (Permutation_length Hperm), length_app. reflexivity. }
  replace (pre ++ (l ++ pv :: r) ++ post) with (pre ++ l ++ (pv :: r ++ post))
    by (rewrite <- !app_assoc; reflexivity).
  destruct (IH fuel pre l (pv :: r ++ post)) as [(l' & t1 & -> & Hpl & Hsl & Htl)|[-> Hd]];
    [lia| |right; split; [reflexivity|lia]].
  cbn [bind].
  assert (Hll : length l' = length l) by (symmetry; apply Permutation_length; assumption).
  replace (pre ++ l' ++ pv :: r ++ post) with ((pre ++ l' ++ [pv]) ++ r ++ post)
    by (rewrite <- !app_assoc; reflexivity).
  replace (Z.of_nat (length pre) + Z.of_nat (length l) + 1)
    with (Z.of_nat (length (pre ++ l' ++ [pv])))
    by (rewrite !length_app; simpl; lia).
  replace (Z.of_nat (length pre) + Z.of_nat (length seg))
    with (Z.of_nat (length (pre ++ l' ++ [pv])) + Z.of_nat (length r))
    by (rewrite !length_app; simpl; lia).
  destruct (IH fuel (pre ++ l' ++ [pv]) r post)
    as [(r' & t2 & -> & Hpr & Hsr & Htr)|[-> Hd]];
    [lia| |right; split; [reflexivity|lia]].
  cbn [bind]. left. exists (l' ++ pv :: r'), (t1 ++ t2).
  split; [rewrite <- !app_assoc; reflexivity|]. split; [|split].
  - rewrite Hperm, Hpl, Hpr. reflexivity.
  - intros Hord.
    assert (Hl' : Forall (fun x => key_le x pv) l').
    { rewrite <- Hpl. eapply Forall_impl; [exact Hl|].
      intros x. apply (left_ok_leb key ord leb Hord). }
    assert (Hr' : Forall (key_le pv) r').
    { rewrite <- Hpr. eapply Forall_impl; [exact Hr|].
      intros x. apply (right_ok_leb key ord leb Hord). }
    apply key_sorted_app; [apply Hsl; assumption| |].
    + constructor; [apply Hsr; assumption|assumption].
    + intros x y Hx Hy.
      assert (Hxp : key_le x pv).
      { rewrite Forall_forall in Hl'. apply Hl'. apply list_elem_of_In. exact Hx. }
      destruct Hy as [<-|Hy]; [assumption|].
      assert (Hpy : key_le pv y).
      { rewrite Forall_forall in Hr'. apply Hr'. apply list_elem_of_In. exact Hy. }
      unfold key_le in *. apply (leb_trans _ _ Hord _ (key pv)); assumption.
  - intros Hc. rewrite (Htl Hc), (Htr Hc). reflexivity.
Qed.

(** [quicksort] for any cutoff and any depth the interpreter admits: with
    fuel exceeding the array length it returns a rearrangement of the
    array that is in non-decreasing key order when the keys are totally
    ordered, nothing being delegated to the built-in sort when the cutoff
    is zero or less; or it raises [RecursionError], which takes an array
    at least as long as the depth. *)
Lemma quicksort_traced_total (depth fuel : nat) (array : list A) pivotselector
    (cutoff : Z) :
  pivot_inrange pivotselector → (length array < fuel)%nat →
  (∃ array' trace,
     quicksort_traced key ord depth fuel array pivotselector cutoff = Ok (array', trace) ∧
     Permutation array array' ∧
     (total_order ord leb → key_sorted array') ∧
     (cutoff <= 0 → trace = [])) ∨
  (quicksort_traced key ord depth fuel array pivotselector cutoff = Raise RecursionError ∧
   (depth <= length array)%nat).
Proof.
  intros Hsel Hfuel. unfold quicksort_traced.
  pose proof (quicksort_subarray_segment pivotselector cutoff Hsel depth fuel
                [] array [] Hfuel) as H.
  simpl in H. rewrite !app_nil_r in H.
  destruct H as [(a' & trace & Hrun & Hperm & Hsorted & Htrace)|[Hrun Hd]].
  - left. rewrite app_nil_r in Hrun. exists a', trace. auto.
  - right. auto.
Qed.

Lemma quicksort_traced_spec (depth fuel : nat) (array : list A) pivotselector
    (cutoff : Z) :
  pivot_inrange pivotselector → (length array < depth)%nat → (length array < fuel)%nat →
  ∃ array' trace,
    quicksort_traced key ord depth fuel array pivotselector cutoff = Ok (array', trace) ∧
    Permutation array array' ∧
    (total_order ord leb → key_sorted array') ∧
    (cutoff <= 0 → trace = []).
Proof.
  intros Hsel Hdepth Hfuel.
  destruct (quicksort_traced_total depth fuel array pivotselector cutoff Hsel Hfuel)
    as [H|[_ Hd]]; [exact H|lia].
Qed.

Lemma quicksort_total (depth fuel : nat) (array : list A) pivotselector (cutoff : Z) :
  pivot_inrange pivotselector → (length array < fuel)%nat →
  (∃ array',
     quicksort key ord depth fuel array pivotselector cutoff = Ok array' ∧
     Permutation array array' ∧
     (total_order ord leb → key_sorted array')) ∨
  (quicksort key ord depth fuel array pivotselector cutoff = Raise RecursionError ∧
   (depth <= length array)%nat).
Proof.
  intros Hsel Hfuel. unfold quicksort.
  destruct (quicksort_traced_total depth fuel array pivotselector cutoff Hsel Hfuel)
    as [(a' & trace & -> & Hperm & Hsorted & _)|[-> Hd]]; cbn [bind].
  - left. exists a'. auto.
  - right. auto.
Qed.

Lemma quicksort_spec (depth fuel : nat) (array : list A) pivotselector (cutoff : Z) :
  pivot_inrange pivotselector → (length array < depth)%nat → (length array < fuel)%nat →
  ∃ array',
    quicksort key ord depth fuel array pivotselector cutoff = Ok array' ∧
    Permutation array array' ∧
    (total_order ord leb → key_sorted array').
Proof.
  intros Hsel Hdepth Hfuel.
  destruct (quicksort_total depth fuel array pivotselector cutoff Hsel Hfuel)
    as [H|[_ Hd]]; [exact H|lia].
Qed.

(** With a cutoff of at least the array length the first call delegates
    the whole array, so one level of recursion is all it takes. *)
Lemma quicksort_delegated (depth fuel : nat) (array : list A) pivotselector (cutoff : Z) :
  Z.of_nat (length array) <= cutoff →
  ∃ array',
    quicksort key ord (S depth) fuel array pivotselector cutoff = Ok array' ∧
    Permutation array array' ∧
    (total_order ord leb → key_sorted array').
Proof.
  intros Hcut. unfold quicksort, quicksort_traced. cbn [quicksort_subarray]. cbv zeta.
  destruct (Z.eqb_spec (Z.of_nat (length array) - 0) 0) as [Hz|Hnz].
  { cbn [bind]. exists array. destruct array; [|simpl in Hz; lia].
    split; [reflexivity|]. split; [reflexivity|]. intros _. constructor. }
  destruct (Z.leb_spec (Z.of_nat (length array) - 0) cutoff) as [_|Hgt]; [|lia].
  destruct (builtin_timsort_segment [] array []) as (seg' & Hrun & Hperm & Hsorted).
  cbn [app length] in Hrun. change (Z.of_nat 0) with 0 in Hrun.
  rewrite Z.add_0_l, !app_nil_r in Hrun. rewrite Hrun. cbn [bind].
  exists seg'. auto.
Qed.

End Sorting.

End SortFacts.

(** ** Insertion sort *)

Module InsertionFacts.

Import Sort ArrayFacts.

Section Sorted.
Context {A : Type} (R : A → A → Prop).

Lemma SSorted_app (l r : list A) :
  StronglySorted R l → StronglySorted R r →
  (∀ x y, In x l → In y r → R x y) → StronglySorted R (l ++ r).
Proof.
  intros Hl Hr Hlr. induction Hl as [|x l Hl IH Hx]; simpl; [assumption|].
  constructor.
  - apply IH. intros; apply Hlr; simpl; auto.
  - apply Forall_app. split; [assumption|].
    apply Forall_forall. intros y Hy. apply Hlr; [simpl; auto|].
    apply list_elem_of_In. exact Hy.
Qed.

Lemma SSorted_app_inv (l r : list A) :
  StronglySorted R (l ++ r) →
  StronglySorted R l ∧ StronglySorted R r ∧ (∀ x y, In x l → In y r → R x y).
Proof.
  induction l as [|z l IH]; simpl; intros H.
  - split; [constructor|]. split; [assumption|]. intros x y [].
  - apply StronglySorted_inv in H as [H Hz]. destruct (IH H) as (Hl & Hr & Hlr).
    apply Forall_app in Hz as [Hzl Hzr]. split; [constructor; assumption|].
    split; [assumption|]. intros x y [<-|Hx] Hy.
    + rewrite Forall_forall in Hzr. apply Hzr. apply list_elem_of_In. exact Hy.
    + apply Hlr; assumption.
Qed.
End Sorted.

Section Insertion.
Context {A K : Type}.
Variable key : A → K.
Variable ord : Ordering K.
(** The elements on which the comparison is known to return. *)
Variable P : A → Prop.
Hypothesis Hgt : ∀ x y, P x → P y → ∃ b, gt ord (key x) (key y) = Ok b.

Local Abbreviation not_gt := (Specs.not_gt key ord).
Local Abbreviation gt_asym := (Specs.gt_asym key ord P).
Local Abbreviation not_gt_trans := (Specs.not_gt_trans key ord P).

Lemma getitem_middle (l1 : list A) (x : A) (tail : list A) :
  getitem (l1 ++ x :: tail) (Z.of_nat (length l1)) = Ok x.
Proof.
  apply getitem_inrange; [lia|]. rewrite Nat2Z.id.
  apply list_lookup_middle. reflexivity.
Qed.

Lemma insertion_loop_spec : ∀ (fuel : nat) (l1 : list A) (x : A) (tail : list A),
  Forall P (l1 ++ x :: tail) → (length l1 < fuel)%nat →
  ∃ l1a l1b, l1 = l1a ++ l1b ∧
    insertion_loop key ord fuel (l1 ++ x :: tail) (Z.of_nat (length l1) - 1)
    = Ok (l1a ++ x :: l1b ++ tail) ∧
    Forall (fun y => gt ord (key y) (key x) = Ok true) l1b ∧
    (l1a = [] ∨ ∃ l1a' y, l1a = l1a' ++ [y] ∧ not_gt y x).
Proof.
  induction fuel as [|fuel IH]; intros l1 x tail HP Hfuel; [lia|].
  cbn [insertion_loop].
  assert (Px : P x).
  { rewrite Forall_forall in HP. apply HP. apply list_elem_of_In.
    apply in_elt. }
  destruct l1 as [|y l1'] using rev_ind.
  - simpl length. change (Z.of_nat 0 - 1) with (-1).
    destruct (getitem_last ([] ++ x :: tail)) as (z & -> & Hz); [discriminate|].
    cbn [bind]. change (-1 + 1) with (Z.of_nat (length (@nil A))).
    rewrite getitem_middle. cbn [bind].
    assert (Pz : P z).
    { rewrite Forall_forall in HP. apply HP. apply list_elem_of_In. exact Hz. }
    destruct (Hgt z x Pz Px) as [b ->]. cbn [bind].
    rewrite andb_false_r.
    exists [], []. split; [reflexivity|]. split; [reflexivity|].
    split; [constructor|]. left. reflexivity.
  - clear IHl1'. rewrite length_app in *. simpl length in *.
    replace (Z.of_nat (length l1' + 1) - 1) with (Z.of_nat (length l1')) by lia.
    rewrite <- app_assoc. simpl app.
    rewrite getitem_middle. cbn [bind].
    replace (l1' ++ y :: x :: tail) with ((l1' ++ [y]) ++ x :: tail)
      by (rewrite <- app_assoc; reflexivity).
    replace (Z.of_nat (length l1') + 1) with (Z.of_nat (length (l1' ++ [y])))
      by (rewrite length_app; simpl; lia).
    rewrite getitem_middle. cbn [bind].
    assert (Py : P y).
    { rewrite Forall_forall in HP. apply HP. apply list_elem_of_In.
      apply in_or_app. left. apply in_or_app. right. simpl. auto. }
    destruct (Hgt y x Py Px) as [b Hb]. rewrite Hb. cbn [bind].
    destruct (Z.leb_spec 0 (Z.of_nat (length l1'))) as [_|]; [|lia].
    rewrite andb_true_r. destruct b.
    + rewrite <- app_assoc. simpl app.
      replace (Z.of_nat (length (l1' ++ [y]))) with (Z.of_nat (length l1') + 1)
        by (rewrite length_app; simpl; lia).
      rewrite swap_adjacent. cbn [bind].
      destruct (IH l1' x (y :: tail)) as (l1a & l1b & E & -> & Hb1 & Hb2).
      * rewrite <- app_assoc in HP. simpl in HP.
        rewrite Forall_app in HP. destruct HP as [HP1 HP2].
        apply Forall_cons in HP2 as [_ HP2]. apply Forall_cons in HP2 as [_ HP2].
        apply Forall_app. split; [assumption|].
        constructor; [assumption|]. constructor; assumption.
      * lia.
      * exists l1a, (l1b ++ [y]). split; [rewrite E, app_assoc; reflexivity|].
        split; [rewrite <- app_assoc; reflexivity|]. split; [|assumption].
        apply Forall_app. split; [assumption|]. constructor; [assumption|constructor].
    + exists (l1' ++ [y]), []. split; [rewrite app_nil_r; reflexivity|].
      split; [reflexivity|]. split; [constructor|].
      right. exists l1', y. split; [reflexivity|assumption].
Qed.

(** Inserting [x] in front of the elements greater than it keeps a
    sorted prefix sorted. *)
Lemma insert_keeps_sorted (l1a l1b : list A) (x : A) :
  gt_asym → not_gt_trans →
  Forall P (l1a ++ x :: l1b) →
  StronglySorted not_gt (l1a ++ l1b) →
  Forall (fun y => gt ord (key y) (key x) = Ok true) l1b →
  (l1a = [] ∨ ∃ l1a' y, l1a = l1a' ++ [y] ∧ not_gt y x) →
  StronglySorted not_gt (l1a ++ x :: l1b).
Proof.
  intros Hasym Htrans HP Hs Hb Ha.
  apply SSorted_app_inv in Hs as (Hsa & Hsb & Hab).
  apply Forall_app in HP as [HPa HPx]. apply Forall_cons in HPx as [Px HPb].
  rewrite Forall_forall in HPa, HPb, Hb.
  assert (Hxb : ∀ y, In y l1b → not_gt x y).
  { intros y Hy. apply list_elem_of_In in Hy. apply Hasym; auto. }
  assert (Hax : ∀ z, In z l1a → not_gt z x).
  { intros z Hz. destruct Ha as [->|(l1a' & y & -> & Hy)]; [destruct Hz|].
    apply in_app_or in Hz as [Hz|[<-|[]]]; [|assumption].
    apply SSorted_app_inv in Hsa as (_ & _ & Hzy).
    assert (Py : P y) by (apply HPa, list_elem_of_In, in_or_app; right; simpl; auto).
    assert (Pz : P z) by (apply HPa, list_elem_of_In, in_or_app; left; assumption).
    apply (Htrans z y x Pz Py Px); [|assumption].
    apply Hzy; [assumption|simpl; auto]. }
  apply SSorted_app; [assumption| |].
  - constructor; [assumption|]. apply Forall_forall. intros y Hy.
    apply Hxb. apply list_elem_of_In. exact Hy.
  - intros z y Hz [<-|Hy]; [auto|]. apply Hab; assumption.
Qed.

Lemma insertion_for_spec : ∀ (n fuel : nat) (done rest : list A),
  length rest = n → Forall P (done ++ rest) → (length (done ++ rest) < fuel)%nat →
  ∃ a', insertion_for key ord fuel (done ++ rest) (Z.of_nat (length done)) n = Ok a' ∧
    Permutation (done ++ rest) a' ∧
    (gt_asym → not_gt_trans → StronglySorted not_gt done → StronglySorted not_gt a').
Proof.
  induction n as [|n IH]; intros fuel done rest Hn HP Hfuel.
  - destruct rest; [|discriminate]. exists (done ++ []).
    split; [reflexivity|]. split; [reflexivity|].
    intros _ _ H. rewrite app_nil_r. exact H.
  - destruct rest as [|x rest]; [discriminate|]. cbn [insertion_for].
    destruct (insertion_loop_spec fuel done x rest HP)
      as (l1a & l1b & E & -> & Hb & Ha).
    { rewrite length_app in Hfuel. simpl in Hfuel. lia. }
    cbn [bind].
    assert (Hperm : Permutation (done ++ x :: rest) ((l1a ++ x :: l1b) ++ rest)).
    { rewrite E, <- !app_assoc. simpl.
      apply Permutation_app_head. symmetry.
      rewrite app_comm_cons. rewrite (Permutation_app_comm l1b (x :: rest)).
      simpl. constructor. rewrite (Permutation_app_comm rest l1b). reflexivity. }
    replace (l1a ++ x :: l1b ++ rest) with ((l1a ++ x :: l1b) ++ rest)
      by (rewrite <- app_assoc; reflexivity).
    replace (Z.of_nat (length done) + 1) with (Z.of_nat (length (l1a ++ x :: l1b)))
      by (rewrite E, !length_app; simpl; lia).
    destruct (IH fuel (l1a ++ x :: l1b) rest) as (a' & -> & Hperm' & Hsorted).
    + simpl in Hn. lia.
    + rewrite <- Hperm. exact HP.
    + rewrite <- (Permutation_length Hperm). exact Hfuel.
    + exists a'. split; [reflexivity|]. split; [etransitivity; eassumption|].
      intros Hasym Htrans Hs. apply Hsorted; [assumption|assumption|].
      apply insert_keeps_sorted; try assumption.
      * rewrite Hperm in HP. apply Forall_app in HP as [HP' _]. exact HP'.
      * rewrite <- E. exact Hs.
Qed.

Lemma insertion_sort_spec (fuel : nat) (array : list A) :
  Forall P array → (length array < fuel)%nat →
  ∃ a', insertion_sort key ord fuel array = Ok a' ∧ Permutation array a' ∧
        (gt_asym → not_gt_trans → StronglySorted not_gt a').
Proof.
  intros HP Hfuel. unfold insertion_sort.
  destruct (insertion_for_spec (length array) fuel [] array eq_refl HP Hfuel)
    as (a' & Hrun & Hperm & Hsorted).
  exists a'. split; [exact Hrun|]. split; [exact Hperm|].
  intros Hasym Htrans. apply Hsorted; [assumption|assumption|constructor].
Qed.

End Insertion.

End InsertionFacts.

(** ** Pivot strategies *)

Module PivotFacts.

Import Sort ArrayFacts PartitionFacts.

Section Pivots.
Context {A K : Type}.
Variable key : A → K.
Variable ord : Ordering K.
Variable leb : K → K → bool.
Hypothesis Hord : total_order ord leb.

Lemma take_first_pivot_inrange : pivot_inrange (@take_first_pivot A).
Proof. intros a lo hi Hlo Hhi. exists lo. split; [reflexivity|lia]. Qed.

Lemma random_pivot_inrange (randrange : Z → Z → Z) :
  (∀ lo hi, lo < hi → lo <= randrange lo hi < hi) →
  pivot_inrange (@random_pivot A randrange).
Proof.
  intros Hr a lo hi Hlo Hhi. exists (randrange lo hi).
  split; [reflexivity|]. apply Hr. lia.
Qed.

Lemma median_of_three_inrange : pivot_inrange (median_of_three key ord).
Proof.
  intros a lo hi Hlo Hhi. unfold median_of_three.
  assert (Hm1 : lo <= (hi - 1 + lo) / 2 < hi).
  { pose proof (Z.div_mod (hi - 1 + lo) 2 ltac:(lia)).
    pose proof (Z.mod_pos_bound (hi - 1 + lo) 2 ltac:(lia)). lia. }
  assert (Hm2 : lo <= (lo + hi - 1) / 2 < hi).
  { pose proof (Z.div_mod (lo + hi - 1) 2 ltac:(lia)).
    pose proof (Z.mod_pos_bound (lo + hi - 1) 2 ltac:(lia)). lia. }
  destruct (lookup_lt_is_Some_2 a (Z.to_nat lo)) as [xlo Hxlo]; [lia|].
  destruct (lookup_lt_is_Some_2 a (Z.to_nat (hi - 1))) as [xhi Hxhi]; [lia|].
  destruct (lookup_lt_is_Some_2 a (Z.to_nat ((hi - 1 + lo) / 2))) as [xmid Hxmid]; [lia|].
  rewrite (getitem_inrange a lo xlo) by (assumption || lia). cbn [bind].
  rewrite (getitem_inrange a (hi - 1) xhi) by (assumption || lia). cbn [bind].
  rewrite (getitem_inrange a ((hi - 1 + lo) / 2) xmid) by (assumption || lia).
  cbn [bind]. unfold and_then, or_else.
  rewrite !(le_leb _ _ Hord), !(ge_leb _ _ Hord). cbn [bind].
  pose proof (leb_total _ _ Hord (key xlo) (key xhi)) as T1.
  pose proof (leb_total _ _ Hord (key xlo) (key xmid)) as T2.
  pose proof (leb_total _ _ Hord (key xmid) (key xhi)) as T3.
  destruct (leb (key xlo) (key xhi)), (leb (key xhi) (key xlo)),
           (leb (key xlo) (key xmid)), (leb (key xmid) (key xlo)),
           (leb (key xmid) (key xhi)), (leb (key xhi) (key xmid));
    cbn [bind];
    try (destruct T1; discriminate); try (destruct T2; discriminate);
    try (destruct T3; discriminate);
    (eexists; split; [reflexivity|lia]).
Qed.

End Pivots.

End PivotFacts.

(** ** Theorems about sort.py *)

Module SortTheorems.

Import Sort ArrayFacts PartitionFacts SegmentFacts SortFacts InsertionFacts PivotFacts.

Lemma Z_ord_total_order : total_order Z_ord Z.leb.
Proof.
  split; simpl; intros.
  - f_equal. rewrite Z.leb_antisym, negb_involutive. reflexivity.
  - f_equal. rewrite Z.gtb_ltb, Z.leb_antisym, negb_involutive. reflexivity.
  - reflexivity.
  - f_equal. apply Z.geb_leb.
  - lia.
  - lia.
  - lia.
Qed.

Section Uniqueness.
Context {A K : Type}.
Variable key : A → K.
Variable ord : Ordering K.
Variable leb : K → K → bool.
Hypothesis Hord : total_order ord leb.

Lemma sorted_keys_unique : ∀ ks1 ks2 : list K,
  Permutation ks1 ks2 →
  StronglySorted (fun a b => leb a b = true) ks1 →
  StronglySorted (fun a b => leb a b = true) ks2 →
  ks1 = ks2.
Proof.
  induction ks1 as [|x t1 IH]; intros ks2 Hperm H1 H2.
  - apply Permutation_nil in Hperm. congruence.
  - destruct ks2 as [|y t2].
    + symmetry in Hperm. apply Permutation_nil in Hperm. discriminate.
    + apply StronglySorted_inv in H1 as [H1 Hx].
      apply StronglySorted_inv in H2 as [H2 Hy].
      rewrite Forall_forall in Hx, Hy.
      assert (E : x = y).
      { assert (Hxin : In x (y :: t2))
          by (apply (Permutation_in _ Hperm); simpl; auto).
        assert (Hyin : In y (x :: t1))
          by (apply (Permutation_in _ (Permutation_sym Hperm)); simpl; auto).
        destruct Hxin as [->|Hxin]; [reflexivity|].
        destruct Hyin as [->|Hyin]; [reflexivity|].
        apply (leb_antisym _ _ Hord).
        - apply Hx. apply list_elem_of_In. exact Hyin.
        - apply Hy. apply list_elem_of_In. exact Hxin. }
      subst y. f_equal. apply IH; [|assumption|assumption].
      apply Permutation_cons_inv in Hperm. exact Hperm.
Qed.

Lemma key_sorted_map (l : list A) :
  key_sorted key leb l → StronglySorted (fun a b => leb a b = true) (map key l).
Proof.
  induction 1 as [|x l Hs IH Hx]; simpl; constructor; [assumption|].
  apply Forall_map. exact Hx.
Qed.

Lemma map_key_injective : ∀ l1 l2 : list A,
  map key l1 = map key l2 →
  (∀ x y, In x l1 → In y l2 → key x = key y → x = y) →
  l1 = l2.
Proof.
  induction l1 as [|x l1 IH]; intros [|y l2] E Hinj; simpl in E; try discriminate.
  - reflexivity.
  - injection E as Ex El. f_equal.
    + apply Hinj; simpl; auto.
    + apply IH; [assumption|]. intros; apply Hinj; simpl; auto.
Qed.

(** C9, amended.  With totally ordered keys, a pivot strategy that
    returns an index of its subrange and fuel exceeding the array
    length, [quicksort] with [cutoff = len(array)] returns at any
    recursion depth the interpreter admits, as it delegates the whole
    array at once.  [quicksort] with [cutoff = 0] recurses: it returns
    when the depth admitted exceeds the array length, and otherwise may
    raise [RecursionError].  Whenever it returns, the two results carry
    the same sequence of keys, and they are identical element for element
    if no two elements of the array share a key. *)
Theorem quicksort_cutoff_equivalence (depth fuel : nat) (array : list A)
    (pivotselector : list A → Z → Z → res (option Z)) :
  pivot_inrange pivotselector → (length array < fuel)%nat → (0 < depth)%nat →
  ∃ a1,
    quicksort key ord depth fuel array pivotselector (Z.of_nat (length array)) = Ok a1 ∧
    ((∃ a2,
        quicksort key ord depth fuel array pivotselector 0 = Ok a2 ∧
        map key a1 = map key a2 ∧
        ((∀ x y, In x array → In y array → key x = key y → x = y) → a1 = a2)) ∨
     (quicksort key ord depth fuel array pivotselector 0 = Raise RecursionError ∧
      (depth <= length array)%nat)).
Proof.
  intros Hsel Hfuel Hdepth.
  pose proof (total_order_comparable _ _ Hord) as Hcmp.
  destruct depth as [|depth]; [lia|].
  destruct (quicksort_delegated key ord leb Hcmp depth fuel array pivotselector
              (Z.of_nat (length array))) as (a1 & R1 & P1 & S1); [lia|].
  exists a1. split; [assumption|].
  destruct (quicksort_total key ord leb Hcmp (S depth) fuel array pivotselector 0
              Hsel Hfuel) as [(a2 & R2 & P2 & S2)|Hrec]; [left|right; exact Hrec].
  exists a2. split; [assumption|].
  assert (E : map key a1 = map key a2).
  { apply sorted_keys_unique.
    - apply Permutation_map. rewrite <- P1. exact P2.
    - apply key_sorted_map. apply S1. exact Hord.
    - apply key_sorted_map. apply S2. exact Hord. }
  split; [exact E|]. intros Hinj. apply map_key_injective; [exact E|].
  intros x y Hx Hy. apply Hinj.
  - apply (Permutation_in _ (Permutation_sym P1)). exact Hx.
  - apply (Permutation_in _ (Permutation_sym P2)). exact Hy.
Qed.

End Uniqueness.

Section Partitioned.
Context {A K : Type}.
Variable key : A → K.
Variable ord : Ordering K.
Variable leb : K → K → bool.
Hypothesis Hord : total_order ord leb.

(** C8.  On a subrange [lo, hi) of the array with [hi > lo], with a
    pivot strategy that returns an index of the subrange and fuel
    exceeding the subrange size, one call of [partition] returns a
    position [p] in [lo, hi) such that afterwards every element at a
    position in [lo, p) has a key not above the key at [p], and every
    element at a position in [p, hi) has a key not below it.  The array
    afterwards has the length it had and is a rearrangement of what it
    held, the positions outside [lo, hi) unchanged, so that every
    position of [lo, hi) still holds an element and the subrange holds
    the elements it held before. *)
Theorem partition_correct (fuel : nat) (array : list A) (lo hi : Z)
    (pivotselector : list A → Z → Z → res (option Z)) :
  0 <= lo < hi → hi <= Z.of_nat (length array) → pivot_inrange pivotselector →
  (Z.to_nat (hi - lo) < fuel)%nat →
  ∃ array' p pivot_value,
    partition key ord fuel array lo hi pivotselector = Ok (array', p) ∧
    lo <= p < hi ∧ array' !! Z.to_nat p = Some pivot_value ∧
    (∀ k x, lo <= k < p → array' !! Z.to_nat k = Some x →
            leb (key x) (key pivot_value) = true) ∧
    (∀ k x, p <= k < hi → array' !! Z.to_nat k = Some x →
            leb (key pivot_value) (key x) = true) ∧
    length array' = length array ∧
    (∀ k, lo <= k < hi → ∃ x, array' !! Z.to_nat k = Some x) ∧
    Permutation array array' ∧
    Permutation (slice array lo hi) (slice array' lo hi) ∧
    (∀ k : nat, Z.of_nat k < lo ∨ hi <= Z.of_nat k → array' !! k = array !! k).
Proof.
  intros Hlo Hhi Hsel Hfuel.
  destruct (partition_spec key ord (total_order_comparable _ _ Hord)
              fuel array lo hi pivotselector Hlo Hhi Hsel Hfuel)
    as (a' & p & pv & Hrun & Hlen & Hperm & Hp & Hpv & Hle & Hri & Hfr).
  exists a', p, pv. split; [assumption|]. split; [assumption|].
  split; [assumption|]. split; [|split; [|split; [|split; [|split; [|split]]]]].
  - intros k x Hk Hx. apply (left_ok_leb key ord leb Hord). apply (Hle k x); assumption.
  - intros k x Hk Hx. destruct (Z.eq_dec k p) as [->|Hne].
    + assert (x = pv) by congruence. subst x. apply (leb_refl ord leb _ Hord).
    + apply (right_ok_leb key ord leb Hord). apply (Hri k x); [lia|assumption].
  - exact Hlen.
  - intros k Hk. apply lookup_lt_is_Some_2. lia.
  - exact Hperm.
  - apply (frame_segment array a' lo hi); (assumption || lia).
  - exact Hfr.
Qed.

End Partitioned.

(** C9 as stated fails when keys tie: with a constant key the built-in
    sort keeps the input order while partitioning reorders it. *)
Lemma quicksort_cutoff_differs :
  quicksort (fun _ : Z => 0) Z_ord 4 4 [1; 2; 3] take_first_pivot 3 = Ok [1; 2; 3] ∧
  quicksort (fun _ : Z => 0) Z_ord 4 4 [1; 2; 3] take_first_pivot 0 = Ok [3; 1; 2] ∧
  quicksort (fun _ : Z => 0) Z_ord 4 4 [1; 2; 3] take_first_pivot 3
  ≠ quicksort (fun _ : Z => 0) Z_ord 4 4 [1; 2; 3] take_first_pivot 0.
Proof. split; [reflexivity|]. split; [reflexivity|discriminate]. Qed.

Lemma quicksort_cutoff_equivalence_witness :
  ∃ a1,
    quicksort (fun x : Z => x) Z_ord 4 4 [3; 1; 2] take_first_pivot
      (Z.of_nat (length [3; 1; 2])) = Ok a1 ∧
    ((∃ a2,
        quicksort (fun x : Z => x) Z_ord 4 4 [3; 1; 2] take_first_pivot 0 = Ok a2 ∧
        map (fun x : Z => x) a1 = map (fun x : Z => x) a2 ∧
        ((∀ x y, In x [3; 1; 2] → In y [3; 1; 2] → x = y → x = y) → a1 = a2)) ∨
     (quicksort (fun x : Z => x) Z_ord 4 4 [3; 1; 2] take_first_pivot 0
      = Raise RecursionError ∧ (4 <= length [3; 1; 2])%nat)).
Proof.
  apply (quicksort_cutoff_equivalence (fun x : Z => x) Z_ord Z.leb Z_ord_total_order
           4 4 [3; 1; 2] take_first_pivot).
  - apply take_first_pivot_inrange.
  - simpl. lia.
  - lia.
Defined.

Section Contents.
Context {A K : Type}.
Variable key : A → K.
Variable ord : Ordering K.

Lemma builtin_timsort_Permutation (array : list A) (lo hi : Z) :
  comparable ord → 0 <= lo <= hi → hi <= Z.of_nat (length array) →
  ∃ a', builtin_timsort key ord array lo hi = Ok a' ∧ Permutation array a'.
Proof.
  intros Hcmp Hlo Hhi.
  destruct (segments_of array lo hi Hlo Hhi) as (E & Hl1 & Hl2).
  destruct (builtin_timsort_segment key ord (fun _ _ => true) Hcmp
              (take (Z.to_nat lo) array) (slice array lo hi) (drop (Z.to_nat hi) array))
    as (seg' & Hrun & Hperm & _).
  rewrite <- E, Hl1, Hl2 in Hrun.
  replace (Z.of_nat (Z.to_nat lo)) with lo in Hrun by lia.
  replace (lo + Z.of_nat (Z.to_nat (hi - lo))) with hi in Hrun by lia.
  eexists. split; [exact Hrun|].
  rewrite E at 1. apply Permutation_app_head, Permutation_app_tail. exact Hperm.
Qed.

(** C10.  When comparisons of keys return, the pivot strategy returns
    an index of its subrange and the fuel exceeds the array length, each
    sorting operation returns and leaves a permutation of the contents
    the array had before: [quicksort] for any cutoff, [insertion_sort],
    [builtin_timsort] on a subrange, and one call of [partition].  The
    one other way [quicksort] can end is [RecursionError], when the array
    is at least as long as the recursion depth the interpreter admits. *)
Theorem sorting_preserves_contents (depth fuel : nat) (array : list A)
    (pivotselector : list A → Z → Z → res (option Z)) (cutoff lo hi tlo thi : Z) :
  comparable ord → pivot_inrange pivotselector → (length array < fuel)%nat →
  0 <= lo < hi → hi <= Z.of_nat (length array) →
  0 <= tlo <= thi → thi <= Z.of_nat (length array) →
  ((∃ a', quicksort key ord depth fuel array pivotselector cutoff = Ok a' ∧
          Permutation array a') ∨
   (quicksort key ord depth fuel array pivotselector cutoff = Raise RecursionError ∧
    (depth <= length array)%nat)) ∧
  (∃ a', insertion_sort key ord fuel array = Ok a' ∧ Permutation array a') ∧
  (∃ a', builtin_timsort key ord array tlo thi = Ok a' ∧ Permutation array a') ∧
  (∃ a' p, partition key ord fuel array lo hi pivotselector = Ok (a', p) ∧
           Permutation array a').
Proof.
  intros Hcmp Hsel Hfuel Hlo Hhi Htlo Hthi. split; [|split; [|split]].
  - destruct (quicksort_total key ord (fun _ _ => true) Hcmp depth fuel array
                pivotselector cutoff Hsel Hfuel) as [(a' & Hrun & Hperm & _)|Hrec];
      [left|right; exact Hrec].
    exists a'. split; assumption.
  - destruct (insertion_sort_spec key ord (fun _ => True)
                (fun x y _ _ => proj1 (proj2 (Hcmp (key x) (key y)))) fuel array)
      as (a' & Hrun & Hperm & _); [apply Forall_forall; auto|assumption|].
    exists a'. split; assumption.
  - apply builtin_timsort_Permutation; assumption.
  - destruct (partition_spec key ord Hcmp fuel array lo hi pivotselector)
      as (a' & p & pv & Hrun & _ & Hperm & _); try assumption; [lia|].
    exists a', p. split; assumption.
Qed.

End Contents.

Lemma sorting_preserves_contents_witness :
  ((∃ a', quicksort (fun x : Z => x) Z_ord 4 4 [3; 1; 2] take_first_pivot 2 = Ok a' ∧
          Permutation [3; 1; 2] a') ∨
   (quicksort (fun x : Z => x) Z_ord 4 4 [3; 1; 2] take_first_pivot 2
    = Raise RecursionError ∧ (4 <= length [3; 1; 2])%nat)) ∧
  (∃ a', insertion_sort (fun x : Z => x) Z_ord 4 [3; 1; 2] = Ok a' ∧
         Permutation [3; 1; 2] a') ∧
  (∃ a', builtin_timsort (fun x : Z => x) Z_ord [3; 1; 2] 0 3 = Ok a' ∧
         Permutation [3; 1; 2] a') ∧
  (∃ a' p, partition (fun x : Z => x) Z_ord 4 [3; 1; 2] 0 3 take_first_pivot = Ok (a', p) ∧
           Permutation [3; 1; 2] a').
Proof.
  apply (sorting_preserves_contents (fun x : Z => x) Z_ord 4 4 [3; 1; 2]
           take_first_pivot 2 0 3 0 3).
  - exact (total_order_comparable Z_ord Z.leb Z_ord_total_order).
  - apply take_first_pivot_inrange.
  - simpl. lia.
  - lia.
  - simpl. lia.
  - lia.
  - simpl. lia.
Defined.

Lemma partition_correct_witness :
  ∃ array' p pivot_value,
    partition (fun x : Z => x) Z_ord 4 [5; 3; 1; 2; 0] 1 4 take_first_pivot
    = Ok (array', p) ∧
    1 <= p < 4 ∧ array' !! Z.to_nat p = Some pivot_value ∧
    (∀ k x, 1 <= k < p → array' !! Z.to_nat k = Some x → Z.leb x pivot_value = true) ∧
    (∀ k x, p <= k < 4 → array' !! Z.to_nat k = Some x → Z.leb pivot_value x = true) ∧
    length array' = length [5; 3; 1; 2; 0] ∧
    (∀ k, 1 <= k < 4 → ∃ x, array' !! Z.to_nat k = Some x) ∧
    Permutation [5; 3; 1; 2; 0] array' ∧
    Permutation (slice [5; 3; 1; 2; 0] 1 4) (slice array' 1 4) ∧
    (∀ k : nat, Z.of_nat k < 1 ∨ 4 <= Z.of_nat k → array' !! k = [5; 3; 1; 2; 0] !! k).
Proof.
  apply (partition_correct (fun x : Z => x) Z_ord Z.leb Z_ord_total_order
           4 [5; 3; 1; 2; 0] 1 4 take_first_pivot).
  - lia.
  - simpl. lia.
  - apply take_first_pivot_inrange.
  - simpl. lia.
Defined.

End SortTheorems.

(** ** The external sorter *)

Module ExternalSortFacts.

Import Sort BuildIndex BytesFacts ExactCompareFacts PartitionFacts SortFacts
       InsertionFacts PivotFacts SearchFacts.

Lemma bytes_ord_total_order : total_order bytes_ord bytes_leb.
Proof.
  split; simpl.
  - intros s t. f_equal. unfold bytes_ltb, bytes_leb.
    rewrite (bytes_compare_antisym s t). destruct (bytes_compare s t); reflexivity.
  - intros s t. f_equal. unfold bytes_gtb, bytes_leb.
    destruct (bytes_compare s t); reflexivity.
  - reflexivity.
  - intros s t. f_equal. unfold bytes_geb, bytes_leb.
    rewrite (bytes_compare_antisym s t). destruct (bytes_compare s t); reflexivity.
  - apply bytes_leb_total.
  - apply bytes_leb_trans.
  - apply bytes_leb_antisym.
Qed.

Lemma StronglySorted_lookup {A} (R : A → A → Prop) (l : list A) :
  StronglySorted R l →
  ∀ (i j : nat) (x y : A), (i < j)%nat → l !! i = Some x → l !! j = Some y → R x y.
Proof.
  induction 1 as [|z l Hs IH Hz]; intros i j x y Hij Hx Hy.
  - destruct i; discriminate.
  - destruct j as [|j]; [lia|]. simpl in Hy. destruct i as [|i].
    + simpl in Hx. injection Hx as <-. rewrite Forall_forall in Hz.
      apply Hz. apply list_elem_of_lookup. eauto.
    + simpl in Hx. apply (IH i j); [lia|assumption|assumption].
Qed.

Section Exact.
Variable text : list byte.
Variable fuel : nat.
Hypothesis Hfuel : (length text < fuel)%nat.

Local Abbreviation in_text := (Specs.in_text text).

Lemma exact_gt (p q : N) :
  in_text p → in_text q →
  gt (exact_compare fuel text) p q = Ok (bytes_gtb (suffix text p) (suffix text q)).
Proof.
  intros Hp Hq. simpl. rewrite exact_key_result by assumption. cbn [bind].
  f_equal. unfold bytes_gtb.
  destruct (bytes_compare (suffix text p) (suffix text q)); reflexivity.
Qed.

Lemma exact_not_gt (p q : N) :
  in_text p → in_text q →
  not_gt id (exact_compare fuel text) p q ↔ lex_le (suffix text p) (suffix text q).
Proof.
  intros Hp Hq. unfold not_gt, id. rewrite exact_gt by assumption.
  rewrite <- bytes_leb_le, bytes_gtb_leb. split.
  - intros H. injection H as H. apply negb_false_iff in H. exact H.
  - intros ->. reflexivity.
Qed.

Lemma exact_gt_asym : gt_asym id (exact_compare fuel text) in_text.
Proof.
  intros p q Hp Hq H. unfold not_gt, id in *. rewrite exact_gt in * by assumption.
  injection H as H. f_equal. unfold bytes_gtb in *.
  rewrite (bytes_compare_antisym (suffix text p) (suffix text q)).
  destruct (bytes_compare (suffix text p) (suffix text q)); simpl; congruence.
Qed.

Lemma exact_not_gt_trans : not_gt_trans id (exact_compare fuel text) in_text.
Proof.
  intros p q r Hp Hq Hr H1 H2.
  apply exact_not_gt in H1, H2; try assumption. apply exact_not_gt; try assumption.
  apply bytes_leb_le. apply bytes_leb_le in H1, H2.
  eapply bytes_leb_trans; eassumption.
Qed.

End Exact.

(** Insertion sort by the exact comparator, on entries inside the text. *)
Lemma exact_insertion_sort (fuel : nat) (textfile : list byte) (array : list N) :
  Forall (in_text textfile) array →
  (length textfile < fuel)%nat → (length array < fuel)%nat →
  ∃ array', insertion_sort id (exact_compare fuel textfile) fuel array = Ok array' ∧
            Permutation array array' ∧ suffix_sorted textfile array'.
Proof.
  intros Hin Hft Hfa.
  destruct (insertion_sort_spec id (exact_compare fuel textfile) (in_text textfile)
              (fun p q Hp Hq => ex_intro _ _ (exact_gt textfile fuel Hft p q Hp Hq))
              fuel array Hin Hfa)
    as (a2 & Hrun & Hp2 & Hsorted).
  exists a2. split; [exact Hrun|]. split; [exact Hp2|].
  specialize (Hsorted (exact_gt_asym textfile fuel Hft)
                      (exact_not_gt_trans textfile fuel Hft)).
  assert (Hin2 : Forall (in_text textfile) a2) by (rewrite <- Hp2; exact Hin).
  rewrite Forall_forall in Hin2.
  intros i j p q Hij Hp Hq.
  apply (exact_not_gt textfile fuel Hft).
  - apply Hin2. apply list_elem_of_lookup. eauto.
  - apply Hin2. apply list_elem_of_lookup. eauto.
  - apply (StronglySorted_lookup _ a2 Hsorted i j); assumption.
Qed.

(** The external sorter with its trace: it returns a sorted rearrangement
    of the index, no subrange being handed to the built-in sort, unless
    its quicksort runs into the recursion limit. *)
Lemma sort_suffix_array_traced_total (depth fuel : nat) (textfile : list byte)
    (indexfile : list N) (cutoff : Z) :
  indexfile ≠ [] → Forall (in_text textfile) indexfile →
  (length textfile < fuel)%nat → (length indexfile < fuel)%nat →
  (∃ index',
     sort_suffix_array_traced depth fuel textfile indexfile cutoff = Ok (index', []) ∧
     Permutation indexfile index' ∧ suffix_sorted textfile index') ∨
  (sort_suffix_array_traced depth fuel textfile indexfile cutoff = Raise RecursionError ∧
   (depth <= length indexfile)%nat).
Proof.
  intros Hne Hin Hft Hfi. unfold sort_suffix_array_traced.
  destruct indexfile as [|p0 rest] eqn:Ei; [congruence|]. rewrite <- Ei in *.
  assert (Ht : DiskBytesArray textfile = Ok textfile).
  { destruct textfile as [|b t]; [|reflexivity].
    rewrite Ei in Hin. apply Forall_cons in Hin as [H0 _].
    unfold in_text in H0. simpl in H0. lia. }
  assert (Hi : DiskIntArray indexfile = Ok indexfile) by (rewrite Ei; reflexivity).
  rewrite Ht, Hi. cbn [bind].
  destruct (quicksort_traced_total (take_prefix textfile) bytes_ord bytes_leb
              (total_order_comparable _ _ bytes_ord_total_order) depth fuel indexfile
              (median_of_three (take_prefix textfile) bytes_ord) 0)
    as [(a1 & trace & -> & Hp1 & _ & Htrace)|[-> Hd]]; [|assumption| |].
  { apply (median_of_three_inrange _ _ bytes_leb bytes_ord_total_order). }
  - cbn [bind]. rewrite (Htrace ltac:(lia)).
    assert (Hin1 : Forall (in_text textfile) a1) by (rewrite <- Hp1; exact Hin).
    destruct (exact_insertion_sort fuel textfile a1 Hin1 Hft)
      as (a2 & -> & Hp2 & Hsorted).
    { rewrite <- (Permutation_length Hp1). exact Hfi. }
    cbn [bind]. left. exists a2. split; [reflexivity|].
    split; [etransitivity; eassumption|exact Hsorted].
  - cbn [bind]. right. split; [reflexivity|exact Hd].
Qed.

Lemma sort_suffix_array_traced_spec (depth fuel : nat) (textfile : list byte)
    (indexfile : list N) (cutoff : Z) :
  indexfile ≠ [] → Forall (in_text textfile) indexfile →
  (length indexfile < depth)%nat →
  (length textfile < fuel)%nat → (length indexfile < fuel)%nat →
  ∃ index',
    sort_suffix_array_traced depth fuel textfile indexfile cutoff = Ok (index', []) ∧
    Permutation indexfile index' ∧ suffix_sorted textfile index'.
Proof.
  intros Hne Hin Hd Hft Hfi.
  destruct (sort_suffix_array_traced_total depth fuel textfile indexfile cutoff
              Hne Hin Hft Hfi) as [H|[_ H]]; [exact H|lia].
Qed.

(** C2, amended.  On an index whose entries are offsets inside the text,
    with fuel exceeding the lengths of the text and of the index:
    [insertion_sort] with the exact comparator returns a rearrangement of
    the array in which, for all positions [i < j], the suffix at entry
    [i] is lexicographically below or equal to the suffix at entry [j];
    and on a non-empty index the external sorter (quicksort by the
    100-byte prefix key, then that insertion sort) returns such a
    rearrangement of the index, unless its quicksort, which recurses with
    cutoff 0, runs into the recursion limit and raises [RecursionError];
    that takes an index at least as long as the recursion depth the
    interpreter admits. *)
Theorem sort_suffix_array_correct (depth fuel : nat) (textfile : list byte)
    (indexfile : list N) (cutoff : Z) :
  Forall (in_text textfile) indexfile →
  (length textfile < fuel)%nat → (length indexfile < fuel)%nat →
  (∃ array', insertion_sort id (exact_compare fuel textfile) fuel indexfile = Ok array' ∧
             Permutation indexfile array' ∧ suffix_sorted textfile array') ∧
  (indexfile ≠ [] →
   (∃ index', sort_suffix_array depth fuel textfile indexfile cutoff = Ok index' ∧
              Permutation indexfile index' ∧ suffix_sorted textfile index') ∨
   (sort_suffix_array depth fuel textfile indexfile cutoff = Raise RecursionError ∧
    (depth <= length indexfile)%nat)).
Proof.
  intros Hin Hft Hfi. split; [apply exact_insertion_sort; assumption|].
  intros Hne. unfold sort_suffix_array.
  destruct (sort_suffix_array_traced_total depth fuel textfile indexfile cutoff
              Hne Hin Hft Hfi) as [(index' & -> & Hperm & Hsorted)|[-> Hd]]; cbn [bind].
  - left. exists index'. split; [reflexivity|]. split; assumption.
  - right. split; [reflexivity|exact Hd].
Qed.

End ExternalSortFacts.

(** ** The build pipeline on concrete inputs *)

Module PipelineFacts.

Import Sort BuildIndex SearchIndex BytesFacts ExactCompareFacts PartitionFacts SortFacts
       PivotFacts SearchFacts ExternalSortFacts.

Lemma exact_loop_outside text : ∀ (fuel : nat) (p q : N),
  (length text <= N.to_nat p)%nat → (length text <= N.to_nat q)%nat →
  exact_loop fuel text p q = Raise OutOfFuel.
Proof.
  induction fuel as [|fuel IH]; intros p q Hp Hq; [reflexivity|].
  cbn [exact_loop]. unfold text_slice.
  rewrite !drop_ge by lia. rewrite !take_nil. simpl.
  apply IH; unfold COMPARE_BUFFER_SIZE; lia.
Qed.

Lemma insertion_first_round_outside text (fuel : nat) (p q : N) :
  (length text <= N.to_nat p)%nat → (length text <= N.to_nat q)%nat → p ≠ q →
  insertion_loop id (exact_compare (S fuel) text) (S fuel) [p; q] (0 - 1)
  = Raise OutOfFuel.
Proof.
  intros Hp Hq Hne. cbn [insertion_loop].
  change (getitem [p; q] (0 - 1)) with (Ok q).
  change (getitem [p; q] (0 - 1 + 1)) with (Ok p). cbn [bind].
  unfold exact_compare, cmp_to_key, id. cbn [gt]. unfold exact_key.
  destruct (N.eqb_spec q p) as [E|_]; [congruence|].
  rewrite exact_loop_outside by assumption. reflexivity.
Qed.

(** C2 as stated fails on index contents that are not offsets into the
    text: the exact comparator never tells two distinct offsets beyond
    the end of the text apart, so the sorter does not return for any
    amount of fuel, at any recursion depth. *)
Lemma sort_suffix_array_outside_text :
  ¬ ∃ (depth fuel : nat) (index' : list N),
      sort_suffix_array depth fuel [x61]%byte [5; 6]%N SORTING_CUTOFF = Ok index'.
Proof.
  intros (depth & fuel & index' & H).
  destruct (Nat.le_gt_cases fuel 2) as [Hsmall|Hbig].
  - destruct fuel as [|[|[|fuel]]]; [| | |lia];
      destruct depth as [|[|[|depth]]]; discriminate H.
  - unfold sort_suffix_array, sort_suffix_array_traced in H.
    cbn [DiskBytesArray DiskIntArray bind] in H.
    destruct (quicksort_traced_total (take_prefix [x61]%byte) bytes_ord bytes_leb
                (total_order_comparable _ _ bytes_ord_total_order) depth fuel [5; 6]%N
                (median_of_three (take_prefix [x61]%byte) bytes_ord) 0)
      as [(a1 & trace & E & Hp1 & _ & _)|[E _]].
    { apply (median_of_three_inrange _ _ bytes_leb bytes_ord_total_order). }
    { simpl. lia. }
    2: { rewrite E in H. discriminate H. }
    rewrite E in H. cbn [bind] in H.
    destruct fuel as [|fuel]; [lia|].
    apply Permutation_length_2_inv in Hp1 as [->| ->];
      unfold insertion_sort in H; cbn [length insertion_for] in H;
      rewrite insertion_first_round_outside in H by (simpl; lia);
      discriminate H.
Qed.

Lemma in_text_b_a : Forall (in_text text_b_a) [0; 2]%N.
Proof. repeat constructor; unfold in_text; simpl; lia. Qed.

Lemma sort_suffix_array_correct_witness :
  (∃ array', insertion_sort id (exact_compare 4 text_b_a) 4 [0; 2]%N = Ok array' ∧
             Permutation [0; 2]%N array' ∧ suffix_sorted text_b_a array') ∧
  ([0; 2]%N ≠ [] →
   (∃ index', sort_suffix_array 4 4 text_b_a [0; 2]%N SORTING_CUTOFF = Ok index' ∧
              Permutation [0; 2]%N index' ∧ suffix_sorted text_b_a index') ∨
   (sort_suffix_array 4 4 text_b_a [0; 2]%N SORTING_CUTOFF = Raise RecursionError ∧
    (4 <= length [0; 2]%N)%nat)).
Proof.
  apply (sort_suffix_array_correct 4 4 text_b_a [0; 2]%N SORTING_CUTOFF).
  - exact in_text_b_a.
  - simpl. lia.
  - simpl. lia.
Defined.

Lemma suffix_sorted_b_a : suffix_sorted text_b_a [2; 0]%N.
Proof.
  intros i j p q Hij Hp Hq.
  destruct i as [|[|i]]; destruct j as [|[|j]]; simpl in Hp, Hq;
    try lia; try discriminate.
  injection Hp as <-. injection Hq as <-.
  right. apply bytes_compare_lt. reflexivity.
Qed.

Lemma binary_search_first_correct_witness :
  ∃ r, binary_search_first 2 [x61]%byte [2; 0]%N text_b_a = Ok r ∧
       ((∃ i, matches text_b_a [x61]%byte [2; 0]%N i) →
          0 <= r ∧ matches text_b_a [x61]%byte [2; 0]%N (Z.to_nat r) ∧
          ∀ i, matches text_b_a [x61]%byte [2; 0]%N i → r <= Z.of_nat i) ∧
       ((∀ i, ¬ matches text_b_a [x61]%byte [2; 0]%N i) → r = -1).
Proof.
  apply (binary_search_first_correct 2 [x61]%byte [2; 0]%N text_b_a).
  - discriminate.
  - exact suffix_sorted_b_a.
  - simpl. lia.
Defined.

(** C1 fails on the code.  [test_sortedness] starts the scan with
    [left = 0], a text offset, where the first index entry is meant: the
    first pair compared is (offset 0, [index[1]]), and the outcome of the
    scan does not depend on [index[0]] at all.  On the text [b a] the
    freshly built index [2, 0] is strictly sorted, yet the scan counts
    one violation and the build exits; on the text [ b a] the index
    [1, 3] is out of order, yet the scan counts none.  (Sorting the two
    entries takes three nested calls of [quicksort_subarray].) *)
Theorem test_sortedness_first_pair :
  (∀ (fuel : nat) (textfile : list byte) (p0 p0' : N) (rest : list N),
     sortedness_scan fuel textfile (p0 :: rest)
     = sortedness_scan fuel textfile (p0' :: rest)) ∧
  (∀ depth : nat, (2 < depth)%nat →
     sort_suffix_array depth 4 text_b_a [0; 2]%N SORTING_CUTOFF = Ok [2; 0]%N) ∧
  lex_lt (suffix text_b_a 2) (suffix text_b_a 0) ∧
  sortedness_scan 4 text_b_a [2; 0]%N
    = Ok {| left_ := 0; errs := 1; printed := [(1, text_b_a, text_b_a)] |} ∧
  test_sortedness 4 text_b_a [2; 0]%N = Raise (SystemExit 1) ∧
  (∀ depth : nat, (2 < depth)%nat →
     build_suffix_array depth 4 text_b_a SORTING_CUTOFF = Raise (SystemExit 1)) ∧
  lex_lt (suffix text_sp_b_a 3) (suffix text_sp_b_a 1) ∧
  test_sortedness 5 text_sp_b_a [1; 3]%N = Ok tt.
Proof.
  split; [reflexivity|].
  split; [intros depth Hd; destruct depth as [|[|[|depth]]]; [lia..|reflexivity]|].
  split; [apply bytes_compare_lt; reflexivity|].
  split; [reflexivity|]. split; [reflexivity|].
  split; [intros depth Hd; destruct depth as [|[|[|depth]]]; [lia..|reflexivity]|].
  split; [apply bytes_compare_lt; reflexivity|reflexivity].
Qed.

(** C3 fails on the code.  [sort_suffix_array] receives the cutoff but
    calls [quicksort] without it, so the default cutoff 0 applies: the
    result never depends on the cutoff, no subrange is ever delegated to
    the built-in sort (the sorter returns with an empty trace, or its
    recursion runs into the interpreter's limit), and with the default
    cutoff 10000 a subrange of size 2 is partitioned, in three nested
    calls, where [quicksort] given that cutoff delegates it in its first
    call. *)
Theorem sort_suffix_array_ignores_cutoff :
  (∀ (depth fuel : nat) (textfile : list byte) (indexfile : list N) (c1 c2 : Z),
     sort_suffix_array_traced depth fuel textfile indexfile c1
     = sort_suffix_array_traced depth fuel textfile indexfile c2) ∧
  (∀ (depth fuel : nat) (textfile : list byte) (indexfile : list N) (cutoff : Z),
     indexfile ≠ [] → Forall (in_text textfile) indexfile →
     (length textfile < fuel)%nat → (length indexfile < fuel)%nat →
     (∃ index',
        sort_suffix_array_traced depth fuel textfile indexfile cutoff = Ok (index', [])) ∨
     (sort_suffix_array_traced depth fuel textfile indexfile cutoff
      = Raise RecursionError ∧ (depth <= length indexfile)%nat)) ∧
  (∀ depth : nat, (2 < depth)%nat →
     sort_suffix_array_traced depth 4 text_b_a [0; 2]%N SORTING_CUTOFF
     = Ok ([2; 0]%N, [])) ∧
  (∀ depth : nat, (0 < depth)%nat →
     quicksort_traced (take_prefix text_b_a) bytes_ord depth 4 [0; 2]%N
       (median_of_three (take_prefix text_b_a) bytes_ord) SORTING_CUTOFF
     = Ok ([2; 0]%N, [(0, 2)])).
Proof.
  split; [reflexivity|]. split; [|split].
  - intros depth fuel textfile indexfile cutoff Hne Hin Hft Hfi.
    destruct (sort_suffix_array_traced_total depth fuel textfile indexfile cutoff
                Hne Hin Hft Hfi) as [(index' & Hrun & _)|Hrec]; [left|right; exact Hrec].
    exists index'. exact Hrun.
  - intros depth Hd. destruct depth as [|[|[|depth]]]; [lia..|reflexivity].
  - intros depth Hd. destruct depth as [|depth]; [lia|reflexivity].
Qed.

(** C5 fails on the code.  A 0-byte file cannot be mapped, so the build
    raises [ValueError] before anything is written, and
    [binary_search_first] on an index of size 0 reads [index[0]] and
    raises [IndexError]; an index of size 1 is searched without error. *)
Theorem empty_inputs_raise :
  DiskBytesArray [] = Raise ValueError ∧
  collect_corpus_positions [] = Raise ValueError ∧
  (∀ (depth fuel : nat) (cutoff : Z),
     build_suffix_array depth fuel [] cutoff = Raise ValueError) ∧
  (∀ (fuel : nat) (search_key text : list byte),
     binary_search_first (S fuel) search_key [] text = Raise IndexError) ∧
  (∀ (fuel : nat) (search_key text : list byte) (p : N),
     ∃ r, binary_search_first (S fuel) search_key [p] text = Ok r).
Proof.
  split; [reflexivity|]. split; [reflexivity|]. split; [reflexivity|]. split.
  - intros fuel search_key text. reflexivity.
  - intros fuel search_key text p. unfold binary_search_first. simpl.
    destruct (bytes_eqb search_key _); eexists; reflexivity.
Qed.

End PipelineFacts.

(** ** More about sort.py *)

Module SortMore.

Import Sort ArrayFacts PartitionFacts SegmentFacts SortFacts InsertionFacts PivotFacts.

Section Order.
Context {A K : Type}.
Variable key : A → K.
Variable ord : Ordering K.
Variable leb : K → K → bool.
Hypothesis Hord : total_order ord leb.

(** [median_of_three] returns the index of the first, the middle or the
    last element of the subrange, and the key there lies between the keys
    of the other two; it never falls off its end. *)
Theorem median_of_three_is_median (array : list A) (lo hi : Z) :
  0 <= lo < hi → hi <= Z.of_nat (length array) →
  ∃ p xlo xmid xhi,
    median_of_three key ord array lo hi = Ok (Some p) ∧
    array !! Z.to_nat lo = Some xlo ∧
    array !! Z.to_nat ((lo + hi - 1) / 2) = Some xmid ∧
    array !! Z.to_nat (hi - 1) = Some xhi ∧
    ((p = lo ∧ between leb (key xlo) (key xmid) (key xhi)) ∨
     (p = (lo + hi - 1) / 2 ∧ between leb (key xmid) (key xlo) (key xhi)) ∨
     (p = hi - 1 ∧ between leb (key xhi) (key xlo) (key xmid))).
Proof.
  intros Hlo Hhi. unfold median_of_three.
  replace (hi - 1 + lo) with (lo + hi - 1) by lia.
  assert (Hm : lo <= (lo + hi - 1) / 2 < hi).
  { pose proof (Z.div_mod (lo + hi - 1) 2 ltac:(lia)).
    pose proof (Z.mod_pos_bound (lo + hi - 1) 2 ltac:(lia)). lia. }
  destruct (lookup_lt_is_Some_2 array (Z.to_nat lo)) as [xlo Hxlo]; [lia|].
  destruct (lookup_lt_is_Some_2 array (Z.to_nat (hi - 1))) as [xhi Hxhi]; [lia|].
  destruct (lookup_lt_is_Some_2 array (Z.to_nat ((lo + hi - 1) / 2))) as [xmid Hxmid];
    [lia|].
  rewrite (getitem_inrange array lo xlo) by (assumption || lia). cbn [bind].
  rewrite (getitem_inrange array (hi - 1) xhi) by (assumption || lia). cbn [bind].
  rewrite (getitem_inrange array ((lo + hi - 1) / 2) xmid) by (assumption || lia).
  cbn [bind]. unfold and_then, or_else.
  rewrite !(le_leb _ _ Hord), !(ge_leb _ _ Hord). cbn [bind].
  pose proof (leb_total _ _ Hord (key xlo) (key xhi)) as T1.
  pose proof (leb_total _ _ Hord (key xlo) (key xmid)) as T2.
  pose proof (leb_total _ _ Hord (key xmid) (key xhi)) as T3.
  unfold between.
  destruct (leb (key xlo) (key xhi)) eqn:E1, (leb (key xhi) (key xlo)) eqn:E2,
           (leb (key xlo) (key xmid)) eqn:E3, (leb (key xmid) (key xlo)) eqn:E4,
           (leb (key xmid) (key xhi)) eqn:E5, (leb (key xhi) (key xmid)) eqn:E6;
    cbn [bind];
    try (destruct T1; discriminate); try (destruct T2; discriminate);
    try (destruct T3; discriminate);
    (eexists; exists xlo, xmid, xhi; split; [reflexivity|];
     split; [assumption|]; split; [assumption|]; split; [assumption|];
     first [ left; split; [reflexivity|]; tauto
           | right; left; split; [reflexivity|]; tauto
           | right; right; split; [reflexivity|]; tauto ]).
Qed.

(** [quicksort] sorts: for any cutoff and any pivot strategy that returns
    an index of its subrange, it returns a permutation of the array in
    non-decreasing key order, unless its recursion runs into the
    interpreter's limit and it raises [RecursionError]; that takes an
    array at least as long as the recursion depth the interpreter
    admits. *)
Theorem quicksort_sorts (depth fuel : nat) (array : list A)
    (pivotselector : list A → Z → Z → res (option Z)) (cutoff : Z) :
  pivot_inrange pivotselector → (length array < fuel)%nat →
  (∃ array', quicksort key ord depth fuel array pivotselector cutoff = Ok array' ∧
             Permutation array array' ∧ key_sorted key leb array') ∨
  (quicksort key ord depth fuel array pivotselector cutoff = Raise RecursionError ∧
   (depth <= length array)%nat).
Proof.
  intros Hsel Hfuel.
  destruct (quicksort_total key ord leb (total_order_comparable _ _ Hord)
              depth fuel array pivotselector cutoff Hsel Hfuel)
    as [(a' & Hrun & Hperm & Hs)|Hrec]; [left|right; exact Hrec].
  exists a'. split; [assumption|]. split; [assumption|]. apply Hs. exact Hord.
Qed.

Lemma swap_same (a : list A) (i : Z) (x : A) :
  0 <= i → a !! Z.to_nat i = Some x → swap a i i = Ok a.
Proof.
  intros Hi Hx. rewrite (swap_inrange a i i x x) by assumption.
  rewrite !list_insert_id; [reflexivity|assumption|].
  rewrite list_insert_id; assumption.
Qed.

(** On an array in strictly increasing key order the downward scan of
    [partition] runs from any position down to the pivot in front. *)
Lemma scan_hi_sorted (array : list A) (pv : A) (lo : Z) :
  0 <= lo → array !! Z.to_nat lo = Some pv →
  StronglySorted (key_lt key leb) array →
  ∀ (n fuel : nat), (n < fuel)%nat → lo + Z.of_nat n < Z.of_nat (length array) →
  scan_hi key ord fuel array pv (lo + 1) (lo + Z.of_nat n) = Ok lo.
Proof.
  intros Hlo Hpv Hs. induction n as [|n IH]; intros fuel Hfuel Hn;
    (destruct fuel as [|fuel]; [lia|]); cbn [scan_hi].
  - destruct (Z.leb_spec (lo + 1) (lo + Z.of_nat 0)) as [H|_]; [lia|].
    f_equal. lia.
  - destruct (Z.leb_spec (lo + 1) (lo + Z.of_nat (S n))) as [_|H]; [|lia].
    destruct (lookup_lt_is_Some_2 array (Z.to_nat (lo + Z.of_nat (S n)))) as [x Hx];
      [lia|].
    rewrite (getitem_inrange array _ x) by (assumption || lia). cbn [bind].
    assert (Hlt : key_lt key leb pv x).
    { apply (ExternalSortFacts.StronglySorted_lookup _ array Hs (Z.to_nat lo)
               (Z.to_nat (lo + Z.of_nat (S n)))); [lia|assumption|assumption]. }
    rewrite (gt_leb _ _ Hord). unfold key_lt in Hlt. rewrite Hlt. cbn [bind negb].
    replace (lo + Z.of_nat (S n) - 1) with (lo + Z.of_nat n) by lia.
    apply IH; lia.
Qed.

(** So with the first element as pivot, [partition] leaves such an array
    as it is and returns the first position: the left part is empty. *)
Lemma partition_sorted_first (fuel : nat) (array : list A) (lo : Z) :
  StronglySorted (key_lt key leb) array →
  0 <= lo < Z.of_nat (length array) → (length array < fuel)%nat →
  partition key ord fuel array lo (Z.of_nat (length array)) take_first_pivot
  = Ok (array, lo).
Proof.
  intros Hs Hlo Hfuel. unfold partition, take_first_pivot. cbn [bind].
  destruct (lookup_lt_is_Some_2 array (Z.to_nat lo)) as [pv Hpv]; [lia|].
  rewrite (swap_same array lo pv) by (assumption || lia). cbn [bind].
  rewrite (getitem_inrange array lo pv) by (assumption || lia). cbn [bind].
  destruct fuel as [|fuel]; [lia|]. cbn [partition_loop].
  assert (Hscan_lo : scan_lo key ord (S fuel) array pv (lo + 1)
                       (Z.of_nat (length array) - 1) = Ok (lo + 1)).
  { cbn [scan_lo].
    destruct (Z.leb_spec (lo + 1) (Z.of_nat (length array) - 1)) as [H|_];
      [|reflexivity].
    destruct (lookup_lt_is_Some_2 array (Z.to_nat (lo + 1))) as [x Hx]; [lia|].
    rewrite (getitem_inrange array _ x) by (assumption || lia). cbn [bind].
    assert (Hlt : key_lt key leb pv x).
    { apply (ExternalSortFacts.StronglySorted_lookup _ array Hs (Z.to_nat lo) (Z.to_nat (lo + 1)));
        [lia|assumption|assumption]. }
    rewrite (lt_leb _ _ Hord). unfold key_lt in Hlt.
    destruct (leb_total _ _ Hord (key pv) (key x)) as [E|E]; [|congruence].
    rewrite E. reflexivity. }
  rewrite Hscan_lo. cbn [bind].
  replace (Z.of_nat (length array) - 1)
    with (lo + Z.of_nat (Z.to_nat (Z.of_nat (length array) - 1 - lo))) by lia.
  rewrite (scan_hi_sorted array pv lo) by (assumption || lia). cbn [bind].
  destruct (Z.ltb_spec lo (lo + 1)) as [_|H]; [|lia].
  cbn [bind]. rewrite (swap_same array lo pv) by (assumption || lia). reflexivity.
Qed.

Lemma quicksort_subarray_sorted_first (fuel : nat) (array : list A) (cutoff : Z) :
  StronglySorted (key_lt key leb) array → cutoff <= 0 → (length array < fuel)%nat →
  ∀ (depth : nat) (lo : Z), 0 <= lo <= Z.of_nat (length array) →
  quicksort_subarray key ord depth fuel array lo (Z.of_nat (length array))
    take_first_pivot cutoff
  = if (Z.to_nat (Z.of_nat (length array) - lo) <? depth)%nat
    then Ok (array, []) else Raise RecursionError.
Proof.
  intros Hs Hcut Hfuel. induction depth as [|depth IH]; intros lo Hlo; [reflexivity|].
  cbn [quicksort_subarray]. cbv zeta.
  destruct (Z.eqb_spec (Z.of_nat (length array) - lo) 0) as [Hz|Hnz].
  { rewrite Hz. reflexivity. }
  destruct (Z.leb_spec (Z.of_nat (length array) - lo) cutoff) as [H|_]; [lia|].
  rewrite partition_sorted_first by (assumption || lia). cbn [bind].
  destruct depth as [|depth].
  { cbn [quicksort_subarray bind].
    destruct (Nat.ltb_spec (Z.to_nat (Z.of_nat (length array) - lo)) 1); [lia|reflexivity]. }
  assert (Hleft : quicksort_subarray key ord (S depth) fuel array lo lo
                    take_first_pivot cutoff = Ok (array, [])).
  { cbn [quicksort_subarray]. cbv zeta. rewrite Z.sub_diag. reflexivity. }
  rewrite Hleft. cbn [bind]. rewrite (IH (lo + 1)) by lia.
  destruct (Nat.ltb_spec (Z.to_nat (Z.of_nat (length array) - (lo + 1))) (S depth));
    destruct (Nat.ltb_spec (Z.to_nat (Z.of_nat (length array) - lo)) (S (S depth)));
    try lia; reflexivity.
Qed.

Lemma quicksort_sorted_first (depth fuel : nat) (array : list A) (cutoff : Z) :
  StronglySorted (key_lt key leb) array → cutoff <= 0 → (length array < fuel)%nat →
  quicksort key ord depth fuel array take_first_pivot cutoff
  = if (length array <? depth)%nat then Ok array else Raise RecursionError.
Proof.
  intros Hs Hcut Hfuel. unfold quicksort, quicksort_traced.
  rewrite (quicksort_subarray_sorted_first fuel array cutoff Hs Hcut Hfuel depth 0)
    by lia.
  replace (Z.to_nat (Z.of_nat (length array) - 0)) with (length array) by lia.
  destruct (length array <? depth)%nat; reflexivity.
Qed.

(** The recursion of [quicksort] is as deep as the array is long when the
    array is already in strictly increasing key order and the pivot is
    the first element: each call splits off the pivot alone.  With a
    cutoff of zero (or less) the sort then returns, leaving the array as
    it is, exactly when the recursion depth the interpreter admits
    exceeds the array length, and raises [RecursionError] otherwise. *)
Theorem quicksort_sorted_input_depth (depth fuel : nat) (array : list A) (cutoff : Z) :
  StronglySorted (key_lt key leb) array → cutoff <= 0 → (length array < fuel)%nat →
  quicksort key ord depth fuel array take_first_pivot cutoff
  = if (length array <? depth)%nat then Ok array else Raise RecursionError.
Proof. apply quicksort_sorted_first. Qed.

(** [builtin_timsort] on a subrange leaves the array outside the
    subrange as it was and puts the elements of the subrange in
    non-decreasing key order. *)
Theorem builtin_timsort_subrange (array : list A) (lo hi : Z) :
  0 <= lo <= hi → hi <= Z.of_nat (length array) →
  ∃ seg', builtin_timsort key ord array lo hi
          = Ok (take (Z.to_nat lo) array ++ seg' ++ drop (Z.to_nat hi) array) ∧
          Permutation (slice array lo hi) seg' ∧ key_sorted key leb seg'.
Proof.
  intros Hlo Hhi.
  destruct (segments_of array lo hi Hlo Hhi) as (E & Hl1 & Hl2).
  destruct (builtin_timsort_segment key ord leb (total_order_comparable _ _ Hord)
              (take (Z.to_nat lo) array) (slice array lo hi) (drop (Z.to_nat hi) array))
    as (seg' & Hrun & Hperm & Hs).
  rewrite <- E, Hl1, Hl2 in Hrun.
  replace (Z.of_nat (Z.to_nat lo)) with lo in Hrun by lia.
  replace (lo + Z.of_nat (Z.to_nat (hi - lo))) with hi in Hrun by lia.
  exists seg'. split; [exact Hrun|]. split; [exact Hperm|]. apply Hs. exact Hord.
Qed.

Lemma not_gt_leb (x y : A) : not_gt key ord x y ↔ leb (key x) (key y) = true.
Proof.
  unfold not_gt. rewrite (gt_leb _ _ Hord). split.
  - intros H. injection H as H. apply negb_false_iff in H. exact H.
  - intros ->. reflexivity.
Qed.

Lemma gt_true_leb (x y : A) :
  gt ord (key x) (key y) = Ok true ↔ leb (key x) (key y) = false.
Proof.
  rewrite (gt_leb _ _ Hord). split.
  - intros H. injection H as H. apply negb_true_iff in H. exact H.
  - intros ->. reflexivity.
Qed.

Lemma total_gt_asym : gt_asym key ord (fun _ => True).
Proof.
  intros x y _ _ H. apply not_gt_leb. apply gt_true_leb in H.
  destruct (leb_total _ _ Hord (key x) (key y)); congruence.
Qed.

Lemma total_not_gt_trans : not_gt_trans key ord (fun _ => True).
Proof.
  intros x y z _ _ _ H1 H2. apply not_gt_leb. apply not_gt_leb in H1, H2.
  apply (leb_trans _ _ Hord _ (key y)); assumption.
Qed.

Lemma total_gt_returns :
  ∀ x y : A, True → True → ∃ b, gt ord (key x) (key y) = Ok b.
Proof. intros x y _ _. rewrite (gt_leb _ _ Hord). eauto. Qed.

Lemma SSorted_not_gt_key_sorted (l : list A) :
  StronglySorted (not_gt key ord) l ↔ key_sorted key leb l.
Proof.
  unfold key_sorted. split; induction 1 as [|x l Hs IH Hx]; constructor; try assumption.
  - eapply Forall_impl; [exact Hx|]. intros y. apply not_gt_leb.
  - eapply Forall_impl; [exact Hx|]. intros y. apply not_gt_leb.
Qed.

Lemma insertion_sort_total (fuel : nat) (array : list A) :
  (length array < fuel)%nat →
  ∃ array', insertion_sort key ord fuel array = Ok array' ∧
            Permutation array array' ∧ key_sorted key leb array'.
Proof.
  intros Hfuel.
  destruct (insertion_sort_spec key ord (fun _ => True) total_gt_returns fuel array)
    as (a' & Hrun & Hperm & Hs); [apply Forall_forall; auto|assumption|].
  exists a'. split; [assumption|]. split; [assumption|].
  apply SSorted_not_gt_key_sorted. apply Hs.
  - exact total_gt_asym.
  - exact total_not_gt_trans.
Qed.

(** [insertion_sort] sorts: it returns a permutation of the array in
    non-decreasing key order. *)
Theorem insertion_sort_sorts (fuel : nat) (array : list A) :
  (length array < fuel)%nat →
  ∃ array', insertion_sort key ord fuel array = Ok array' ∧
            Permutation array array' ∧ key_sorted key leb array'.
Proof. apply insertion_sort_total. Qed.

End Order.

Section AnyOrder.
Context {A K : Type}.
Variable key : A → K.
Variable ord : Ordering K.

Lemma sorted_insert_length (x : A) : ∀ (l r : list A),
  sorted_insert key ord x l = Ok r → length r = S (length l).
Proof.
  induction l as [|y l IH]; intros r H; cbn [sorted_insert] in H.
  - injection H as <-. reflexivity.
  - destruct (lt ord (key y) (key x)) as [c|e]; cbn [bind] in H; [|discriminate].
    destruct c.
    + destruct (sorted_insert key ord x l) as [r'|e] eqn:E; cbn [bind] in H;
        [|discriminate].
      injection H as <-. simpl. f_equal. apply IH. reflexivity.
    + injection H as <-. reflexivity.
Qed.

Lemma sorted_length : ∀ (l r : list A), sorted key ord l = Ok r → length r = length l.
Proof.
  induction l as [|x l IH]; intros r H; cbn [sorted] in H.
  - injection H as <-. reflexivity.
  - destruct (sorted key ord l) as [r'|e] eqn:E; cbn [bind] in H; [|discriminate].
    apply sorted_insert_length in H. rewrite H, (IH r' eq_refl). reflexivity.
Qed.

(** With a cutoff of at least the array length, [quicksort] is exactly
    the built-in sort of the whole array: it returns what [sorted] returns
    and raises what [sorted] raises, and the pivot strategy is never
    called.  One level of recursion is enough for it. *)
Theorem quicksort_large_cutoff (depth fuel : nat) (array : list A)
    (pivotselector : list A → Z → Z → res (option Z)) (cutoff : Z) :
  Z.of_nat (length array) <= cutoff →
  quicksort key ord (S depth) fuel array pivotselector cutoff = sorted key ord array.
Proof.
  intros Hcut. unfold quicksort, quicksort_traced. cbn [quicksort_subarray]. cbv zeta.
  destruct (Z.eqb_spec (Z.of_nat (length array) - 0) 0) as [Hz|Hnz].
  - destruct array; [reflexivity|simpl in Hz; lia].
  - destruct (Z.leb_spec (Z.of_nat (length array) - 0) cutoff) as [_|Hgt]; [|lia].
    unfold builtin_timsort, slice.
    replace (Z.to_nat (Z.of_nat (length array)) - Z.to_nat 0)%nat with (length array)
      by lia.
    change (Z.to_nat 0) with 0%nat. rewrite drop_0, take_ge by lia.
    destruct (sorted key ord array) as [s|e] eqn:E; cbn [bind]; [|reflexivity].
    pose proof (store_from_segment s [] array [] (sorted_length _ _ E)) as Hst.
    cbn [app length] in Hst. change (Z.of_nat 0) with 0 in Hst.
    rewrite !app_nil_r in Hst. rewrite Hst. reflexivity.
Qed.

(** One call of [partition] in full: when the pivot strategy picks the
    index [pidx] of the subrange, the call returns a position [p] of the
    subrange that now holds the element picked, keeps the length, and
    leaves every position outside [lo, hi) as it was. *)
Theorem partition_frame (fuel : nat) (array : list A) (lo hi pidx : Z)
    (pivotselector : list A → Z → Z → res (option Z)) :
  comparable ord → 0 <= lo < hi → hi <= Z.of_nat (length array) →
  pivotselector array lo hi = Ok (Some pidx) → lo <= pidx < hi →
  (Z.to_nat (hi - lo) < fuel)%nat →
  ∃ array' p pv,
    partition key ord fuel array lo hi pivotselector = Ok (array', p) ∧
    lo <= p < hi ∧ length array' = length array ∧
    array !! Z.to_nat pidx = Some pv ∧ array' !! Z.to_nat p = Some pv ∧
    (∀ k : nat, Z.of_nat k < lo ∨ hi <= Z.of_nat k → array' !! k = array !! k).
Proof.
  intros Hcmp Hlo Hhi Hsel Hp Hfuel. unfold partition. rewrite Hsel. cbn [bind].
  destruct (lookup_lt_is_Some_2 array (Z.to_nat lo)) as [x0 Hx0]; [lia|].
  destruct (lookup_lt_is_Some_2 array (Z.to_nat pidx)) as [pv Hpv]; [lia|].
  destruct (swap_spec array lo pidx x0 pv) as (a1 & -> & Hlen1 & Hperm1 & Hpv1 & _ & Hfr1);
    try lia; try assumption.
  cbn [bind]. rewrite (getitem_inrange a1 lo pv) by (assumption || lia). cbn [bind].
  destruct (partition_loop_spec key ord Hcmp pv (lo + 1) (hi - 1) fuel a1 (lo + 1) (hi - 1))
    as (a2 & hi' & -> & Hlen2 & Hperm2 & Hb & Hle & Hri & Hfr2); try lia.
  cbn [bind].
  assert (Hpv2 : a2 !! Z.to_nat lo = Some pv) by (rewrite Hfr2 by lia; assumption).
  destruct (lookup_lt_is_Some_2 a2 (Z.to_nat hi')) as [y Hy]; [lia|].
  destruct (swap_spec a2 lo hi' pv y) as (a3 & -> & Hlen3 & Hperm3 & Hy3 & Hpv3 & Hfr3);
    try lia; try assumption.
  cbn [bind]. exists a3, hi', pv. split; [reflexivity|].
  split; [lia|]. split; [lia|]. split; [assumption|]. split; [assumption|].
  intros k Hk. rewrite Hfr3, Hfr2 by lia. apply Hfr1; lia.
Qed.

End AnyOrder.

Section Stable.
Context {A K : Type}.
Variable key : A → K.
Variable ord : Ordering K.
Variable leb : K → K → bool.
Hypothesis Hord : total_order ord leb.

Local Abbreviation with_key k := (List.filter (same_key key leb k)).

Lemma same_key_eq (k : K) (x : A) : same_key key leb k x = true → key x = k.
Proof.
  unfold same_key. intros H. apply andb_true_iff in H as [H1 H2].
  apply (leb_antisym _ _ Hord); assumption.
Qed.

Lemma same_key_refl (x : A) : same_key key leb (key x) x = true.
Proof. unfold same_key. rewrite (leb_refl ord leb _ Hord). reflexivity. Qed.

Lemma above_other_key (k : K) (x y : A) :
  leb (key y) (key x) = false →
  same_key key leb k x && same_key key leb k y = false.
Proof.
  intros H. destruct (same_key key leb k x) eqn:Ex; [|reflexivity].
  destruct (same_key key leb k y) eqn:Ey; [|reflexivity].
  apply same_key_eq in Ex, Ey. rewrite Ex, Ey in H.
  rewrite (leb_refl ord leb _ Hord) in H. discriminate.
Qed.

Lemma with_key_pass (k : K) (x : A) (l : list A) :
  Forall (fun y => gt ord (key y) (key x) = Ok true) l →
  with_key k (x :: l) = with_key k (l ++ [x]).
Proof.
  intros Hl. rewrite List.filter_app. cbn [List.filter].
  destruct (same_key key leb k x) eqn:Ex.
  - assert (E : with_key k l = []).
    { induction Hl as [|y l Hy Hl IH]; [reflexivity|]. cbn [List.filter].
      apply (gt_true_leb key ord leb Hord) in Hy.
      pose proof (above_other_key k x y Hy) as Hk. rewrite Ex in Hk. simpl in Hk.
      rewrite Hk. exact IH. }
    rewrite E. reflexivity.
  - rewrite app_nil_r. reflexivity.
Qed.

Lemma insertion_for_stable : ∀ (n fuel : nat) (done rest a' : list A),
  length rest = n → (length (done ++ rest) < fuel)%nat →
  insertion_for key ord fuel (done ++ rest) (Z.of_nat (length done)) n = Ok a' →
  ∀ k, with_key k a' = with_key k (done ++ rest).
Proof.
  induction n as [|n IH]; intros fuel done rest a' Hn Hfuel Hrun k.
  - cbn [insertion_for] in Hrun. injection Hrun as <-. reflexivity.
  - destruct rest as [|x rest]; [discriminate|]. cbn [insertion_for] in Hrun.
    destruct (insertion_loop_spec key ord (fun _ => True)
                (total_gt_returns key ord leb Hord) fuel done x rest)
      as (l1a & l1b & E & Hloop & Hb & _).
    { apply Forall_forall. auto. }
    { rewrite length_app in Hfuel. simpl in Hfuel. lia. }
    rewrite Hloop in Hrun. cbn [bind] in Hrun.
    replace (l1a ++ x :: l1b ++ rest) with ((l1a ++ x :: l1b) ++ rest) in Hrun
      by (rewrite <- app_assoc; reflexivity).
    replace (Z.of_nat (length done) + 1) with (Z.of_nat (length (l1a ++ x :: l1b)))
      in Hrun by (rewrite E, !length_app; simpl; lia).
    rewrite (IH fuel (l1a ++ x :: l1b) rest a'); [| |  |exact Hrun].
    + rewrite E. rewrite !List.filter_app.
      rewrite (with_key_pass k x l1b Hb). rewrite List.filter_app.
      change (with_key k (x :: rest)) with (with_key k ([x] ++ rest)).
      rewrite List.filter_app. rewrite <- !app_assoc. reflexivity.
    + simpl in Hn. lia.
    + rewrite E in Hfuel. rewrite !length_app in *. simpl in *. lia.
Qed.

(** [insertion_sort] is stable: for every key, the elements with that
    key come out in the order they went in. *)
Theorem insertion_sort_stable (fuel : nat) (array : list A) :
  (length array < fuel)%nat →
  ∃ array', insertion_sort key ord fuel array = Ok array' ∧
            ∀ k, List.filter (same_key key leb k) array'
                 = List.filter (same_key key leb k) array.
Proof.
  intros Hfuel.
  destruct (insertion_sort_total key ord leb Hord fuel array Hfuel) as (a' & Hrun & _).
  exists a'. split; [exact Hrun|].
  apply (insertion_for_stable (length array) fuel [] array a' eq_refl Hfuel Hrun).
Qed.

Lemma sorted_insert_stable (x : A) : ∀ (l r : list A) (k : K),
  sorted_insert key ord x l = Ok r → with_key k r = with_key k (x :: l).
Proof.
  induction l as [|y l IH]; intros r k H; cbn [sorted_insert] in H.
  - injection H as <-. reflexivity.
  - rewrite (lt_leb _ _ Hord) in H. cbn [bind] in H.
    destruct (leb (key x) (key y)) eqn:E; cbn [negb] in H.
    + injection H as <-. reflexivity.
    + destruct (sorted_insert key ord x l) as [r'|e] eqn:Er; cbn [bind] in H;
        [|discriminate].
      injection H as <-. cbn [List.filter]. rewrite (IH r' k eq_refl).
      cbn [List.filter].
      pose proof (above_other_key k y x E) as Hk.
      destruct (same_key key leb k y), (same_key key leb k x);
        try discriminate; reflexivity.
Qed.

Lemma sorted_stable : ∀ (l r : list A) (k : K),
  sorted key ord l = Ok r → with_key k r = with_key k l.
Proof.
  induction l as [|x l IH]; intros r k H; cbn [sorted] in H.
  - injection H as <-. reflexivity.
  - destruct (sorted key ord l) as [r'|e] eqn:E; cbn [bind] in H; [|discriminate].
    rewrite (sorted_insert_stable x r' r k H). cbn [List.filter].
    rewrite (IH r' k eq_refl). reflexivity.
Qed.

(** Two lists in key order that agree, key by key, on the elements with
    that key are the same list. *)
Lemma stable_sorted_unique : ∀ l1 l2 : list A,
  key_sorted key leb l1 → key_sorted key leb l2 →
  (∀ k, with_key k l1 = with_key k l2) → l1 = l2.
Proof.
  induction l1 as [|x t1 IH]; intros l2 H1 H2 Hk.
  - destruct l2 as [|y t2]; [reflexivity|].
    specialize (Hk (key y)). cbn [List.filter] in Hk.
    rewrite same_key_refl in Hk. discriminate.
  - destruct l2 as [|y t2].
    { specialize (Hk (key x)). cbn [List.filter] in Hk.
      rewrite same_key_refl in Hk. discriminate. }
    apply StronglySorted_inv in H1 as [H1 Hx]. apply StronglySorted_inv in H2 as [H2 Hy].
    rewrite Forall_forall in Hx, Hy.
    assert (E : x = y).
    { pose proof (Hk (key x)) as Kx. pose proof (Hk (key y)) as Ky.
      cbn [List.filter] in Kx, Ky. rewrite same_key_refl in Kx, Ky.
      destruct (same_key key leb (key x) y) eqn:Exy; [congruence|].
      destruct (same_key key leb (key y) x) eqn:Eyx; [congruence|].
      assert (Hxin : In x t2).
      { apply (filter_In (same_key key leb (key x)) x t2). rewrite <- Kx. simpl. auto. }
      assert (Hyin : In y t1).
      { apply (filter_In (same_key key leb (key y)) y t1). rewrite Ky. simpl. auto. }
      apply list_elem_of_In in Hxin, Hyin.
      pose proof (Hx y Hyin) as L1. pose proof (Hy x Hxin) as L2.
      unfold key_le in L1, L2. unfold same_key in Exy.
      rewrite L1, L2 in Exy. discriminate. }
    subst y. f_equal. apply IH; [assumption|assumption|].
    intros k. specialize (Hk k). cbn [List.filter] in Hk.
    destruct (same_key key leb k x); congruence.
Qed.

(** [insertion_sort] returns exactly what the built-in [sorted] returns,
    element for element. *)
Theorem insertion_sort_eq_sorted (fuel : nat) (array : list A) :
  (length array < fuel)%nat →
  insertion_sort key ord fuel array = sorted key ord array.
Proof.
  intros Hfuel.
  destruct (insertion_sort_total key ord leb Hord fuel array Hfuel)
    as (a1 & R1 & _ & S1).
  destruct (sorted_spec key ord leb (total_order_comparable _ _ Hord) array)
    as (a2 & R2 & _ & S2).
  rewrite R1, R2. f_equal. apply stable_sorted_unique; [assumption|auto|].
  intros k. rewrite (sorted_stable array a2 k R2).
  apply (insertion_for_stable (length array) fuel [] array a1 eq_refl Hfuel R1).
Qed.

(** An array already in non-decreasing key order is left as it is by
    [insertion_sort]. *)
Theorem insertion_sort_sorted_input (fuel : nat) (array : list A) :
  key_sorted key leb array → (length array < fuel)%nat →
  insertion_sort key ord fuel array = Ok array.
Proof.
  intros Hs Hfuel.
  destruct (insertion_sort_total key ord leb Hord fuel array Hfuel)
    as (a1 & R1 & _ & S1).
  rewrite R1. f_equal. apply stable_sorted_unique; [assumption|assumption|].
  apply (insertion_for_stable (length array) fuel [] array a1 eq_refl Hfuel R1).
Qed.

End Stable.

End SortMore.

(** ** The checks of the test harness *)

Module ChecksFacts.

Import Sort SortChecks ArrayFacts PartitionFacts SortFacts InsertionFacts PivotFacts
       SortTheorems SortMore.

Section Checks.
Context {A K : Type}.
Variable key : A → K.
Variable ord : Ordering K.
Variable leb : K → K → bool.
Hypothesis Hord : total_order ord leb.

Lemma key_lt_trans (x y z : A) :
  key_lt key leb x y → key_lt key leb y z → key_lt key leb x z.
Proof.
  unfold key_lt. intros H1 H2.
  destruct (leb (key z) (key x)) eqn:E; [|reflexivity].
  destruct (leb_total _ _ Hord (key x) (key y)) as [L|L]; [|congruence].
  rewrite (leb_trans _ _ Hord _ _ _ E L) in H2. discriminate.
Qed.

Lemma check_sorted_loop_spec : ∀ (rest : list A) (i : Z) (x : A),
  (check_sorted_loop key ord rest i (key x) = Ok Passed ∧
   StronglySorted (key_lt key leb) (x :: rest)) ∨
  (∃ j, i <= j ∧ check_sorted_loop key ord rest i (key x) = Ok (OrderingError j) ∧
        ¬ StronglySorted (key_lt key leb) (x :: rest)).
Proof.
  induction rest as [|y rest IH]; intros i x; cbn [check_sorted_loop].
  - left. split; [reflexivity|]. repeat constructor.
  - rewrite (lt_leb _ _ Hord). cbn [bind].
    destruct (leb (key y) (key x)) eqn:E; cbn [negb].
    + right. exists i. split; [lia|]. split; [reflexivity|].
      intros H. apply StronglySorted_inv in H as [_ H].
      apply Forall_cons in H as [H _]. unfold key_lt in H. congruence.
    + destruct (IH (i + 1) y) as [[Hrun Hs]|(j & Hj & Hrun & Hs)].
      * left. split; [exact Hrun|]. constructor; [exact Hs|].
        constructor; [exact E|].
        apply StronglySorted_inv in Hs as [_ Hy].
        eapply Forall_impl; [exact Hy|]. intros z Hz.
        apply (key_lt_trans x y z); assumption.
      * right. exists j. split; [lia|]. split; [exact Hrun|].
        intros H. apply Hs. apply StronglySorted_inv in H as [H _]. exact H.
Qed.

Lemma check_sorted_array_cases (array : list A) :
  (array = [] → check_sorted_array key ord array = Raise IndexError) ∧
  (check_sorted_array key ord array = Ok Passed ↔
   array ≠ [] ∧ StronglySorted (key_lt key leb) array) ∧
  (array ≠ [] → ¬ StronglySorted (key_lt key leb) array →
   ∃ i, check_sorted_array key ord array = Ok (OrderingError i)).
Proof.
  unfold check_sorted_array. destruct array as [|x rest].
  - rewrite getitem_empty. cbn [bind]. split; [reflexivity|]. split.
    + split; [discriminate|]. intros [H _]. congruence.
    + congruence.
  - rewrite (getitem_inrange (x :: rest) 0 x) by (reflexivity || lia).
    cbn [bind]. change (drop 1 (x :: rest)) with rest. split; [discriminate|].
    destruct (check_sorted_loop_spec rest 1 x) as [[Hrun Hs]|(j & _ & Hrun & Hs)];
      rewrite Hrun.
    + split; [|tauto]. split; [intros _; split; [discriminate|exact Hs]|reflexivity].
    + split; [|eauto]. split; [discriminate|]. intros [_ H]. tauto.
Qed.

(** [check_sorted_array] raises [IndexError] on an empty array; on any
    other array it passes exactly when the keys are strictly increasing,
    and otherwise its assertion fails: equal neighbours are an ordering
    error. *)
Theorem check_sorted_array_strict (array : list A) :
  (array = [] → check_sorted_array key ord array = Raise IndexError) ∧
  (check_sorted_array key ord array = Ok Passed ↔
   array ≠ [] ∧ StronglySorted (key_lt key leb) array) ∧
  (array ≠ [] → ¬ StronglySorted (key_lt key leb) array →
   ∃ i, check_sorted_array key ord array = Ok (OrderingError i)).
Proof. apply check_sorted_array_cases. Qed.

End Checks.

Lemma contents_loop_spec : ∀ (array expected : list N) (i : Z),
  length array = length expected →
  contents_loop (zip array expected) i = Passed ↔ array = expected.
Proof.
  induction array as [|x array IH]; intros [|y expected] i Hlen; try discriminate.
  - split; reflexivity.
  - simpl. destruct (N.eqb_spec x y) as [->|Hne].
    + rewrite (IH expected (i + 1)) by (simpl in Hlen; lia).
      split; [intros ->; reflexivity|intros H; injection H; auto].
    + split; [discriminate|]. intros H. injection H as H _. contradiction.
Qed.

Lemma contents_loop_size : ∀ (pairs : list (N * N)) (i : Z),
  contents_loop pairs i ≠ WrongSize.
Proof.
  induction pairs as [|[x y] pairs IH]; intros i; simpl; [discriminate|].
  destruct (x =? y)%N; [apply IH|discriminate].
Qed.

Lemma check_array_contents_cases (array expected : list N) :
  (check_array_contents array expected = Passed ↔ array = expected) ∧
  (check_array_contents array expected = WrongSize ↔ length array ≠ length expected).
Proof.
  unfold check_array_contents.
  destruct (Nat.eqb_spec (length array) (length expected)) as [E|E].
  - split; [apply contents_loop_spec; exact E|].
    split; [|contradiction].
    intros H. exfalso. exact (contents_loop_size _ _ H).
  - split; [|tauto]. split; [discriminate|]. intros ->. contradiction.
Qed.

(** [check_array_contents] passes exactly when the array equals the
    expected list, and fails on the size exactly when the lengths
    differ. *)
Theorem check_array_contents_equal (array expected : list N) :
  (check_array_contents array expected = Passed ↔ array = expected) ∧
  (check_array_contents array expected = WrongSize ↔ length array ≠ length expected).
Proof. apply check_array_contents_cases. Qed.

Lemma int_ord_total_order : total_order int_ord N.leb.
Proof.
  split; simpl; intros.
  - f_equal. apply N.ltb_antisym.
  - f_equal. apply N.ltb_antisym.
  - reflexivity.
  - reflexivity.
  - rewrite !N.leb_le. lia.
  - rewrite N.leb_le in *. lia.
  - rewrite N.leb_le in *. lia.
Qed.

Lemma sorted_NoDup_strict : ∀ l : list N,
  key_sorted id N.leb l → NoDup l → StronglySorted (key_lt id N.leb) l.
Proof.
  induction 1 as [|x l Hs IH Hx]; intros Hnd; [constructor|].
  apply NoDup_cons in Hnd as [Hnotin Hnd]. constructor; [auto|].
  apply Forall_forall. intros y Hy. rewrite Forall_forall in Hx.
  specialize (Hx y Hy). unfold key_le, key_lt, id in *.
  assert (x ≠ y) by (intros ->; apply Hnotin; exact Hy).
  apply N.leb_le in Hx. apply N.leb_gt. lia.
Qed.

Lemma strict_NoDup : ∀ l : list N, StronglySorted (key_lt id N.leb) l → NoDup l.
Proof.
  induction 1 as [|x l Hs IH Hx]; constructor; [|assumption].
  intros Hin. rewrite Forall_forall in Hx.
  specialize (Hx x Hin). unfold key_lt, id in Hx. apply N.leb_gt in Hx. lia.
Qed.

(** The harness body for any sort that returns a sorted permutation. *)
Lemma test_body_sorting (sort : list N → res (list N)) (numbers sorted_numbers : list N) :
  numbers ≠ [] → sort numbers = Ok sorted_numbers →
  Permutation numbers sorted_numbers → key_sorted id N.leb sorted_numbers →
  (NoDup numbers → test_body sort numbers = Ok Passed) ∧
  (¬ NoDup numbers → ∃ i, test_body sort numbers = Ok (OrderingError i)).
Proof.
  intros Hne Hrun Hperm Hs. unfold test_body.
  destruct (sorted_spec id int_ord N.leb (total_order_comparable _ _ int_ord_total_order)
              numbers) as (expected & -> & Hpe & Hse).
  cbn [bind]. rewrite Hrun. cbn [bind].
  assert (Hne' : sorted_numbers ≠ []).
  { intros ->. symmetry in Hperm. apply Permutation_nil in Hperm. contradiction. }
  destruct (check_sorted_array_cases id int_ord N.leb int_ord_total_order sorted_numbers)
    as (_ & Hpass & Hfail).
  split.
  - intros Hnd.
    assert (Hst : StronglySorted (key_lt id N.leb) sorted_numbers).
    { apply sorted_NoDup_strict; [assumption|]. rewrite <- Hperm. exact Hnd. }
    rewrite (proj2 Hpass (conj Hne' Hst)). cbn [bind]. f_equal.
    apply check_array_contents_cases.
    rewrite <- (map_id sorted_numbers), <- (map_id expected).
    apply (sorted_keys_unique int_ord N.leb int_ord_total_order).
    + rewrite !map_id. rewrite <- Hperm. exact Hpe.
    + apply (key_sorted_map id N.leb). exact Hs.
    + apply (key_sorted_map id N.leb). apply Hse. exact int_ord_total_order.
  - intros Hnd.
    destruct (Hfail Hne') as [i Hi].
    { intros Hst. apply Hnd. rewrite Hperm. apply strict_NoDup. exact Hst. }
    exists i. rewrite Hi. reflexivity.
Qed.

(** A sort that raises ends the round with what it raised. *)
Lemma test_body_raises (sort : list N → res (list N)) (numbers : list N) (e : exn) :
  sort numbers = Raise e → test_body sort numbers = Raise e.
Proof.
  intros Hrun. unfold test_body.
  destruct (sorted_spec id int_ord N.leb (total_order_comparable _ _ int_ord_total_order)
              numbers) as (expected & -> & _).
  cbn [bind]. rewrite Hrun. reflexivity.
Qed.

Lemma test_body_both (depth fuel : nat) (numbers : list N)
    (pivotselector : list N → Z → Z → res (option Z)) (cutoff : Z) :
  numbers ≠ [] → pivot_inrange pivotselector → (length numbers < fuel)%nat →
  (NoDup numbers →
   (test_body (fun a => quicksort id int_ord depth fuel a pivotselector cutoff) numbers
      = Ok Passed ∨
    (test_body (fun a => quicksort id int_ord depth fuel a pivotselector cutoff) numbers
       = Raise RecursionError ∧ (depth <= length numbers)%nat)) ∧
   test_body (insertion_sort id int_ord fuel) numbers = Ok Passed) ∧
  (¬ NoDup numbers →
   ((∃ i, test_body (fun a => quicksort id int_ord depth fuel a pivotselector cutoff)
            numbers = Ok (OrderingError i)) ∨
    (test_body (fun a => quicksort id int_ord depth fuel a pivotselector cutoff) numbers
       = Raise RecursionError ∧ (depth <= length numbers)%nat)) ∧
   (∃ i, test_body (insertion_sort id int_ord fuel) numbers = Ok (OrderingError i))).
Proof.
  intros Hne Hsel Hfuel.
  destruct (insertion_sort_total id int_ord N.leb int_ord_total_order fuel numbers Hfuel)
    as (s & Rs & Ps & Ss).
  destruct (test_body_sorting (insertion_sort id int_ord fuel) numbers s Hne Rs Ps Ss)
    as [S1 S2].
  destruct (quicksort_total id int_ord N.leb
              (total_order_comparable _ _ int_ord_total_order) depth fuel numbers
              pivotselector cutoff Hsel Hfuel) as [(q & Rq & Pq & Sq)|[Rq Hd]].
  - destruct (test_body_sorting
                (fun a => quicksort id int_ord depth fuel a pivotselector cutoff)
                numbers q Hne Rq Pq (Sq int_ord_total_order)) as [Q1 Q2].
    split; intros H; split; auto.
  - pose proof (test_body_raises
                  (fun a => quicksort id int_ord depth fuel a pivotselector cutoff)
                  numbers RecursionError Rq) as Hr.
    split; intros H; split; auto.
Qed.

(** One round of [test_sorting_algorithm]: on a non-empty array of
    integers without duplicates, [quicksort] (any cutoff, any pivot
    strategy that returns an index of its subrange) and [insertion_sort]
    pass both checks; on an array with a duplicate the ordering check
    fails, because it demands strictly increasing keys.  With
    [quicksort] the round can also end in [RecursionError], when the
    array is at least as long as the recursion depth the interpreter
    admits. *)
Theorem test_body_outcome (depth fuel : nat) (numbers : list N)
    (pivotselector : list N → Z → Z → res (option Z)) (cutoff : Z) :
  numbers ≠ [] → pivot_inrange pivotselector → (length numbers < fuel)%nat →
  (NoDup numbers →
   (test_body (fun a => quicksort id int_ord depth fuel a pivotselector cutoff) numbers
      = Ok Passed ∨
    (test_body (fun a => quicksort id int_ord depth fuel a pivotselector cutoff) numbers
       = Raise RecursionError ∧ (depth <= length numbers)%nat)) ∧
   test_body (insertion_sort id int_ord fuel) numbers = Ok Passed) ∧
  (¬ NoDup numbers →
   ((∃ i, test_body (fun a => quicksort id int_ord depth fuel a pivotselector cutoff)
            numbers = Ok (OrderingError i)) ∨
    (test_body (fun a => quicksort id int_ord depth fuel a pivotselector cutoff) numbers
       = Raise RecursionError ∧ (depth <= length numbers)%nat)) ∧
   (∃ i, test_body (insertion_sort id int_ord fuel) numbers = Ok (OrderingError i))).
Proof. apply test_body_both. Qed.


Lemma append_range_spec : ∀ (n : nat) (file : list N) (i : N),
  (i + N.of_nat n <= 2 ^ 32)%N →
  append_range file i n = Ok (file ++ map N.of_nat (seq (N.to_nat i) n)).
Proof.
  induction n as [|n IH]; intros file i Hb; cbn [append_range seq map].
  - rewrite app_nil_r. reflexivity.
  - unfold append, elemsize.
    destruct (N.ltb_spec i (2 ^ (8 * 4))) as [_|Hge];
      [|change (2 ^ (8 * 4))%N with (2 ^ 32)%N in Hge; lia].
    cbn [bind]. rewrite IH by lia. rewrite <- app_assoc. simpl.
    rewrite N2Nat.id. replace (N.to_nat (i + 1)) with (S (N.to_nat i)) by lia.
    reflexivity.
Qed.

Lemma shuffle_loop_spec (coin : Z → bool) (randrange : Z → Z → Z) (size : Z) :
  (∀ i, 0 <= i < size → i <= randrange i size < size) →
  ∀ (n : nat) (numbers : list N) (index : Z),
    Z.of_nat (length numbers) = size → 0 <= index → index + Z.of_nat n = size →
    ∃ r, shuffle_loop coin randrange numbers index size n = Ok r ∧
         Permutation numbers r ∧
         ((∀ i, coin i = false) → r = numbers).
Proof.
  intros Hr. induction n as [|n IH]; intros numbers index Hlen Hi Hn;
    cbn [shuffle_loop].
  - exists numbers. auto.
  - destruct (coin index) eqn:Ec.
    + specialize (Hr index ltac:(lia)).
      destruct (lookup_lt_is_Some_2 numbers (Z.to_nat index)) as [x Hx]; [lia|].
      destruct (lookup_lt_is_Some_2 numbers (Z.to_nat (randrange index size)))
        as [y Hy]; [lia|].
      destruct (swap_spec numbers index (randrange index size) x y)
        as (a1 & -> & Hlen1 & Hperm1 & _); try lia; try assumption.
      cbn [bind].
      destruct (IH a1 (index + 1)) as (r & -> & Hperm & _); try lia.
      exists r. split; [reflexivity|]. split; [etransitivity; eassumption|].
      intros Hc. rewrite Hc in Ec. discriminate.
    + cbn [bind]. destruct (IH numbers (index + 1)) as (r & -> & Hperm & Hid); try lia.
      exists r. auto.
Qed.

Lemma create_shuffled_spec (coin : Z → bool)
    (randrange : Z → Z → Z) (size : Z) :
  (size <= 0 → create_partially_shuffled_array coin randrange size = Raise ValueError) ∧
  (1 <= size <= 2 ^ 32 →
   (∀ i, 0 <= i < size → i <= randrange i size < size) →
   ∃ numbers,
     create_partially_shuffled_array coin randrange size = Ok numbers ∧
     Permutation (map N.of_nat (seq 0 (Z.to_nat size))) numbers ∧
     ((∀ i, coin i = false) → numbers = map N.of_nat (seq 0 (Z.to_nat size)))).
Proof.
  unfold create_partially_shuffled_array. split.
  - intros Hs. replace (Z.to_nat size) with 0%nat by lia. reflexivity.
  - intros Hs Hr.
    rewrite (append_range_spec (Z.to_nat size) [] 0%N) by lia.
    cbn [bind app]. change (N.to_nat 0) with 0%nat.
    set (l := map N.of_nat (seq 0 (Z.to_nat size))).
    assert (Hlen : length l = Z.to_nat size)
      by (unfold l; rewrite length_map, length_seq; reflexivity).
    assert (Hopen : DiskIntArray l = Ok l).
    { destruct l; [simpl in Hlen; lia|reflexivity]. }
    rewrite Hopen. cbn [bind].
    apply (shuffle_loop_spec coin randrange size Hr); lia.
Qed.

(** [create_partially_shuffled_array] writes a permutation of the
    integers [0 .. size-1], whatever the random source answers, and the
    sorted sequence itself when no round swaps; a size of zero or less
    leaves an empty file, which cannot be mapped. *)
Theorem create_partially_shuffled_array_permutation (coin : Z → bool)
    (randrange : Z → Z → Z) (size : Z) :
  (size <= 0 → create_partially_shuffled_array coin randrange size = Raise ValueError) ∧
  (1 <= size <= 2 ^ 32 →
   (∀ i, 0 <= i < size → i <= randrange i size < size) →
   ∃ numbers,
     create_partially_shuffled_array coin randrange size = Ok numbers ∧
     Permutation (map N.of_nat (seq 0 (Z.to_nat size))) numbers ∧
     ((∀ i, coin i = false) → numbers = map N.of_nat (seq 0 (Z.to_nat size)))).
Proof. apply create_shuffled_spec. Qed.

Lemma create_partially_shuffled_array_permutation_witness :
  ∃ numbers,
    create_partially_shuffled_array (fun _ => true) (fun lo hi => hi - 1) 3 = Ok numbers ∧
    Permutation (map N.of_nat (seq 0 (Z.to_nat 3))) numbers ∧
    ((∀ i : Z, (fun _ : Z => true) i = false) →
     numbers = map N.of_nat (seq 0 (Z.to_nat 3))).
Proof.
  apply (proj2 (create_partially_shuffled_array_permutation
                  (fun _ => true) (fun lo hi => hi - 1) 3)).
  - lia.
  - intros i Hi. lia.
Defined.

Lemma test_body_outcome_witness :
  (NoDup [3; 1; 2]%N →
   (test_body (fun a => quicksort id int_ord 4 4 a take_first_pivot 0) [3; 1; 2]%N
      = Ok Passed ∨
    (test_body (fun a => quicksort id int_ord 4 4 a take_first_pivot 0) [3; 1; 2]%N
       = Raise RecursionError ∧ (4 <= length [3; 1; 2]%N)%nat)) ∧
   test_body (insertion_sort id int_ord 4) [3; 1; 2]%N = Ok Passed) ∧
  (¬ NoDup [3; 1; 2]%N →
   ((∃ i, test_body (fun a => quicksort id int_ord 4 4 a take_first_pivot 0) [3; 1; 2]%N
          = Ok (OrderingError i)) ∨
    (test_body (fun a => quicksort id int_ord 4 4 a take_first_pivot 0) [3; 1; 2]%N
       = Raise RecursionError ∧ (4 <= length [3; 1; 2]%N)%nat)) ∧
   (∃ i, test_body (insertion_sort id int_ord 4) [3; 1; 2]%N = Ok (OrderingError i))).
Proof.
  apply (test_body_outcome 4 4 [3; 1; 2]%N take_first_pivot 0).
  - discriminate.
  - apply take_first_pivot_inrange.
  - simpl. lia.
Defined.

End ChecksFacts.

(** ** The query *)

Module QueryFacts.

Import BuildIndex SearchIndex SearchQuery BytesFacts ArrayFacts SearchFacts.

Lemma search_loop_bounds (search_key : list byte) (index : list N) (text : list byte) :
  ∀ (fuel : nat) (low high : Z),
    0 <= low <= high → high < Z.of_nat (length index) →
    (Z.to_nat (high - low) < fuel)%nat →
    ∃ low' high',
      search_loop fuel search_key index text low high = Ok (low', high') ∧
      0 <= low' <= high' ∧ high' < Z.of_nat (length index).
Proof.
  induction fuel as [|fuel IH]; intros low high Hlh Hhi Hfuel; [lia|].
  cbn [search_loop].
  destruct (Z.ltb_spec 1 (high - low)) as [Hgap|Hgap].
  - assert (Hmid : low < (low + high) / 2 < high).
    { pose proof (Z.div_mod (low + high) 2 ltac:(lia)) as Hd.
      pose proof (Z.mod_pos_bound (low + high) 2 ltac:(lia)) as Hm. lia. }
    set (mid := (low + high) / 2) in *.
    destruct (lookup_lt_is_Some_2 index (Z.to_nat mid)) as [ptr Hptr]; [lia|].
    rewrite (getitem_inrange index mid ptr) by (assumption || lia).
    cbn [bind].
    destruct (bytes_gtb search_key _); apply IH; lia.
  - exists low, high. split; [reflexivity|]. lia.
Qed.

(** Whatever the order of the index, [binary_search_first] on a
    non-empty index returns either [-1] or a position of the index whose
    text, truncated to the key's length, equals the key. *)
Theorem binary_search_first_sound (fuel : nat) (search_key : list byte)
    (index : list N) (text : list byte) :
  index ≠ [] → (length index <= fuel)%nat →
  ∃ r, binary_search_first fuel search_key index text = Ok r ∧
       (r = -1 ∨
        (0 <= r < Z.of_nat (length index) ∧
         matches text search_key index (Z.to_nat r))).
Proof.
  intros Hne Hfuel. unfold binary_search_first.
  assert (Hlen : (0 < length index)%nat) by (destruct index; simpl; [congruence|lia]).
  destruct (search_loop_bounds search_key index text fuel 0 (Z.of_nat (length index) - 1))
    as (low & high & -> & Hlh & Hhi); try lia.
  cbn [bind].
  destruct (lookup_lt_is_Some_2 index (Z.to_nat low)) as [plow Hplow]; [lia|].
  destruct (lookup_lt_is_Some_2 index (Z.to_nat high)) as [phigh Hphigh]; [lia|].
  rewrite (getitem_inrange index low plow) by (assumption || lia). cbn [bind].
  fold (truncated text search_key plow).
  destruct (bytes_eqb search_key (truncated text search_key plow)) eqn:Elow.
  - apply bytes_eqb_eq in Elow. exists low. split; [reflexivity|]. right.
    split; [lia|]. exists plow. split; [assumption|congruence].
  - rewrite (getitem_inrange index high phigh) by (assumption || lia). cbn [bind].
    fold (truncated text search_key phigh).
    destruct (bytes_eqb search_key (truncated text search_key phigh)) eqn:Ehigh.
    + apply bytes_eqb_eq in Ehigh. exists high. split; [reflexivity|]. right.
      split; [lia|]. exists phigh. split; [assumption|congruence].
    + exists (-1). split; [reflexivity|]. left. reflexivity.
Qed.

Lemma binary_search_first_sound_witness :
  ∃ r, binary_search_first 2 [x61]%byte [0; 2]%N text_b_a = Ok r ∧
       (r = -1 ∨
        (0 <= r < Z.of_nat (length [0; 2]%N) ∧
         matches text_b_a [x61]%byte [0; 2]%N (Z.to_nat r))).
Proof.
  apply (binary_search_first_sound 2 [x61]%byte [0; 2]%N text_b_a).
  - discriminate.
  - simpl. lia.
Defined.

(** The least matching position, restated for use below. *)
Lemma binary_search_first_least (fuel : nat) (search_key : list byte)
    (index : list N) (text : list byte) :
  index ≠ [] → suffix_sorted text index → (length index <= fuel)%nat →
  ∃ r, binary_search_first fuel search_key index text = Ok r ∧
       ((∃ i, matches text search_key index i) →
          0 <= r ∧ matches text search_key index (Z.to_nat r) ∧
          ∀ i, matches text search_key index i → r <= Z.of_nat i) ∧
       ((∀ i, ¬ matches text search_key index i) → r = -1).
Proof.
  intros Hne Hsorted Hfuel. unfold binary_search_first.
  assert (Hlen : (0 < length index)%nat) by (destruct index; simpl; [congruence|lia]).
  destruct (search_loop_spec text search_key index Hsorted fuel 0
              (Z.of_nat (length index) - 1))
    as (low & high & -> & Hlh & Hhi & Hgap & Hb & Hbd); try lia.
  { intros i p Hi. lia. }
  { left. reflexivity. }
  cbn [bind].
  destruct (lookup_lt_is_Some_2 index (Z.to_nat low)) as [plow Hplow]; [lia|].
  destruct (lookup_lt_is_Some_2 index (Z.to_nat high)) as [phigh Hphigh]; [lia|].
  rewrite (getitem_inrange index low plow) by (assumption || lia).
  cbn [bind]. fold (truncated text search_key plow).
  (* no position left of [low] matches *)
  assert (Hleast : ∀ i, matches text search_key index i → low <= Z.of_nat i).
  { intros i (p & Hp & Hm).
    destruct (Z.lt_ge_cases (Z.of_nat i) low) as [Hlt|]; [|assumption].
    specialize (Hb i p Hlt Hp). rewrite Hm in Hb.
    unfold bytes_gtb in Hb. rewrite bytes_compare_refl in Hb. discriminate. }
  (* a match right of [high] makes [high] a match *)
  assert (Hup : ∀ i, matches text search_key index i → high < Z.of_nat i →
                truncated text search_key phigh = search_key).
  { intros i (p & Hp & Hm) Hi.
    destruct Hbd as [->|(p' & Hp' & Hc)].
    - apply lookup_lt_Some in Hp. lia.
    - assert (p' = phigh) by congruence. subst p'.
      rewrite bytes_gtb_leb in Hc. apply negb_false_iff in Hc.
      pose proof (truncated_mono text search_key index (Z.to_nat high) i phigh p
                    Hsorted ltac:(lia) Hphigh Hp) as Hle.
      rewrite Hm in Hle. apply bytes_leb_antisym; assumption. }
  destruct (bytes_eqb search_key (truncated text search_key plow)) eqn:Elow.
  - apply bytes_eqb_eq in Elow. exists low. split; [reflexivity|]. split.
    + intros _. split; [lia|]. split; [|exact Hleast].
      exists plow. split; [assumption|congruence].
    + intros Hnone. exfalso. apply (Hnone (Z.to_nat low)).
      exists plow. split; [assumption|congruence].
  - assert (Hnlow : truncated text search_key plow ≠ search_key).
    { intros E. symmetry in E. apply bytes_eqb_eq in E. congruence. }
    rewrite (getitem_inrange index high phigh) by (assumption || lia).
    cbn [bind]. fold (truncated text search_key phigh).
    destruct (bytes_eqb search_key (truncated text search_key phigh)) eqn:Ehigh.
    + apply bytes_eqb_eq in Ehigh. exists high. split; [reflexivity|]. split.
      * intros _. split; [lia|]. split.
        -- exists phigh. split; [assumption|congruence].
        -- intros i Hi. pose proof (Hleast i Hi) as Hl.
           destruct (Z.eq_dec (Z.of_nat i) low) as [E|E]; [|lia].
           destruct Hi as (p & Hp & Hm). exfalso. apply Hnlow.
           replace (Z.to_nat low) with i in Hplow by lia. congruence.
      * intros Hnone. exfalso. apply (Hnone (Z.to_nat high)).
        exists phigh. split; [assumption|congruence].
    + assert (Hnhigh : truncated text search_key phigh ≠ search_key).
      { intros E. symmetry in E. apply bytes_eqb_eq in E. congruence. }
      exists (-1). split; [reflexivity|]. split; [|reflexivity].
      intros (i & Hi). exfalso.
      pose proof (Hleast i Hi) as Hl.
      destruct (Z.lt_ge_cases high (Z.of_nat i)) as [Hgt|Hle].
      * apply Hnhigh. apply (Hup i); assumption.
      * destruct Hi as (p & Hp & Hm).
        destruct (Z.eq_dec (Z.of_nat i) low) as [E|E].
        -- apply Hnlow. replace (Z.to_nat low) with i in Hplow by lia. congruence.
        -- apply Hnhigh. replace (Z.to_nat high) with i in Hphigh by lia. congruence.
Qed.

Lemma matchb_true (text search_key : list byte) (p : N) :
  matchb text search_key p = true ↔ truncated text search_key p = search_key.
Proof. unfold matchb. apply bytes_eqb_eq. Qed.

Lemma filter_none {X} (f : X → bool) (l : list X) :
  (∀ x, In x l → f x = false) → List.filter f l = [].
Proof.
  induction l as [|x l IH]; intros H; [reflexivity|]. simpl.
  rewrite (H x) by (simpl; auto). apply IH. intros; apply H; simpl; auto.
Qed.

(** When the matching elements of a list form an initial part of it,
    filtering commutes with truncation. *)
Lemma filter_take_prefix {X} (f : X → bool) : ∀ (l : list X) (n : nat),
  (∀ (i j : nat) (x y : X), (i < j)%nat → l !! i = Some x → l !! j = Some y →
     f y = true → f x = true) →
  List.filter f (take n l) = take n (List.filter f l).
Proof.
  induction l as [|x l IH]; intros n Hc.
  - rewrite take_nil. simpl. rewrite take_nil. reflexivity.
  - destruct n as [|n]; [reflexivity|]. simpl.
    destruct (f x) eqn:Ex.
    + simpl. f_equal. apply IH. intros i j a b Hij Ha Hb.
      apply (Hc (S i) (S j)); [lia|exact Ha|exact Hb].
    + assert (Hnone : ∀ y, In y l → f y = false).
      { intros y Hy. apply list_elem_of_In, list_elem_of_lookup in Hy as [j Hj].
        destruct (f y) eqn:Ey; [|reflexivity].
        rewrite (Hc 0%nat (S j) x y) in Ex; [discriminate|lia|reflexivity|exact Hj|exact Ey]. }
      rewrite (filter_none f l Hnone), take_nil.
      apply filter_none. intros y Hy. apply Hnone.
      apply list_elem_of_In in Hy. apply list_elem_of_In.
      apply (subseteq_take n l). exact Hy.
Qed.


Lemma classic_match (text search_key : list byte) (index : list N) :
  (∃ i, matches text search_key index i) ∨ (∀ i, ¬ matches text search_key index i).
Proof.
  destruct (List.existsb (matchb text search_key) index) eqn:E.
  - left. apply existsb_exists in E as (p & Hp & Hm).
    apply list_elem_of_In, list_elem_of_lookup in Hp as [i Hi].
    exists i, p. split; [assumption|]. apply matchb_true. exact Hm.
  - right. intros i (p & Hp & Hm).
    assert (Ex : List.existsb (matchb text search_key) index = true).
    { apply existsb_exists. exists p. split.
      - apply list_elem_of_In, list_elem_of_lookup. eauto.
      - apply matchb_true. exact Hm. }
    congruence.
Qed.

Section Query.
Variables (text search_key : list byte) (index : list N).

Lemma search_for_spec (start num_matches : Z) :
  ∀ (n : nat) (i : Z) (out : list (N * N)),
    0 <= i → Z.of_nat n = Z.of_nat (length index) - i →
    search_for n i start num_matches search_key index text out
    = Ok (out ++ map (call_of search_key)
            (List.filter (matchb text search_key)
               (take (Z.to_nat (num_matches - (i - start))) (drop (Z.to_nat i) index)))).
Proof.
  induction n as [|n IH]; intros i out Hi Hn; cbn [search_for].
  - rewrite drop_ge by lia. rewrite take_nil. simpl. rewrite app_nil_r. reflexivity.
  - destruct (Z.leb_spec num_matches (i - start)) as [Hle|Hgt].
    + replace (Z.to_nat (num_matches - (i - start))) with 0%nat by lia.
      simpl. rewrite app_nil_r. reflexivity.
    + destruct (lookup_lt_is_Some_2 index (Z.to_nat i)) as [p Hp]; [lia|].
      rewrite (getitem_inrange index i p) by assumption. cbn [bind].
      rewrite IH by lia.
      rewrite (drop_S index p (Z.to_nat i) Hp).
      replace (Z.to_nat (num_matches - (i - start)))
        with (S (Z.to_nat (num_matches - (i + 1 - start)))) by lia.
      replace (Z.to_nat (i + 1)) with (S (Z.to_nat i)) by lia.
      cbn [take List.filter]. fold (truncated text search_key p).
      fold (matchb text search_key p).
      destruct (matchb text search_key p); [|reflexivity].
      rewrite <- app_assoc. reflexivity.
Qed.

End Query.

Lemma search_suffix_array_spec (fuel : nat) (textfile : list byte)
    (indexfile : list N) (search_key : list byte) (num_matches : Z) :
  textfile ≠ [] → indexfile ≠ [] → suffix_sorted textfile indexfile →
  (length indexfile <= fuel)%nat →
  search_suffix_array fuel textfile indexfile search_key num_matches
  = Ok (map (call_of search_key)
          (take (Z.to_nat num_matches)
             (List.filter (matchb textfile search_key) indexfile))).
Proof.
  intros Ht Hi Hsorted Hfuel. unfold search_suffix_array.
  assert (Et : DiskBytesArray textfile = Ok textfile)
    by (destruct textfile; [congruence|reflexivity]).
  assert (Ei : DiskIntArray indexfile = Ok indexfile)
    by (destruct indexfile; [congruence|reflexivity]).
  rewrite Et, Ei. cbn [bind].
  destruct (binary_search_first_least fuel search_key indexfile textfile Hi Hsorted Hfuel)
    as (r & -> & Hsome & Hnone).
  cbn [bind].
  destruct (classic_match textfile search_key indexfile) as [Hex|Hno].
  - destruct (Hsome Hex) as (Hr & (pr & Hpr & Hmr) & Hleast).
    assert (Hrlen : (Z.to_nat r < length indexfile)%nat)
      by (apply lookup_lt_Some in Hpr; exact Hpr).
    rewrite search_for_spec by lia.
    replace (num_matches - (r - r)) with num_matches by lia.
    cbn [app]. f_equal. f_equal.
    rewrite filter_take_prefix.
    + f_equal. rewrite <- (take_drop (Z.to_nat r) indexfile) at 2.
      rewrite List.filter_app. rewrite (filter_none _ (take (Z.to_nat r) indexfile)).
      * reflexivity.
      * intros p Hp. apply list_elem_of_In, elem_of_take in Hp as (i & Hip & Hir).
        destruct (matchb textfile search_key p) eqn:E; [|reflexivity].
        apply matchb_true in E.
        specialize (Hleast i (ex_intro _ p (conj Hip E))). lia.
    + intros i j x y Hij Hx Hy Hm. rewrite lookup_drop in Hx, Hy.
      apply matchb_true in Hm. apply matchb_true.
      apply bytes_leb_antisym.
      * pose proof (truncated_mono textfile search_key indexfile
                      (Z.to_nat r + i) (Z.to_nat r + j) x y Hsorted ltac:(lia) Hx Hy) as L.
        rewrite Hm in L. exact L.
      * pose proof (truncated_mono textfile search_key indexfile
                      (Z.to_nat r) (Z.to_nat r + i) pr x Hsorted ltac:(lia) Hpr Hx) as L.
        rewrite Hmr in L. exact L.
  - rewrite (Hnone Hno).
    assert (Hf : ∀ p, In p indexfile → matchb textfile search_key p = false).
    { intros p Hp. apply list_elem_of_In, list_elem_of_lookup in Hp as [i Hip].
      destruct (matchb textfile search_key p) eqn:E; [|reflexivity].
      apply matchb_true in E. exfalso. apply (Hno i). exists p. split; assumption. }
    rewrite (filter_none _ indexfile Hf), take_nil. simpl map.
    assert (Hlen : (0 < length indexfile)%nat)
      by (destruct indexfile; simpl; [congruence|lia]).
    replace (Z.to_nat (Z.of_nat (length indexfile) - -1)) with (S (length indexfile))
      by lia.
    cbn [search_for].
    destruct (Z.leb_spec num_matches (-1 - -1)) as [_|Hgt]; [reflexivity|].
    destruct (getitem_last indexfile Hi) as (z & -> & Hz). cbn [bind].
    fold (truncated textfile search_key z). fold (matchb textfile search_key z).
    rewrite (Hf z Hz).
    rewrite search_for_spec by lia.
    rewrite filter_none; [reflexivity|].
    intros p Hp. apply Hf. apply list_elem_of_In in Hp. apply list_elem_of_In.
    apply (subseteq_take _ _) in Hp. apply (subseteq_drop _ _) in Hp. exact Hp.
Qed.

(** On a non-empty index sorted by exact suffix order,
    [search_suffix_array] hands to [print_keyword_in_context] the
    matching index entries in index order, cut off after [num_matches] of
    them; when nothing matches, or [num_matches] is zero or less, it
    prints nothing. *)
Theorem search_suffix_array_matches (fuel : nat) (textfile : list byte)
    (indexfile : list N) (search_key : list byte) (num_matches : Z) :
  textfile ≠ [] → indexfile ≠ [] → suffix_sorted textfile indexfile →
  (length indexfile <= fuel)%nat →
  search_suffix_array fuel textfile indexfile search_key num_matches
  = Ok (map (call_of search_key)
          (take (Z.to_nat num_matches)
             (List.filter (matchb textfile search_key) indexfile))).
Proof. apply search_suffix_array_spec. Qed.

Lemma search_suffix_array_matches_witness :
  search_suffix_array 2 text_b_a [2; 0]%N [x61]%byte 20
  = Ok (map (call_of [x61]%byte)
          (take (Z.to_nat 20) (List.filter (matchb text_b_a [x61]%byte) [2; 0]%N))).
Proof.
  apply (search_suffix_array_matches 2 text_b_a [2; 0]%N [x61]%byte 20).
  - discriminate.
  - discriminate.
  - intros i j p q Hij Hp Hq.
    destruct i as [|[|i]]; destruct j as [|[|j]]; simpl in Hp, Hq;
      try lia; try discriminate.
    injection Hp as <-. injection Hq as <-.
    right. apply bytes_compare_lt. reflexivity.
  - simpl. lia.
Defined.

Lemma clamp_index_inrange (n : nat) (i : Z) :
  0 <= i <= Z.of_nat n → clamp_index n i = i.
Proof.
  intros H. unfold clamp_index. destruct (Z.ltb_spec i 0); lia.
Qed.

(** The window [print_keyword_in_context] cuts out of the text: for a
    match at [start, end) and a context that is not negative, the three
    slices are adjacent pieces of the text, the match in the middle, with
    [context] bytes on each side or as many as the text has there. *)
Theorem context_slices_window (text : list byte) (start end_ context : Z) :
  0 <= start <= end_ → end_ <= Z.of_nat (length text) → 0 <= context →
  ∃ prefix found suffix,
    context_slices text start end_ context = (prefix, found, suffix) ∧
    prefix ++ found ++ suffix
    = slice text (Z.max 0 (start - context))
                 (Z.min (Z.of_nat (length text)) (end_ + context)) ∧
    found = slice text start end_ ∧
    Z.of_nat (length prefix) = Z.min start context ∧
    Z.of_nat (length found) = end_ - start ∧
    Z.of_nat (length suffix) = Z.min (Z.of_nat (length text) - end_) context.
Proof.
  intros Hs He Hc. unfold context_slices, py_slice.
  set (cs := Z.max 0 (start - context)).
  set (ce := Z.min (Z.of_nat (length text)) (end_ + context)).
  rewrite !clamp_index_inrange by lia.
  assert (Hcs : 0 <= cs <= start ∧ start - cs = Z.min start context) by lia.
  assert (Hce : end_ <= ce <= Z.of_nat (length text) ∧
                ce - end_ = Z.min (Z.of_nat (length text) - end_) context) by lia.
  clearbody cs ce.
  eexists _, _, _. split; [reflexivity|].
  split; [|split; [reflexivity|]].
  - unfold slice.
    replace (drop (Z.to_nat start) text)
      with (drop (Z.to_nat start - Z.to_nat cs) (drop (Z.to_nat cs) text))
      by (rewrite drop_drop; f_equal; lia).
    replace (drop (Z.to_nat end_) text)
      with (drop (Z.to_nat end_ - Z.to_nat start)
              (drop (Z.to_nat start - Z.to_nat cs) (drop (Z.to_nat cs) text)))
      by (rewrite !drop_drop; f_equal; lia).
    rewrite take_take_drop, take_take_drop. f_equal. lia.
  - destruct Hcs as [Hcs Hcs'], Hce as [Hce Hce'].
    repeat split; rewrite length_take_le by (rewrite length_drop; lia); lia.
Qed.

Lemma context_slices_window_witness :
  ∃ prefix found suffix,
    context_slices text_b_a 2 3 1 = (prefix, found, suffix) ∧
    prefix ++ found ++ suffix
    = slice text_b_a (Z.max 0 (2 - 1)) (Z.min (Z.of_nat (length text_b_a)) (3 + 1)) ∧
    found = slice text_b_a 2 3 ∧
    Z.of_nat (length prefix) = Z.min 2 1 ∧
    Z.of_nat (length found) = 3 - 2 ∧
    Z.of_nat (length suffix) = Z.min (Z.of_nat (length text_b_a) - 3) 1.
Proof.
  apply (context_slices_window text_b_a 2 3 1); simpl; lia.
Defined.

End QueryFacts.

(** ** The index file as bytes *)

Module IndexFileFacts.

Import IndexFile.

Lemma byte_of_N_to_N (n : N) : (n < 256)%N → Byte.to_N (byte_of_N n) = n.
Proof.
  intros H. unfold byte_of_N. destruct (Byte.of_N n) as [b|] eqn:E.
  - apply Byte.to_of_N. exact E.
  - apply Byte.of_N_None_iff in E. lia.
Qed.

Lemma to_bytes_unpack (order : byteorder) (value : N) :
  (value < 2 ^ 32)%N →
  ∃ b0 b1 b2 b3, to_bytes order value = Ok [b0; b1; b2; b3] ∧
                 unpack order b0 b1 b2 b3 = value.
Proof.
  intros Hv. unfold to_bytes, elemsize.
  destruct (N.ltb_spec value (2 ^ (8 * 4))) as [_|Hge];
    [|change (2 ^ (8 * 4))%N with (2 ^ 32)%N in Hge; lia].
  assert (E : ((value mod 256) + 256 * (((value / 256) mod 256)
               + 256 * (((value / 65536) mod 256)
               + 256 * ((value / 16777216) mod 256))) = value)%N).
  { change (2 ^ 32)%N with 4294967296%N in Hv.
    pose proof (N.div_mod value 256 ltac:(lia)) as D0.
    pose proof (N.div_mod (value / 256) 256 ltac:(lia)) as D1.
    pose proof (N.div_mod (value / 256 / 256) 256 ltac:(lia)) as D2.
    rewrite N.Div0.div_div in D1, D2. rewrite N.Div0.div_div in D2.
    change (256 * 256)%N with 65536%N in *.
    change (65536 * 256)%N with 16777216%N in *.
    assert (Hq : (value / 16777216 < 256)%N)
      by (apply N.Div0.div_lt_upper_bound; lia).
    rewrite (N.mod_small (value / 16777216) 256) by exact Hq.
    lia. }
  assert (M0 : (value mod 256 < 256)%N) by (apply N.mod_lt; lia).
  assert (M1 : ((value / 256) mod 256 < 256)%N) by (apply N.mod_lt; lia).
  assert (M2 : ((value / 65536) mod 256 < 256)%N) by (apply N.mod_lt; lia).
  assert (M3 : ((value / 16777216) mod 256 < 256)%N) by (apply N.mod_lt; lia).
  destruct order; eexists _, _, _, _; (split; [reflexivity|]);
    unfold unpack; rewrite !byte_of_N_to_N by assumption; exact E.
Qed.

Lemma cast_I_app (order : byteorder) : ∀ (vs : list N) (bs cs : list byte) (ws : list N),
  cast_I order bs = Ok vs → cast_I order cs = Ok ws →
  cast_I order (bs ++ cs) = Ok (vs ++ ws).
Proof.
  induction vs as [|v vs IH]; intros bs cs ws Hb Hc.
  - destruct bs as [|b0 [|b1 [|b2 [|b3 rest]]]]; cbn [cast_I] in Hb; try discriminate.
    + exact Hc.
    + destruct (cast_I order rest); discriminate.
  - destruct bs as [|b0 [|b1 [|b2 [|b3 rest]]]]; cbn [cast_I] in Hb; try discriminate.
    destruct (cast_I order rest) as [vs'|e] eqn:Er; cbn [bind] in Hb; [|discriminate].
    injection Hb as <- <-. cbn [app cast_I].
    rewrite (IH rest cs ws Er Hc). reflexivity.
Qed.

Lemma append_all_spec (order : byteorder) : ∀ (values : list N) (file : list byte)
    (vs : list N),
  Forall (fun v => v < 2 ^ 32)%N values → cast_I order file = Ok vs →
  ∃ file', append_all order file values = Ok file' ∧
           length file' = (length file + 4 * length values)%nat ∧
           cast_I order file' = Ok (vs ++ values).
Proof.
  induction values as [|v values IH]; intros file vs Hv Hf; cbn [append_all].
  - exists file. split; [reflexivity|]. split; [simpl; lia|].
    rewrite app_nil_r. exact Hf.
  - apply Forall_cons in Hv as [Hv Hvs].
    destruct (to_bytes_unpack order v Hv) as (b0 & b1 & b2 & b3 & Hb & Hu).
    unfold append_bytes. rewrite Hb. cbn [bind].
    destruct (IH (file ++ [b0; b1; b2; b3]) (vs ++ [v]) Hvs) as (file' & -> & Hl & Hc).
    { apply cast_I_app; [exact Hf|]. cbn [cast_I bind]. rewrite Hu. reflexivity. }
    exists file'. split; [reflexivity|]. split.
    + rewrite Hl, length_app. simpl. lia.
    + rewrite Hc, <- app_assoc. reflexivity.
Qed.

(** Round trip through the index file: values below 2^32 appended with a
    builder to a new file give four bytes each, and opening that file as
    a [DiskIntArray] gives back the values in order, for either byte
    order; the byte-level file behaves as the list of integers that
    models it, including the refusal to open an empty file. *)
Theorem index_file_round_trip (order : byteorder) (values : list N) :
  Forall (fun v => v < 2 ^ 32)%N values →
  ∃ file, append_all order [] values = Ok file ∧
          length file = (4 * length values)%nat ∧
          DiskIntArray_bytes order file = DiskIntArray values.
Proof.
  intros Hv.
  destruct (append_all_spec order values [] [] Hv eq_refl) as (file & Hrun & Hl & Hc).
  exists file. split; [exact Hrun|]. split; [exact Hl|].
  unfold DiskIntArray_bytes, DiskIntArray. simpl in Hc, Hl.
  destruct values as [|v values].
  - destruct file; [reflexivity|discriminate].
  - destruct file; [discriminate|]. exact Hc.
Qed.

Lemma index_file_round_trip_witness :
  ∃ file, append_all little [] [258; 3]%N = Ok file ∧
          length file = (4 * length [258; 3]%N)%nat ∧
          DiskIntArray_bytes little file = DiskIntArray [258; 3]%N.
Proof.
  apply (index_file_round_trip little [258; 3]%N).
  repeat constructor; change (2 ^ 32)%N with 4294967296%N; lia.
Defined.

End IndexFileFacts.

(** ** More about the build pipeline *)

Module BuildMore.

Import Sort BuildIndex BytesFacts ExactCompareFacts CollectFacts SearchFacts
       ExternalSortFacts PipelineFacts.

(** The bounded key never contradicts the exact order: when the 100-byte
    prefix keys of two offsets differ, the suffixes compare the same way
    as the keys, and suffixes in order have keys in order. *)
Theorem take_prefix_agrees (text : list byte) (p q : N) :
  (bytes_compare (take_prefix text p) (take_prefix text q) ≠ Eq →
   bytes_compare (suffix text p) (suffix text q)
   = bytes_compare (take_prefix text p) (take_prefix text q)) ∧
  (lex_le (suffix text p) (suffix text q) →
   bytes_leb (take_prefix text p) (take_prefix text q) = true).
Proof.
  unfold take_prefix. rewrite !text_slice_suffix. split.
  - intros Hne.
    rewrite (bytes_compare_chunk (N.to_nat COMPARE_BUFFER_SIZE)
               (suffix text p) (suffix text q)).
    destruct (bytes_compare (take (N.to_nat COMPARE_BUFFER_SIZE) (suffix text p))
                (take (N.to_nat COMPARE_BUFFER_SIZE) (suffix text q)));
      [contradiction|reflexivity|reflexivity].
  - intros Hle. apply bytes_leb_take. apply bytes_leb_le. exact Hle.
Qed.

Lemma exact_loop_value (text : list byte) : ∀ (fuel : nat) (p q : N) (r : Z),
  exact_loop fuel text p q = Ok r →
  r = sign_of (bytes_compare (suffix text p) (suffix text q)) ∧ r ≠ 0.
Proof.
  induction fuel as [|fuel IH]; intros p q r H; [discriminate|].
  cbn [exact_loop] in H. rewrite !text_slice_suffix in H.
  set (n := N.to_nat COMPARE_BUFFER_SIZE) in *.
  rewrite (bytes_compare_chunk n (suffix text p) (suffix text q)).
  destruct (bytes_eqb (take n (suffix text p)) (take n (suffix text q))) eqn:E;
    cbn [negb] in H.
  - apply IH in H. rewrite !suffix_add in H. fold n in H.
    unfold bytes_eqb in E.
    destruct (bytes_compare (take n (suffix text p)) (take n (suffix text q)));
      [exact H|discriminate|discriminate].
  - injection H as <-. rewrite (bytes_eqb_false_ltb _ _ E). unfold bytes_eqb in E.
    destruct (bytes_compare (take n (suffix text p)) (take n (suffix text q)));
      [discriminate|split; [reflexivity|discriminate]..].
Qed.

(** When the exact comparator returns and when it does not: the
    comparison of two offsets returns, given enough fuel, exactly when
    they are equal or at least one of them lies inside the text; whenever
    it returns, the result is the sign of the lexicographic comparison of
    the two suffixes. *)
Theorem exact_key_returns (text : list byte) (p q : N) :
  ((∃ (fuel : nat) (r : Z), exact_key fuel text p q = Ok r) ↔
   p = q ∨ in_text text p ∨ in_text text q) ∧
  (∀ (fuel : nat) (r : Z), exact_key fuel text p q = Ok r →
     r = sign_of (bytes_compare (suffix text p) (suffix text q))).
Proof.
  split; [split|].
  - intros (fuel & r & H). unfold exact_key in H.
    destruct (N.eqb_spec p q) as [->|Hne]; [left; reflexivity|].
    right. unfold in_text.
    destruct (Nat.lt_ge_cases (N.to_nat p) (length text)) as [|Hp]; [left; assumption|].
    destruct (Nat.lt_ge_cases (N.to_nat q) (length text)) as [|Hq]; [right; assumption|].
    rewrite (exact_loop_outside text fuel p q Hp Hq) in H. discriminate.
  - intros H. unfold exact_key.
    destruct (N.eqb_spec p q) as [->|Hne]; [exists 0%nat, 0; reflexivity|].
    exists (S (length text)). eexists. apply exact_loop_result.
    + rewrite !suffix_length. unfold in_text in H.
      destruct H as [H|[H|H]]; [contradiction|lia|lia].
    + rewrite !suffix_length. lia.
  - intros fuel r H. unfold exact_key in H.
    destruct (N.eqb_spec p q) as [->|Hne].
    + injection H as <-. rewrite bytes_compare_refl. reflexivity.
    + apply exact_loop_value in H. apply H.
Qed.

Lemma exact_lt (text : list byte) (fuel : nat) (p q : N) :
  in_text text p → in_text text q → (length text < fuel)%nat →
  lt (exact_compare fuel text) p q = Ok (bytes_ltb (suffix text p) (suffix text q)).
Proof.
  intros Hp Hq Hf. simpl. rewrite exact_key_result by assumption. cbn [bind].
  f_equal. unfold bytes_ltb.
  destruct (bytes_compare (suffix text p) (suffix text q)); reflexivity.
Qed.

Lemma sortedness_loop_spec (text : list byte) (fuel : nat) :
  (length text < fuel)%nat →
  ∀ (rest : list N) (i : Z) (st : scan_state),
    in_text text (left_ st) → Forall (in_text text) rest →
    length (printed st) = Nat.min (errs st) 10 →
    ∃ st', sortedness_loop fuel text rest i st = Ok st' ∧
           errs st' = (errs st + violations text (left_ st) rest)%nat ∧
           length (printed st') = Nat.min (errs st') 10.
Proof.
  intros Hf. induction rest as [|r rest IH]; intros i st Hl Hin Hpr.
  - exists st. split; [reflexivity|]. simpl. split; [lia|exact Hpr].
  - apply Forall_cons in Hin as [Hr Hin]. cbn [sortedness_loop violations].
    rewrite (exact_lt text fuel (left_ st) r Hl Hr Hf). cbn [bind].
    destruct (bytes_ltb (suffix text (left_ st)) (suffix text r)); cbn [negb].
    + destruct (IH (i + 1) {| left_ := r; errs := errs st; printed := printed st |})
        as (st' & -> & He & Hp); try assumption.
      exists st'. split; [reflexivity|]. cbn [errs left_] in He. split; [lia|exact Hp].
    + destruct (IH (i + 1)
                  {| left_ := r; errs := S (errs st);
                     printed := if (errs st <? 10)%nat
                                then printed st ++
                                     [(i, text_slice text (left_ st) (left_ st + 20)%N,
                                       text_slice text r (r + 20)%N)]
                                else printed st |})
        as (st' & -> & He & Hp); try assumption.
      { cbn [printed errs]. destruct (Nat.ltb_spec (errs st) 10).
        - rewrite length_app. simpl. lia.
        - lia. }
      exists st'. split; [reflexivity|]. cbn [errs left_] in He. split; [lia|exact Hp].
Qed.

(** What [test_sortedness] counts: the adjacent pairs of the sequence
    (offset 0, [index[1]], [index[2]], ...) whose first suffix is not
    strictly below the second.  It prints at most ten of them, returns
    when there is none and exits with the count otherwise; [index[0]] is
    never compared. *)
Theorem test_sortedness_counts (fuel : nat) (textfile : list byte) (indexfile : list N) :
  textfile ≠ [] → indexfile ≠ [] → Forall (in_text textfile) (drop 1 indexfile) →
  (length textfile < fuel)%nat →
  ∃ st, sortedness_scan fuel textfile indexfile = Ok st ∧
        errs st = violations textfile 0 (drop 1 indexfile) ∧
        length (printed st) = Nat.min (errs st) 10 ∧
        test_sortedness fuel textfile indexfile
        = if (errs st =? 0)%nat then Ok tt else Raise (SystemExit (errs st)).
Proof.
  intros Ht Hi Hin Hf. unfold test_sortedness, sortedness_scan.
  assert (Et : DiskBytesArray textfile = Ok textfile)
    by (destruct textfile; [congruence|reflexivity]).
  assert (Ei : DiskIntArray indexfile = Ok indexfile)
    by (destruct indexfile; [congruence|reflexivity]).
  rewrite Et, Ei. cbn [bind].
  destruct (sortedness_loop_spec textfile fuel Hf (drop 1 indexfile) 1
              {| left_ := 0; errs := 0; printed := [] |})
    as (st & -> & He & Hp); try assumption.
  { unfold in_text. cbn [left_]. destruct textfile; [congruence|simpl; lia]. }
  { reflexivity. }
  exists st. split; [reflexivity|]. cbn [errs left_] in He.
  split; [exact He|]. split; [exact Hp|]. cbn [bind].
  destruct (errs st); reflexivity.
Qed.

Lemma test_sortedness_counts_witness :
  ∃ st, sortedness_scan 4 text_b_a [2; 0]%N = Ok st ∧
        errs st = violations text_b_a 0 (drop 1 [2; 0]%N) ∧
        length (printed st) = Nat.min (errs st) 10 ∧
        test_sortedness 4 text_b_a [2; 0]%N
        = if (errs st =? 0)%nat then Ok tt else Raise (SystemExit (errs st)).
Proof.
  apply (test_sortedness_counts 4 text_b_a [2; 0]%N).
  - discriminate.
  - discriminate.
  - constructor; [unfold in_text; simpl; lia|constructor].
  - simpl. lia.
Defined.

Lemma suffix_sorted_tail (text : list byte) (p : N) (l : list N) :
  suffix_sorted text (p :: l) → suffix_sorted text l.
Proof. intros H i j a b Hij Ha Hb. apply (H (S i) (S j)); [lia|exact Ha|exact Hb]. Qed.

Lemma sorted_distinct_ltb (text : list byte) (p q : N) :
  in_text text p → in_text text q → p ≠ q →
  lex_le (suffix text p) (suffix text q) →
  bytes_ltb (suffix text p) (suffix text q) = true.
Proof.
  intros Hp Hq Hne [E|Hlt].
  - apply (f_equal length) in E. rewrite !suffix_length in E.
    unfold in_text in *. lia.
  - apply bytes_compare_lt in Hlt. unfold bytes_ltb. rewrite Hlt. reflexivity.
Qed.

Lemma sorted_no_violations (text : list byte) : ∀ (l : list N) (p : N),
  Forall (in_text text) (p :: l) → NoDup (p :: l) → suffix_sorted text (p :: l) →
  violations text p l = 0%nat.
Proof.
  induction l as [|r l IH]; intros p Hin Hnd Hs; [reflexivity|].
  cbn [violations].
  apply Forall_cons in Hin as [Hp Hin]. pose proof Hin as Hin'.
  apply Forall_cons in Hin' as [Hr _].
  apply NoDup_cons in Hnd as [Hnotin Hnd].
  rewrite (sorted_distinct_ltb text p r Hp Hr).
  - rewrite IH; [reflexivity|assumption|assumption|].
    apply (suffix_sorted_tail text p). exact Hs.
  - intros ->. apply Hnotin. left.
  - apply (Hs 0%nat 1%nat); [lia|reflexivity|reflexivity].
Qed.

Lemma test_sortedness_sorted (fuel : nat) (textfile : list byte) (indexfile : list N) :
  indexfile ≠ [] → Forall (in_text textfile) indexfile → NoDup indexfile →
  suffix_sorted textfile indexfile → (length textfile < fuel)%nat →
  test_sortedness fuel textfile indexfile
  = match indexfile !! 1%nat with
    | Some p1 =>
        if bytes_ltb (suffix textfile 0) (suffix textfile p1) then Ok tt
        else Raise (SystemExit 1)
    | None => Ok tt
    end.
Proof.
  intros Hi Hin Hnd Hs Hf.
  destruct indexfile as [|p0 rest]; [congruence|].
  assert (Ht : textfile ≠ []).
  { intros ->. apply Forall_cons in Hin as [H0 _]. unfold in_text in H0.
    simpl in H0. lia. }
  apply Forall_cons in Hin as [_ Hin]. apply NoDup_cons in Hnd as [_ Hnd].
  apply suffix_sorted_tail in Hs.
  unfold test_sortedness, sortedness_scan.
  assert (Et : DiskBytesArray textfile = Ok textfile)
    by (destruct textfile; [congruence|reflexivity]).
  rewrite Et. cbn [DiskIntArray bind]. change (drop 1 (p0 :: rest)) with rest.
  destruct (sortedness_loop_spec textfile fuel Hf rest 1
              {| left_ := 0; errs := 0; printed := [] |})
    as (st & -> & He & _); try assumption.
  { unfold in_text. cbn [left_]. destruct textfile; [congruence|simpl; lia]. }
  { reflexivity. }
  cbn [bind errs left_] in *. rewrite He.
  destruct rest as [|p1 rest]; [reflexivity|].
  cbn [violations lookup list_lookup].
  rewrite (sorted_no_violations textfile rest p1 Hin Hnd Hs).
  simpl. destruct (bytes_ltb (suffix textfile 0) (suffix textfile p1)); reflexivity.
Qed.

(** On an index that is strictly sorted by exact suffix order,
    [test_sortedness] returns exactly when the index has a single entry
    or the whole text is strictly below the suffix at [index[1]]; in the
    other case it exits with one ordering error although the index is in
    order. *)
Theorem test_sortedness_on_sorted_index (fuel : nat) (textfile : list byte)
    (indexfile : list N) :
  indexfile ≠ [] → Forall (in_text textfile) indexfile → NoDup indexfile →
  suffix_sorted textfile indexfile → (length textfile < fuel)%nat →
  test_sortedness fuel textfile indexfile
  = match indexfile !! 1%nat with
    | Some p1 =>
        if bytes_ltb (suffix textfile 0) (suffix textfile p1) then Ok tt
        else Raise (SystemExit 1)
    | None => Ok tt
    end.
Proof. apply test_sortedness_sorted. Qed.

Lemma test_sortedness_on_sorted_index_witness :
  test_sortedness 4 text_b_a [2; 0]%N
  = match [2; 0]%N !! 1%nat with
    | Some p1 =>
        if bytes_ltb (suffix text_b_a 0) (suffix text_b_a p1) then Ok tt
        else Raise (SystemExit 1)
    | None => Ok tt
    end.
Proof.
  apply (test_sortedness_on_sorted_index 4 text_b_a [2; 0]%N).
  - discriminate.
  - repeat (constructor; [unfold in_text; simpl; lia|]). constructor.
  - apply NoDup_cons. split; [|apply NoDup_singleton].
    intros H. apply list_elem_of_singleton in H. discriminate.
  - exact suffix_sorted_b_a.
  - simpl. lia.
Defined.

Lemma word_starts_facts (textfile : list byte) :
  Forall (in_text textfile) (word_starts textfile) ∧ NoDup (word_starts textfile) ∧
  (length (word_starts textfile) <= length textfile)%nat.
Proof.
  split; [|split].
  - apply Forall_forall. intros p Hp. apply list_elem_of_In, word_starts_In in Hp.
    destruct Hp as (c & Hc & _). apply lookup_lt_Some in Hc. exact Hc.
  - pose proof (filter_seq_sorted (word_startb textfile) (length textfile) 0) as [Hs _].
    fold (word_starts textfile) in Hs.
    induction Hs as [|x l Hs IH Hx]; [constructor|].
    apply NoDup_cons. split; [|exact IH].
    intros Hin. rewrite Forall_forall in Hx. specialize (Hx x Hin). lia.
  - unfold word_starts. rewrite length_map.
    etransitivity; [apply List.filter_length_le|]. rewrite length_seq. reflexivity.
Qed.

Lemma collect_word_starts (textfile : list byte) :
  textfile ≠ [] → (N.of_nat (length textfile) <= 2 ^ 32)%N →
  collect_corpus_positions textfile = Ok (word_starts textfile).
Proof.
  intros Ht Hlen. unfold collect_corpus_positions.
  assert (Et : DiskBytesArray textfile = Ok textfile)
    by (destruct textfile; [congruence|reflexivity]).
  rewrite Et. cbn [bind]. exact (collect_loop_spec textfile [] [] Hlen).
Qed.

(** The build as a whole, on a text of at most 2^32 bytes with at least
    one word: the index after sorting is a rearrangement of the word
    starts in suffix order, and the build returns it exactly when the
    text has a single word or the whole text is strictly below the suffix
    at the second index entry; otherwise the build exits with one
    ordering error.  The one other way the build can end is
    [RecursionError] from the quicksort of the external sorter, when the
    text has at least as many words as the recursion depth the
    interpreter admits. *)
Theorem build_suffix_array_outcome (depth fuel : nat) (textfile : list byte)
    (cutoff : Z) :
  (N.of_nat (length textfile) <= 2 ^ 32)%N → word_starts textfile ≠ [] →
  (length textfile < fuel)%nat →
  (∃ index,
     sort_suffix_array depth fuel textfile (word_starts textfile) cutoff = Ok index ∧
     Permutation (word_starts textfile) index ∧ suffix_sorted textfile index ∧
     build_suffix_array depth fuel textfile cutoff
     = match index !! 1%nat with
       | Some p1 =>
           if bytes_ltb (suffix textfile 0) (suffix textfile p1) then Ok index
           else Raise (SystemExit 1)
       | None => Ok index
       end) ∨
  (build_suffix_array depth fuel textfile cutoff = Raise RecursionError ∧
   (depth <= length (word_starts textfile))%nat).
Proof.
  intros Hlen Hw Hf.
  assert (Ht : textfile ≠ []) by (intros ->; apply Hw; reflexivity).
  destruct (word_starts_facts textfile) as (Hin & Hnd & Hl).
  destruct (sort_suffix_array_traced_total depth fuel textfile (word_starts textfile)
              cutoff Hw Hin Hf ltac:(lia)) as [(index & Hrun & Hperm & Hs)|[Hrun Hd]].
  - assert (Hsort : sort_suffix_array depth fuel textfile (word_starts textfile) cutoff
                    = Ok index).
    { unfold sort_suffix_array. rewrite Hrun. reflexivity. }
    left. exists index. split; [exact Hsort|]. split; [exact Hperm|]. split; [exact Hs|].
    unfold build_suffix_array. rewrite (collect_word_starts textfile Ht Hlen).
    cbn [bind]. rewrite Hsort. cbn [bind].
    rewrite (test_sortedness_sorted fuel textfile index).
    + destruct (index !! 1%nat) as [p1|]; [|reflexivity].
      destruct (bytes_ltb (suffix textfile 0) (suffix textfile p1)); reflexivity.
    + intros ->. apply Permutation_nil_r in Hperm. contradiction.
    + rewrite <- Hperm. exact Hin.
    + rewrite <- Hperm. exact Hnd.
    + exact Hs.
    + exact Hf.
  - right. split; [|exact Hd].
    unfold build_suffix_array. rewrite (collect_word_starts textfile Ht Hlen).
    cbn [bind]. unfold sort_suffix_array. rewrite Hrun. reflexivity.
Qed.

Lemma build_suffix_array_outcome_witness :
  (∃ index,
     sort_suffix_array 4 4 text_b_a (word_starts text_b_a) SORTING_CUTOFF = Ok index ∧
     Permutation (word_starts text_b_a) index ∧ suffix_sorted text_b_a index ∧
     build_suffix_array 4 4 text_b_a SORTING_CUTOFF
     = match index !! 1%nat with
       | Some p1 =>
           if bytes_ltb (suffix text_b_a 0) (suffix text_b_a p1) then Ok index
           else Raise (SystemExit 1)
       | None => Ok index
       end) ∨
  (build_suffix_array 4 4 text_b_a SORTING_CUTOFF = Raise RecursionError ∧
   (4 <= length (word_starts text_b_a))%nat).
Proof.
  apply (build_suffix_array_outcome 4 4 text_b_a SORTING_CUTOFF).
  - simpl. lia.
  - discriminate.
  - simpl. lia.
Defined.

Lemma collect_loop_no_words : ∀ (rest : list byte) (i : N) (previous : byte)
    (index : list N),
  Forall (fun b => isalnum b = false) rest →
  collect_loop rest i previous index = Ok index.
Proof.
  induction rest as [|c rest IH]; intros i previous index H; [reflexivity|].
  apply Forall_cons in H as [Hc H]. cbn [collect_loop]. rewrite Hc. cbn [andb bind].
  apply IH. exact H.
Qed.

(** A text without any alphanumeric byte, the empty text included,
    cannot be indexed: the build raises [ValueError], for the empty text
    when the text is mapped and otherwise when the empty index file is. *)
Theorem build_without_words (depth fuel : nat) (textfile : list byte) (cutoff : Z) :
  Forall (fun b => isalnum b = false) textfile →
  build_suffix_array depth fuel textfile cutoff = Raise ValueError.
Proof.
  intros H. unfold build_suffix_array, collect_corpus_positions.
  destruct textfile as [|b text]; [reflexivity|].
  cbn [DiskBytesArray bind].
  rewrite (collect_loop_no_words (b :: text) 0 " "%byte [] H). cbn [bind].
  reflexivity.
Qed.

Lemma build_without_words_witness :
  build_suffix_array 4 4 [x20; x21]%byte SORTING_CUTOFF = Raise ValueError.
Proof.
  apply (build_without_words 4 4 [x20; x21]%byte SORTING_CUTOFF).
  repeat constructor.
Defined.

Lemma suffix_sorted_SSorted (text : list byte) : ∀ l : list N,
  suffix_sorted text l →
  StronglySorted (fun a b => bytes_leb a b = true) (map (suffix text) l).
Proof.
  induction l as [|p l IH]; intros Hs; [constructor|].
  simpl. constructor; [apply IH; apply (suffix_sorted_tail text p); exact Hs|].
  apply Forall_map. apply Forall_lookup. intros j q Hq. simpl.
  apply bytes_leb_le. apply (Hs 0%nat (S j)); [lia|reflexivity|exact Hq].
Qed.

Lemma suffix_injective (text : list byte) (p q : N) :
  in_text text p → in_text text q → suffix text p = suffix text q → p = q.
Proof.
  intros Hp Hq E. apply (f_equal length) in E. rewrite !suffix_length in E.
  unfold in_text in *. lia.
Qed.

(** Whatever the external sorter returns is the one rearrangement of the
    index that is in suffix order. *)
Lemma sort_suffix_array_unique (depth fuel : nat) (textfile : list byte)
    (indexfile sorted_index result : list N) (cutoff : Z) :
  indexfile ≠ [] → Forall (in_text textfile) indexfile →
  Permutation indexfile sorted_index → suffix_sorted textfile sorted_index →
  (length textfile < fuel)%nat → (length indexfile < fuel)%nat →
  sort_suffix_array depth fuel textfile indexfile cutoff = Ok result →
  result = sorted_index.
Proof.
  intros Hne Hin Hperm Hs Hft Hfi Hres.
  unfold sort_suffix_array in Hres.
  destruct (sort_suffix_array_traced_total depth fuel textfile indexfile cutoff
              Hne Hin Hft Hfi) as [(index' & Hrun & Hperm' & Hs')|[Hrun _]];
    rewrite Hrun in Hres; cbn [bind] in Hres; [|discriminate Hres].
  injection Hres as <-.
  apply (SortTheorems.map_key_injective (suffix textfile)).
  - apply (SortTheorems.sorted_keys_unique bytes_ord bytes_leb bytes_ord_total_order).
    + apply Permutation_map. rewrite <- Hperm'. exact Hperm.
    + apply suffix_sorted_SSorted. exact Hs'.
    + apply suffix_sorted_SSorted. exact Hs.
  - rewrite Forall_forall in Hin. intros x y Hx Hy. apply suffix_injective.
    + apply Hin. apply list_elem_of_In.
      apply (Permutation_in _ (Permutation_sym Hperm')). exact Hx.
    + apply Hin. apply list_elem_of_In.
      apply (Permutation_in _ (Permutation_sym Hperm)). exact Hy.
Qed.

Lemma sort_suffix_array_returns (depth fuel : nat) (textfile : list byte)
    (indexfile : list N) (cutoff : Z) :
  indexfile ≠ [] → Forall (in_text textfile) indexfile → (length indexfile < depth)%nat →
  (length textfile < fuel)%nat → (length indexfile < fuel)%nat →
  ∃ index', sort_suffix_array depth fuel textfile indexfile cutoff = Ok index' ∧
            Permutation indexfile index' ∧ suffix_sorted textfile index'.
Proof.
  intros Hne Hin Hd Hft Hfi.
  destruct (sort_suffix_array_traced_spec depth fuel textfile indexfile cutoff
              Hne Hin Hd Hft Hfi) as (index' & Hrun & Hperm & Hs).
  exists index'. unfold sort_suffix_array. rewrite Hrun. auto.
Qed.

(** The external sorter is canonical: on a non-empty index of offsets
    inside the text, what it returns is the one rearrangement that is in
    suffix order.  So whenever it returns on two indexes with the same
    entries, at whatever recursion depths, it returns the same array; and
    when the recursion depth the interpreter admits exceeds the index
    length, so that the sorter returns on both, two indexes with the same
    entries sort to the same array and an index already in suffix order is
    returned unchanged. *)
Theorem sort_suffix_array_canonical (depth fuel : nat) (textfile : list byte)
    (index1 index2 : list N) (cutoff : Z) :
  index1 ≠ [] → Forall (in_text textfile) index1 → Permutation index1 index2 →
  (length textfile < fuel)%nat → (length index1 < fuel)%nat →
  (∀ (depth1 depth2 : nat) (sorted1 sorted2 : list N),
     sort_suffix_array depth1 fuel textfile index1 cutoff = Ok sorted1 →
     sort_suffix_array depth2 fuel textfile index2 cutoff = Ok sorted2 →
     sorted1 = sorted2) ∧
  ((length index1 < depth)%nat →
   (∃ sorted_index,
      sort_suffix_array depth fuel textfile index1 cutoff = Ok sorted_index ∧
      sort_suffix_array depth fuel textfile index2 cutoff = Ok sorted_index) ∧
   (suffix_sorted textfile index1 →
    sort_suffix_array depth fuel textfile index1 cutoff = Ok index1)).
Proof.
  intros Hne Hin Hperm Hft Hfi.
  assert (Hne2 : index2 ≠ []).
  { intros ->. apply Permutation_nil_r in Hperm. contradiction. }
  assert (Hin2 : Forall (in_text textfile) index2) by (rewrite <- Hperm; exact Hin).
  assert (Hfi2 : (length index2 < fuel)%nat)
    by (rewrite <- (Permutation_length Hperm); exact Hfi).
  split.
  - intros depth1 depth2 sorted1 sorted2 H1 H2.
    destruct (exact_insertion_sort fuel textfile index1 Hin Hft Hfi)
      as (s & _ & Hp & Hs).
    rewrite (sort_suffix_array_unique depth1 fuel textfile index1 s sorted1 cutoff)
      by assumption.
    rewrite (sort_suffix_array_unique depth2 fuel textfile index2 s sorted2 cutoff);
      try assumption; [reflexivity|].
    rewrite <- Hperm. exact Hp.
  - intros Hd.
    destruct (sort_suffix_array_returns depth fuel textfile index1 cutoff
                Hne Hin Hd Hft Hfi) as (s1 & R1 & P1 & S1).
    destruct (sort_suffix_array_returns depth fuel textfile index2 cutoff
                Hne2 Hin2 ltac:(rewrite <- (Permutation_length Hperm); exact Hd) Hft Hfi2)
      as (s2 & R2 & P2 & S2).
    split.
    + exists s1. split; [exact R1|]. rewrite R2. f_equal.
      apply (sort_suffix_array_unique depth fuel textfile index2 s1 s2 cutoff);
        try assumption.
      rewrite <- Hperm. exact P1.
    + intros Hs. rewrite R1. f_equal.
      apply (sort_suffix_array_unique depth fuel textfile index1 index1 s1 cutoff);
        try assumption. reflexivity.
Qed.

Lemma sort_suffix_array_canonical_witness :
  (∀ (depth1 depth2 : nat) (sorted1 sorted2 : list N),
     sort_suffix_array depth1 4 text_b_a [0; 2]%N SORTING_CUTOFF = Ok sorted1 →
     sort_suffix_array depth2 4 text_b_a [2; 0]%N SORTING_CUTOFF = Ok sorted2 →
     sorted1 = sorted2) ∧
  ((length [0; 2]%N < 4)%nat →
   (∃ sorted_index,
      sort_suffix_array 4 4 text_b_a [0; 2]%N SORTING_CUTOFF = Ok sorted_index ∧
      sort_suffix_array 4 4 text_b_a [2; 0]%N SORTING_CUTOFF = Ok sorted_index) ∧
   (suffix_sorted text_b_a [0; 2]%N →
    sort_suffix_array 4 4 text_b_a [0; 2]%N SORTING_CUTOFF = Ok [0; 2]%N)).
Proof.
  apply (sort_suffix_array_canonical 4 4 text_b_a [0; 2]%N [2; 0]%N SORTING_CUTOFF).
  - discriminate.
  - exact PipelineFacts.in_text_b_a.
  - apply perm_swap.
  - simpl. lia.
  - simpl. lia.
Defined.

End BuildMore.

(** ** Build, query and test harness end to end *)

Module EndToEnd.

Import Sort SortChecks BuildIndex SearchIndex SearchQuery BytesFacts CollectFacts
       SearchFacts PartitionFacts SortFacts PivotFacts ChecksFacts QueryFacts BuildMore
       PipelineFacts.

(** Querying a built index: when the index holds the word starts of the
    text in suffix order and [num_matches] is at least its length,
    [search_suffix_array] prints exactly the word starts at which the key
    occurs in the text. *)
Theorem search_finds_word_occurrences (fuel : nat) (textfile : list byte)
    (indexfile : list N) (search_key : list byte) (num_matches : Z) :
  indexfile ≠ [] → Permutation (word_starts textfile) indexfile →
  suffix_sorted textfile indexfile → (length indexfile <= fuel)%nat →
  Z.of_nat (length indexfile) <= num_matches →
  ∃ out, search_suffix_array fuel textfile indexfile search_key num_matches = Ok out ∧
         ∀ p, In (call_of search_key p) out ↔
              word_start textfile p ∧ truncated textfile search_key p = search_key.
Proof.
  intros Hi Hperm Hs Hf Hn.
  assert (Ht : textfile ≠ []).
  { intros ->. apply Hi. apply Permutation_nil. exact Hperm. }
  rewrite (search_suffix_array_spec fuel textfile indexfile search_key num_matches
             Ht Hi Hs Hf).
  eexists. split; [reflexivity|]. intros p.
  rewrite take_ge.
  2:{ etransitivity; [apply List.filter_length_le|]. lia. }
  rewrite in_map_iff. split.
  - intros (q & E & Hq). unfold call_of in E. injection E as -> _.
    apply filter_In in Hq as [Hq Hm]. split.
    + apply word_starts_In. apply (Permutation_in _ (Permutation_sym Hperm)). exact Hq.
    + apply matchb_true. exact Hm.
  - intros [Hw Hm]. exists p. split; [reflexivity|]. apply filter_In. split.
    + apply (Permutation_in _ Hperm). apply word_starts_In. exact Hw.
    + apply matchb_true. exact Hm.
Qed.

Lemma search_finds_word_occurrences_witness :
  ∃ out, search_suffix_array 2 text_b_a [2; 0]%N [x61]%byte 20 = Ok out ∧
         ∀ p, In (call_of [x61]%byte p) out ↔
              word_start text_b_a p ∧ truncated text_b_a [x61]%byte p = [x61]%byte.
Proof.
  apply (search_finds_word_occurrences 2 text_b_a [2; 0]%N [x61]%byte 20).
  - discriminate.
  - apply perm_swap.
  - exact suffix_sorted_b_a.
  - simpl. lia.
  - simpl. lia.
Defined.

Lemma range_strictly_sorted : ∀ (n a : nat),
  StronglySorted (key_lt id N.leb) (map N.of_nat (seq a n)).
Proof.
  induction n as [|n IH]; intros a; simpl; constructor; [apply IH|].
  apply Forall_map. apply Forall_forall. intros k Hk.
  apply elem_of_seq in Hk. unfold key_lt, id. simpl. apply N.leb_gt. lia.
Qed.

(** One round of the test harness from start to end: for every size from
    1 to 2^32 and every outcome of the random source, the array written
    by [create_partially_shuffled_array] passes both checks after
    [insertion_sort], and after [quicksort] (any cutoff, any pivot
    strategy that returns an index of its subrange) unless the recursion
    of [quicksort] runs into the interpreter's limit, which takes a size
    of at least the recursion depth admitted.  When no round of the
    shuffle swaps (randomness 0) the array is written in increasing
    order, and [quicksort] with the first element as pivot and cutoff 0
    passes exactly when the depth admitted exceeds the size, and raises
    [RecursionError] otherwise. *)
Theorem test_sorting_algorithm_round (depth fuel : nat) (coin : Z → bool)
    (randrange : Z → Z → Z) (size : Z)
    (pivotselector : list N → Z → Z → res (option Z)) (cutoff : Z) :
  1 <= size <= 2 ^ 32 →
  (∀ i, 0 <= i < size → i <= randrange i size < size) →
  pivot_inrange pivotselector → (Z.to_nat size < fuel)%nat →
  ∃ numbers,
    create_partially_shuffled_array coin randrange size = Ok numbers ∧
    (test_body (fun a => quicksort id int_ord depth fuel a pivotselector cutoff) numbers
       = Ok Passed ∨
     (test_body (fun a => quicksort id int_ord depth fuel a pivotselector cutoff) numbers
        = Raise RecursionError ∧ (depth <= Z.to_nat size)%nat)) ∧
    test_body (insertion_sort id int_ord fuel) numbers = Ok Passed ∧
    ((∀ i, coin i = false) →
     test_body (fun a => quicksort id int_ord depth fuel a take_first_pivot 0) numbers
     = if (Z.to_nat size <? depth)%nat then Ok Passed else Raise RecursionError).
Proof.
  intros Hs Hr Hsel Hf.
  destruct (proj2 (create_shuffled_spec coin randrange size) Hs Hr)
    as (numbers & Hrun & Hperm & Hid).
  exists numbers. split; [exact Hrun|].
  assert (Hlen : length numbers = Z.to_nat size).
  { rewrite <- (Permutation_length Hperm), length_map, length_seq. reflexivity. }
  assert (Hne : numbers ≠ []).
  { intros ->. simpl in Hlen. lia. }
  assert (Hnd : NoDup numbers).
  { rewrite <- Hperm. apply NoDup_fmap; [intros x y; lia|]. apply NoDup_seq. }
  destruct (test_body_both depth fuel numbers pivotselector cutoff Hne Hsel ltac:(lia))
    as [Hpass _].
  destruct (Hpass Hnd) as [Hq Hi]. rewrite Hlen in Hq.
  split; [exact Hq|]. split; [exact Hi|].
  intros Hcoin. rewrite <- Hlen.
  destruct (Nat.ltb_spec (length numbers) depth) as [Hd|Hd].
  - destruct (test_body_both depth fuel numbers take_first_pivot 0 Hne
                (take_first_pivot_inrange (A := N)) ltac:(lia)) as [Hpass' _].
    destruct (Hpass' Hnd) as [[Hok|[_ Hbad]] _]; [exact Hok|lia].
  - apply test_body_raises.
    rewrite (SortMore.quicksort_sorted_first id int_ord N.leb int_ord_total_order depth fuel
               numbers 0); [| |lia|lia].
    + destruct (Nat.ltb_spec (length numbers) depth); [lia|reflexivity].
    + rewrite (Hid Hcoin). apply range_strictly_sorted.
Qed.

Lemma test_sorting_algorithm_round_witness :
  ∃ numbers,
    create_partially_shuffled_array (fun _ => true) (fun lo hi => hi - 1) 3 = Ok numbers ∧
    (test_body (fun a => quicksort id int_ord 4 4 a take_first_pivot 0) numbers
       = Ok Passed ∨
     (test_body (fun a => quicksort id int_ord 4 4 a take_first_pivot 0) numbers
        = Raise RecursionError ∧ (4 <= Z.to_nat 3)%nat)) ∧
    test_body (insertion_sort id int_ord 4) numbers = Ok Passed ∧
    ((∀ i : Z, (fun _ : Z => true) i = false) →
     test_body (fun a => quicksort id int_ord 4 4 a take_first_pivot 0) numbers
     = if (Z.to_nat 3 <? 4)%nat then Ok Passed else Raise RecursionError).
Proof.
  apply (test_sorting_algorithm_round 4 4 (fun _ => true) (fun lo hi => hi - 1) 3
           take_first_pivot 0).
  - lia.
  - intros i Hi. lia.
  - apply take_first_pivot_inrange.
  - simpl. lia.
Defined.

End EndToEnd.

(** ** The theorems about sort.py at a concrete array *)

Module SortMoreWitnesses.

Import Sort SortChecks PartitionFacts SortFacts PivotFacts SortTheorems SortMore ChecksFacts.

Lemma median_of_three_is_median_witness :
  ∃ p xlo xmid xhi,
    median_of_three (fun x : Z => x) Z_ord [3; 1; 2] 0 3 = Ok (Some p) ∧
    [3; 1; 2] !! Z.to_nat 0 = Some xlo ∧
    [3; 1; 2] !! Z.to_nat ((0 + 3 - 1) / 2) = Some xmid ∧
    [3; 1; 2] !! Z.to_nat (3 - 1) = Some xhi ∧
    ((p = 0 ∧ between Z.leb xlo xmid xhi) ∨
     (p = (0 + 3 - 1) / 2 ∧ between Z.leb xmid xlo xhi) ∨
     (p = 3 - 1 ∧ between Z.leb xhi xlo xmid)).
Proof.
  apply (median_of_three_is_median (fun x : Z => x) Z_ord Z.leb Z_ord_total_order
           [3; 1; 2] 0 3).
  - lia.
  - simpl. lia.
Defined.

Lemma quicksort_sorts_witness :
  (∃ array',
     quicksort (fun x : Z => x) Z_ord 4 4 [3; 1; 2] take_first_pivot 0 = Ok array' ∧
     Permutation [3; 1; 2] array' ∧ key_sorted (fun x : Z => x) Z.leb array') ∨
  (quicksort (fun x : Z => x) Z_ord 4 4 [3; 1; 2] take_first_pivot 0
   = Raise RecursionError ∧ (4 <= length [3; 1; 2])%nat).
Proof.
  apply (quicksort_sorts (fun x : Z => x) Z_ord Z.leb Z_ord_total_order
           4 4 [3; 1; 2] take_first_pivot 0).
  - apply take_first_pivot_inrange.
  - simpl. lia.
Defined.

Lemma quicksort_sorted_input_depth_witness :
  quicksort (fun x : Z => x) Z_ord 3 4 [1; 2; 3] take_first_pivot 0
  = if (length [1; 2; 3] <? 3)%nat then Ok [1; 2; 3] else Raise RecursionError.
Proof.
  apply (quicksort_sorted_input_depth (fun x : Z => x) Z_ord Z.leb Z_ord_total_order
           3 4 [1; 2; 3] 0).
  - repeat constructor.
  - lia.
  - simpl. lia.
Defined.

Lemma builtin_timsort_subrange_witness :
  ∃ seg', builtin_timsort (fun x : Z => x) Z_ord [3; 1; 2] 0 2
          = Ok (take (Z.to_nat 0) [3; 1; 2] ++ seg' ++ drop (Z.to_nat 2) [3; 1; 2]) ∧
          Permutation (slice [3; 1; 2] 0 2) seg' ∧ key_sorted (fun x : Z => x) Z.leb seg'.
Proof.
  apply (builtin_timsort_subrange (fun x : Z => x) Z_ord Z.leb Z_ord_total_order
           [3; 1; 2] 0 2).
  - lia.
  - simpl. lia.
Defined.

Lemma insertion_sort_sorts_witness :
  ∃ array', insertion_sort (fun x : Z => x) Z_ord 4 [3; 1; 2] = Ok array' ∧
            Permutation [3; 1; 2] array' ∧ key_sorted (fun x : Z => x) Z.leb array'.
Proof.
  apply (insertion_sort_sorts (fun x : Z => x) Z_ord Z.leb Z_ord_total_order 4 [3; 1; 2]).
  simpl. lia.
Defined.

Lemma quicksort_large_cutoff_witness :
  quicksort (fun x : Z => x) Z_ord (S 0) 0 [3; 1; 2] take_first_pivot 3
  = sorted (fun x : Z => x) Z_ord [3; 1; 2].
Proof.
  apply (quicksort_large_cutoff (fun x : Z => x) Z_ord 0 0 [3; 1; 2] take_first_pivot 3).
  simpl. lia.
Defined.

Lemma partition_frame_witness :
  ∃ array' p pv,
    partition (fun x : Z => x) Z_ord 4 [3; 1; 2; 0] 1 3 take_first_pivot = Ok (array', p) ∧
    1 <= p < 3 ∧ length array' = length [3; 1; 2; 0] ∧
    [3; 1; 2; 0] !! Z.to_nat 1 = Some pv ∧ array' !! Z.to_nat p = Some pv ∧
    (∀ k : nat, Z.of_nat k < 1 ∨ 3 <= Z.of_nat k → array' !! k = [3; 1; 2; 0] !! k).
Proof.
  apply (partition_frame (fun x : Z => x) Z_ord 4 [3; 1; 2; 0] 1 3 1 take_first_pivot).
  - exact (total_order_comparable Z_ord Z.leb Z_ord_total_order).
  - lia.
  - simpl. lia.
  - reflexivity.
  - lia.
  - simpl. lia.
Defined.

Lemma insertion_sort_stable_witness :
  ∃ array', insertion_sort (fun x : Z => x / 10) Z_ord 4 [31; 12; 30] = Ok array' ∧
            ∀ k, List.filter (same_key (fun x : Z => x / 10) Z.leb k) array'
                 = List.filter (same_key (fun x : Z => x / 10) Z.leb k) [31; 12; 30].
Proof.
  apply (insertion_sort_stable (fun x : Z => x / 10) Z_ord Z.leb Z_ord_total_order
           4 [31; 12; 30]).
  simpl. lia.
Defined.

Lemma insertion_sort_eq_sorted_witness :
  insertion_sort (fun x : Z => x / 10) Z_ord 4 [31; 12; 30]
  = sorted (fun x : Z => x / 10) Z_ord [31; 12; 30].
Proof.
  apply (insertion_sort_eq_sorted (fun x : Z => x / 10) Z_ord Z.leb Z_ord_total_order
           4 [31; 12; 30]).
  simpl. lia.
Defined.

Lemma insertion_sort_sorted_input_witness :
  insertion_sort (fun x : Z => x / 10) Z_ord 4 [12; 31; 30] = Ok [12; 31; 30].
Proof.
  apply (insertion_sort_sorted_input (fun x : Z => x / 10) Z_ord Z.leb Z_ord_total_order
           4 [12; 31; 30]).
  - repeat constructor.
  - simpl. lia.
Defined.

Lemma check_sorted_array_strict_witness :
  ([1; 2; 2] = [] → check_sorted_array (fun x : Z => x) Z_ord [1; 2; 2] = Raise IndexError) ∧
  (check_sorted_array (fun x : Z => x) Z_ord [1; 2; 2] = Ok Passed ↔
   [1; 2; 2] ≠ [] ∧ StronglySorted (key_lt (fun x : Z => x) Z.leb) [1; 2; 2]) ∧
  ([1; 2; 2] ≠ [] → ¬ StronglySorted (key_lt (fun x : Z => x) Z.leb) [1; 2; 2] →
   ∃ i, check_sorted_array (fun x : Z => x) Z_ord [1; 2; 2] = Ok (OrderingError i)).
Proof.
  exact (check_sorted_array_strict (fun x : Z => x) Z_ord Z.leb Z_ord_total_order [1; 2; 2]).
Defined.

End SortMoreWitnesses.
